(** * EPOCH: a shallow embedding of the civilware/epoch work engine

  The development follows [epoch.go] and the RPC adapter file that declares
  [EPOCH_Result] and [GetSessionEPOCH_Result].  The package-level variable
  [epoch] becomes an explicit record [EPOCH] that every operation takes and
  returns.  Go's [int] is the 64-bit signed integer and [uint64] the 64-bit
  unsigned one; both are carried by [Z] and every arithmetic statement of the
  source writes its wrap-around out.  Goroutines are modelled further down by
  an interleaving semantics driven by an explicit schedule.  The last part
  of the definitions covers the rest of the package: the port getter, the
  polling for a job, the methods of the RPC adapter and its handler table. *)

From Stdlib Require Import ZArith Lia Ascii.
From stdpp Require Import base tactics option list strings pretty gmap.

Local Open Scope Z_scope.

(** ** Machine integers *)

Definition wrap_int (z : Z) : Z := (z + 2 ^ 63) mod 2 ^ 64 - 2 ^ 63.
Definition wrap_uint64 (z : Z) : Z := z mod 2 ^ 64.
Definition int_range (z : Z) : Prop := - 2 ^ 63 <= z < 2 ^ 63.

(** ** Data model *)

Module rpc.
(** Modelled from the spec: the job template type is declared by the DERO
    library ([rpc.GetBlockTemplate_Result]), outside this repository.  The
    fields are the ones of the JSON record of README.md and of spec
    section 6: job id, hex work blob, decimal difficulty, height,
    last-error, status and the counters sent along. *)
Record GetBlockTemplate_Result := {
  JobID : string;
  Blockhashing_blob : string;
  Difficulty : string;
  Difficultyuint64 : Z;
  Height : Z;
  Prev_Hash : string;
  EpochMilli : Z;
  Blocks : Z;
  MiniBlocks : Z;
  Rejected : Z;
  LastError : string;
  Status : string
}.

(** The zero value of the struct. *)
Definition zero : GetBlockTemplate_Result :=
  {| JobID := ""; Blockhashing_blob := ""; Difficulty := "";
     Difficultyuint64 := 0; Height := 0; Prev_Hash := ""; EpochMilli := 0;
     Blocks := 0; MiniBlocks := 0; Rejected := 0; LastError := "";
     Status := "" |}.

(** Outbound message of [submitBlock]. *)
Record SubmitBlock_Params := {
  sb_JobID : string;
  MiniBlockhashing_blob : string
}.
End rpc.

(** Errors of [encoding/hex]. *)
Inductive hex_error :=
| InvalidByteError (b : Z)
| ErrLength.

(** One constructor per [fmt.Errorf] site of the package; errors handed back
    by collaborators (address validation, host parsing, dialing, the socket
    write) are opaque. *)
Inductive error :=
| ErrNotActive
| ErrHashesExceedMax (hashes maxHashes : Z)
| ErrSubmissionExceedsMax (maxHashes l : Z)
| ErrCannotExceed (limit : Z)
| ErrInvalidPort
| ErrAlreadyRunning
| ErrCouldNotGetHost
| ErrCouldNotSetAddress
| ErrAddressNotValid (address : string)
| ErrInvalidAddress
| ErrDial
| ErrSessionTimeout
| ErrNotDecoded (job : rpc.GetBlockTemplate_Result) (n : Z) (e : option hex_error)
| ErrUnknownVersion (v : Z)
| ErrConnectionClosed
| ErrWrite.

(** A Go call either returns or panics; an unrecovered panic ends the
    process. *)
Inductive outcome (A : Type) :=
| Panic
| Ret (a : A).
Arguments Panic {A}.
Arguments Ret {A} a.

(** [GetSessionEPOCH_Result]. *)
Record GetSessionEPOCH_Result := {
  Hashes : Z;        (* uint64 *)
  MiniBlocks : Z;    (* int *)
  Version : string
}.

Definition session_zero : GetSessionEPOCH_Result :=
  {| Hashes := 0; MiniBlocks := 0; Version := "" |}.

(** [EPOCH_Result]; [HashPerSec] is a float64 computed from the wall clock and
    is left out, [Duration] is whatever the clock reports. *)
Record EPOCH_Result := {
  res_Hashes : Z;      (* uint64 *)
  res_Submitted : Z;   (* int *)
  res_Duration : Z;    (* int64 *)
  res_Error : option error
}.

Definition result_zero : EPOCH_Result :=
  {| res_Hashes := 0; res_Submitted := 0; res_Duration := 0; res_Error := None |}.

Definition set_res_Hashes (v : Z) (r : EPOCH_Result) : EPOCH_Result :=
  {| res_Hashes := v; res_Submitted := res_Submitted r;
     res_Duration := res_Duration r; res_Error := res_Error r |}.
Definition set_res_Submitted (v : Z) (r : EPOCH_Result) : EPOCH_Result :=
  {| res_Hashes := res_Hashes r; res_Submitted := v;
     res_Duration := res_Duration r; res_Error := res_Error r |}.
Definition set_res_Duration (v : Z) (r : EPOCH_Result) : EPOCH_Result :=
  {| res_Hashes := res_Hashes r; res_Submitted := res_Submitted r;
     res_Duration := v; res_Error := res_Error r |}.
Definition set_res_Error (v : option error) (r : EPOCH_Result) : EPOCH_Result :=
  {| res_Hashes := res_Hashes r; res_Submitted := res_Submitted r;
     res_Duration := res_Duration r; res_Error := v |}.

(** [Submit_Params]: a precomputed (job, hash, work buffer, difficulty). *)
Record Submit_Params := {
  Job : rpc.GetBlockTemplate_Result;
  PowHash : list Z;
  EpochWork : list Z;
  Difficulty : Z
}.

(** A buffered [chan struct{}]: only its capacity and the number of buffered
    elements matter. *)
Record chan := {
  chan_cap : Z;
  chan_len : Z
}.

(** The [EPOCH] struct.  [conn_ws] is the websocket handle ([None] is the nil
    pointer) and [semaphore] is [None] for the nil channel. *)
Record EPOCH := {
  conn_ws : option nat;
  jobs_job : rpc.GetBlockTemplate_Result;
  port : string;
  address : string;
  processing : bool;
  maxHashes : Z;
  maxThreads : Z;
  semaphore : option chan;
  session : GetSessionEPOCH_Result
}.

Definition set_conn_ws (v : option nat) (e : EPOCH) : EPOCH :=
  {| conn_ws := v; jobs_job := jobs_job e; port := port e; address := address e;
     processing := processing e; maxHashes := maxHashes e;
     maxThreads := maxThreads e; semaphore := semaphore e; session := session e |}.
Definition set_jobs_job (v : rpc.GetBlockTemplate_Result) (e : EPOCH) : EPOCH :=
  {| conn_ws := conn_ws e; jobs_job := v; port := port e; address := address e;
     processing := processing e; maxHashes := maxHashes e;
     maxThreads := maxThreads e; semaphore := semaphore e; session := session e |}.
Definition set_port (v : string) (e : EPOCH) : EPOCH :=
  {| conn_ws := conn_ws e; jobs_job := jobs_job e; port := v; address := address e;
     processing := processing e; maxHashes := maxHashes e;
     maxThreads := maxThreads e; semaphore := semaphore e; session := session e |}.
Definition set_address (v : string) (e : EPOCH) : EPOCH :=
  {| conn_ws := conn_ws e; jobs_job := jobs_job e; port := port e; address := v;
     processing := processing e; maxHashes := maxHashes e;
     maxThreads := maxThreads e; semaphore := semaphore e; session := session e |}.
Definition set_processing (v : bool) (e : EPOCH) : EPOCH :=
  {| conn_ws := conn_ws e; jobs_job := jobs_job e; port := port e; address := address e;
     processing := v; maxHashes := maxHashes e;
     maxThreads := maxThreads e; semaphore := semaphore e; session := session e |}.
Definition set_maxHashes (v : Z) (e : EPOCH) : EPOCH :=
  {| conn_ws := conn_ws e; jobs_job := jobs_job e; port := port e; address := address e;
     processing := processing e; maxHashes := v;
     maxThreads := maxThreads e; semaphore := semaphore e; session := session e |}.
Definition set_maxThreads (v : Z) (e : EPOCH) : EPOCH :=
  {| conn_ws := conn_ws e; jobs_job := jobs_job e; port := port e; address := address e;
     processing := processing e; maxHashes := maxHashes e;
     maxThreads := v; semaphore := semaphore e; session := session e |}.
Definition set_semaphore (v : option chan) (e : EPOCH) : EPOCH :=
  {| conn_ws := conn_ws e; jobs_job := jobs_job e; port := port e; address := address e;
     processing := processing e; maxHashes := maxHashes e;
     maxThreads := maxThreads e; semaphore := v; session := session e |}.
Definition set_session (v : GetSessionEPOCH_Result) (e : EPOCH) : EPOCH :=
  {| conn_ws := conn_ws e; jobs_job := jobs_job e; port := port e; address := address e;
     processing := processing e; maxHashes := maxHashes e;
     maxThreads := maxThreads e; semaphore := semaphore e; session := v |}.

Definition set_Hashes (v : Z) (s : GetSessionEPOCH_Result) : GetSessionEPOCH_Result :=
  {| Hashes := v; MiniBlocks := MiniBlocks s; Version := Version s |}.
Definition set_MiniBlocks (v : Z) (s : GetSessionEPOCH_Result) : GetSessionEPOCH_Result :=
  {| Hashes := Hashes s; MiniBlocks := v; Version := Version s |}.

(** ** Constants *)

Definition DEFAULT_MAX_THREADS : Z := 2.
Definition DEFAULT_WORK_PORT : Z := 10100.
Definition LIMIT_MAX_HASHES : Z := 10000.

(** Modelled from the spec: [block.MINIBLOCK_SIZE] is a constant of the DERO
    library; the fixed length of the work buffer is the 48 bytes of the
    [epochWork] array (96 hex digits of [blockhashing_blob]) shown in
    README.md. *)
Definition MINIBLOCK_SIZE : nat := 48.

(** ** Collaborators

    What the package calls and does not define. *)
Class Externals := {
  (** [runtime.NumCPU()] *)
  NumCPU : Z;
  (** [globals.ParseValidateAddress], [true] when the address is accepted *)
  ParseValidateAddress : string -> bool;
  (** [net.SplitHostPort]: the host, [None] on error *)
  SplitHostPort : string -> option string;
  (** [astrobwtv3.AstroBWTv3] *)
  AstroBWTv3 : list Z -> list Z;
  (** [blockchain.CheckPowHashBig] where it returns; the library function
      panics on a difficulty of zero, a case this embedding leaves out *)
  CheckPowHashBig : list Z -> Z -> bool;
  (** the value [diff] holds after [diff.SetString(s, 10)] *)
  big_SetString : string -> Z
}.

(** ** [encoding/hex] and formatting

    [hex.Decode] follows the loop of Go's standard library: two source bytes
    give one destination byte, the first invalid digit stops the loop with
    the count decoded so far, an odd length is reported at the end.  The
    destination is indexed without any check of its own, so a write at or
    beyond [len(dst)] is the runtime's index-out-of-range panic. *)

Definition bytes_of_string (s : string) : list Z :=
  (fun c => Z.of_N (Ascii.N_of_ascii c)) <$> String.list_ascii_of_string s.

Definition reverseHexTable (c : Z) : Z :=
  if (48 <=? c) && (c <=? 57) then c - 48
  else if (97 <=? c) && (c <=? 102) then c - 87
  else if (65 <=? c) && (c <=? 70) then c - 55
  else 255.

Inductive decoded :=
| DecodePanic
| Decoded (dst : list Z) (n : nat) (err : option hex_error).

Fixpoint hex_Decode_from (i : nat) (dst src : list Z) : decoded :=
  match src with
  | p :: q :: rest =>
      let a := reverseHexTable p in
      let b := reverseHexTable q in
      if a >? 15 then Decoded dst i (Some (InvalidByteError p))
      else if b >? 15 then Decoded dst i (Some (InvalidByteError q))
      else if (i <? length dst)%nat
           then hex_Decode_from (S i) (<[i := Z.lor (Z.shiftl a 4) b]> dst) rest
           else DecodePanic
  | [p] =>
      if reverseHexTable p >? 15 then Decoded dst i (Some (InvalidByteError p))
      else Decoded dst i (Some ErrLength)
  | [] => Decoded dst i None
  end.

Definition hex_Decode (dst src : list Z) : decoded := hex_Decode_from 0 dst src.

(** Go's builtin [copy]: as many elements as both slices have. *)
Definition copy (dst src : list Z) : list Z :=
  take (length dst) src ++ drop (length src) dst.

(** [fmt.Sprintf("%x", b)] on a byte slice. *)
Definition hex_digit (n : Z) : Ascii.ascii :=
  nth (Z.to_nat n) (String.list_ascii_of_string "0123456789abcdef") "0"%char.

Definition Sprintf_x (bs : list Z) : string :=
  String.string_of_list_ascii
    (concat ((fun b => [hex_digit (b / 16); hex_digit (b mod 16)]) <$> bs)).

(** ** Configuration, job store, connection *)

Section Engine.
Context {ext : Externals}.

Definition IsActive (e : EPOCH) : bool := bool_decide (conn_ws e <> None).

Definition setProcessing (b : bool) (e : EPOCH) : EPOCH := set_processing b e.

Definition newJob (job : rpc.GetBlockTemplate_Result) (e : EPOCH) : EPOCH * string :=
  (set_jobs_job job e, rpc.LastError job).

Definition getJob (e : EPOCH) : rpc.GetBlockTemplate_Result := jobs_job e.

Definition IsProcessing (e : EPOCH) : bool := processing e.

Definition SetAddress (a : string) (e : EPOCH) : EPOCH * option error :=
  if ParseValidateAddress a then (set_address a e, None)
  else (e, Some ErrInvalidAddress).

Definition GetAddress (e : EPOCH) : string := address e.

Definition SetPort (p : Z) (e : EPOCH) : EPOCH * option error :=
  if (p <? 1) || (p >? 65535) then (e, Some ErrInvalidPort)
  else (set_port (":" +:+ pretty p) e, None).

Definition SetMaxHashes (i : Z) (e : EPOCH) : EPOCH * option error :=
  if i >? LIMIT_MAX_HASHES then (e, Some (ErrCannotExceed LIMIT_MAX_HASHES))
  else (set_maxHashes i e, None).

Definition GetMaxHashes (e : EPOCH) : Z := maxHashes e.

Definition SetMaxThreads (i : Z) (e : EPOCH) : EPOCH :=
  let max := NumCPU in
  let i := if i >? max then max else if i <? 1 then 1 else i in
  set_maxThreads i e.

Definition GetMaxThreads (e : EPOCH) : Z := maxThreads e.

(** The zero value of the package variable [epoch], then [init()]. *)
Definition epoch_zero : EPOCH :=
  {| conn_ws := None; jobs_job := rpc.zero; port := ""; address := "";
     processing := false; maxHashes := 0; maxThreads := 0;
     semaphore := None; session := session_zero |}.

Definition init : EPOCH :=
  let e := set_port (":" +:+ pretty DEFAULT_WORK_PORT) epoch_zero in
  let e := SetMaxThreads DEFAULT_MAX_THREADS e in
  set_maxHashes 1000 e.

Definition StopGetWork (e : EPOCH) : EPOCH :=
  if IsActive e then set_conn_ws None e else e.

(** [StartGetWork]; [dial] is what [DialContext] answers for the URL built
    from host, port and address ([None]: the dial failed).  The read loop it
    starts is the events [EvNewJob] and [EvStopGetWork] of the scheduler
    below.  [make(chan struct{}, n)] panics on a negative [n]. *)
Definition StartGetWork (addr endpoint : string) (dial : option nat) (e : EPOCH)
  : outcome (EPOCH * option error) :=
  if IsActive e then Ret (e, Some ErrAlreadyRunning)
  else match SplitHostPort endpoint with
  | None => Ret (e, Some ErrCouldNotGetHost)
  | Some host =>
    let '(e, err) := if bool_decide (addr <> "") then SetAddress addr e else (e, None) in
    match err with
    | Some _ => Ret (e, Some ErrCouldNotSetAddress)
    | None =>
      if negb (ParseValidateAddress (address e))
      then Ret (e, Some (ErrAddressNotValid (address e)))
      else match dial with
      | None => Ret (set_conn_ws None e, Some ErrDial)
      | Some ws =>
        let e := set_conn_ws (Some ws) e in
        let e := set_session (set_Hashes 0 (session e)) e in
        let e := set_session (set_MiniBlocks 0 (session e)) e in
        if maxThreads e <? 0 then Panic
        else Ret (set_semaphore
                    (Some {| chan_cap := maxThreads e; chan_len := 0 |}) e, None)
      end
    end
  end.

(** [GetSession]: the select loop looks at the engine once per poll until the
    timer fires; [polls] is what the engine looks like at each poll made
    before the timer fires. *)
Fixpoint GetSession (polls : list EPOCH) : GetSessionEPOCH_Result * option error :=
  match polls with
  | [] => (session_zero, Some ErrSessionTimeout)
  | e :: rest =>
      if negb (IsProcessing e) then (session e, None) else GetSession rest
  end.

(** [GetSessionEPOCH]: [e] is the engine at the call. *)
Definition GetSessionEPOCH (e : EPOCH) (polls : list EPOCH)
  : GetSessionEPOCH_Result * option error :=
  if negb (IsActive e) then (session_zero, Some ErrNotActive)
  else GetSession polls.

(** ** Proof of work and submission *)

Record powHash_ret := {
  ph_job : rpc.GetBlockTemplate_Result;
  ph_powhash : list Z;
  ph_work : list Z;
  ph_diff : Z;
  ph_err : option error
}.

(** [powHash]; [random_buf] is what [rand.Read] put into the 12 bytes. *)
Definition powHash (random_buf : list Z) (e : EPOCH) : outcome powHash_ret :=
  let job := getJob e in
  let work := replicate MINIBLOCK_SIZE 0 in
  match hex_Decode work (bytes_of_string (rpc.Blockhashing_blob job)) with
  | DecodePanic => Panic
  | Decoded work n err =>
    if bool_decide (err <> None) || bool_decide (n <> MINIBLOCK_SIZE)
    then Ret {| ph_job := job; ph_powhash := replicate 32 0; ph_work := work;
                ph_diff := 0;
                ph_err := Some (ErrNotDecoded job (Z.of_nat n) err) |}
    else
      let work := take (MINIBLOCK_SIZE - 12) work
                  ++ copy (drop (MINIBLOCK_SIZE - 12) work) random_buf in
      let work := <[(MINIBLOCK_SIZE - 1)%nat := 1]> work in
      let diff := big_SetString (rpc.Difficulty job) in
      let work0 := default 0 (work !! 0%nat) in
      if bool_decide (Z.land work0 15 <> 1)
      then Ret {| ph_job := job; ph_powhash := replicate 32 0; ph_work := work;
                  ph_diff := diff;
                  ph_err := Some (ErrUnknownVersion (Z.land work0 31)) |}
      else Ret {| ph_job := job; ph_powhash := AstroBWTv3 work; ph_work := work;
                  ph_diff := diff; ph_err := None |}
  end.

(** [submitBlock]; [write_ok] tells whether [WriteJSON] succeeds.  The third
    component is the message handed to [WriteJSON], if it was called. *)
Definition submitBlock (write_ok : bool) (job : rpc.GetBlockTemplate_Result)
    (powhash work : list Z) (diff : Z) (e : EPOCH)
  : bool * option error * option rpc.SubmitBlock_Params :=
  if negb (IsActive e) then (false, Some ErrConnectionClosed, None)
  else if CheckPowHashBig powhash diff then
    let msg := {| rpc.sb_JobID := rpc.JobID job;
                  rpc.MiniBlockhashing_blob := Sprintf_x work |} in
    if write_ok then (true, None, Some msg) else (false, Some ErrWrite, Some msg)
  else (false, None, None).

End Engine.

(** ** The dispatcher and its goroutines

    [AttemptHashes] and [SubmitHashes] start goroutines that share the
    variables [i] and [result] of the call and the package variable [epoch].
    Each activation of one of the two functions is a [call]; its goroutines
    are [task]s; a schedule picks, step by step, which one moves.  The
    package has no synchronisation on [i] and [result], so [i++] and
    [result.Submitted++] in a goroutine are a read followed by a write, two
    steps that other goroutines may come between.

    Grain of the steps: a call of [powHash] or of [submitBlock] is one step
    (they read [epoch.job] under no lock, and a job that changes between two
    reads inside one of them is not modelled); the statements after
    [wg.Wait()] are one step, as are the entry tests together with
    [setProcessing(true)]; the loop test, the send on the semaphore with the
    launch, the write of [result.Error] and the deferred receive are one
    step each. *)

(** Where a goroutine stands in the body of the [go func()]. *)
Inductive task_pc :=
| TPowHash                            (* job, powhash, work, diff, err := powHash() *)
| TSubmit (p : Submit_Params)         (* valid, err := submitBlock(...) *)
| TSetError (err : error)             (* result.Error = err; return *)
| TLoadI                              (* i++, the read *)
| TStoreI (tmp : Z)                   (* i++, the write *)
| TLoadSubmitted                      (* result.Submitted++, the read *)
| TStoreSubmitted (tmp : Z)           (* result.Submitted++, the write *)
| TRelease                            (* deferred: <-epoch.semaphore; wg.Done() *)
| TDone.

(** A goroutine: its position, what [submitBlock] returned to it once it
    has been called, and a count of the semaphore operations made for it
    (the send of the dispatcher just before [go], the receive of the
    deferred function); the two counts are bookkeeping for the proofs. *)
Record task := {
  t_pc : task_pc;
  t_ret : option (bool * option error);
  t_acquired : nat;
  t_released : nat
}.

Definition new_task (pc : task_pc) : task :=
  {| t_pc := pc; t_ret := None; t_acquired := 1; t_released := 0 |}.
Definition set_t_pc (pc : task_pc) (t : task) : task :=
  {| t_pc := pc; t_ret := t_ret t; t_acquired := t_acquired t;
     t_released := t_released t |}.
Definition set_t_ret (r : option (bool * option error)) (t : task) : task :=
  {| t_pc := t_pc t; t_ret := r; t_acquired := t_acquired t;
     t_released := t_released t |}.
Definition released (t : task) : task :=
  {| t_pc := TDone; t_ret := t_ret t; t_acquired := t_acquired t;
     t_released := S (t_released t) |}.

Definition task_done (t : task) : bool :=
  match t_pc t with TDone => true | _ => false end.

Inductive call_kind :=
| Attempt (hashes : Z)
| Submit (params : list Submit_Params).

(** Where the calling goroutine stands. *)
Inductive call_pc :=
| CLoop                               (* loop condition, then [if result.Error != nil] *)
| CAcquire                            (* epoch.semaphore <- struct{}{}; wg.Add(1); go func() *)
| CWait                               (* wg.Wait() and what follows it *)
| CReturned (err : option error).

(** One activation: [c_i] is the variable [i], [c_next] the position of the
    [range] loop of [SubmitHashes], [c_result] the named result. *)
Record call := {
  c_kind : call_kind;
  c_pc : call_pc;
  c_i : Z;
  c_next : nat;
  c_result : EPOCH_Result;
  c_tasks : list task
}.

Definition set_c_pc (pc : call_pc) (c : call) : call :=
  {| c_kind := c_kind c; c_pc := pc; c_i := c_i c; c_next := c_next c;
     c_result := c_result c; c_tasks := c_tasks c |}.
Definition set_c_i (i : Z) (c : call) : call :=
  {| c_kind := c_kind c; c_pc := c_pc c; c_i := i; c_next := c_next c;
     c_result := c_result c; c_tasks := c_tasks c |}.
Definition set_c_next (n : nat) (c : call) : call :=
  {| c_kind := c_kind c; c_pc := c_pc c; c_i := c_i c; c_next := n;
     c_result := c_result c; c_tasks := c_tasks c |}.
Definition set_c_result (r : EPOCH_Result) (c : call) : call :=
  {| c_kind := c_kind c; c_pc := c_pc c; c_i := c_i c; c_next := c_next c;
     c_result := r; c_tasks := c_tasks c |}.
Definition set_c_tasks (ts : list task) (c : call) : call :=
  {| c_kind := c_kind c; c_pc := c_pc c; c_i := c_i c; c_next := c_next c;
     c_result := c_result c; c_tasks := ts |}.

Definition new_call (k : call_kind) (pc : call_pc) : call :=
  {| c_kind := k; c_pc := pc; c_i := 0; c_next := 0%nat;
     c_result := result_zero; c_tasks := [] |}.

(** The process: the package variable, the activations of the two
    dispatchers, the messages handed to [WriteJSON], and whether a panic has
    ended it. *)
Record world := {
  eng : EPOCH;
  calls : list call;
  outbox : list rpc.SubmitBlock_Params;
  crashed : bool
}.

Definition set_eng (e : EPOCH) (w : world) : world :=
  {| eng := e; calls := calls w; outbox := outbox w; crashed := crashed w |}.
Definition set_calls (cs : list call) (w : world) : world :=
  {| eng := eng w; calls := cs; outbox := outbox w; crashed := crashed w |}.
Definition set_outbox (o : list rpc.SubmitBlock_Params) (w : world) : world :=
  {| eng := eng w; calls := calls w; outbox := o; crashed := crashed w |}.
Definition crash (w : world) : world :=
  {| eng := eng w; calls := calls w; outbox := outbox w; crashed := true |}.

(** What the outside supplies to a step of a goroutine: the bytes of
    [rand.Read] and whether the socket write succeeds. *)
Record task_io := {
  io_random : list Z;
  io_write_ok : bool
}.

Inductive event :=
| EvSetMaxThreads (i : Z)
| EvSetMaxHashes (i : Z)
| EvSetAddress (a : string)
| EvSetPort (p : Z)
| EvStartGetWork (addr endpoint : string) (dial : option nat)
| EvStopGetWork                       (* also the exit of the read loop *)
| EvNewJob (job : rpc.GetBlockTemplate_Result)   (* the read loop got a template *)
| EvAttemptHashes (hashes : Z)
| EvSubmitHashes (params : list Submit_Params)
| EvCall (k : nat) (clock : Z)        (* the caller of activation k moves *)
| EvTask (k t : nat) (io : task_io).  (* goroutine t of activation k moves *)

Section Dispatcher.
Context {ext : Externals}.

(** [epoch.semaphore <- struct{}{}]: blocks ([None]) on a full or nil channel. *)
Definition acquire (e : EPOCH) : option EPOCH :=
  match semaphore e with
  | Some ch =>
      if chan_len ch <? chan_cap ch
      then Some (set_semaphore
                   (Some {| chan_cap := chan_cap ch; chan_len := chan_len ch + 1 |}) e)
      else None
  | None => None
  end.

(** [<-epoch.semaphore]: blocks on an empty or nil channel. *)
Definition release (e : EPOCH) : option EPOCH :=
  match semaphore e with
  | Some ch =>
      if 0 <? chan_len ch
      then Some (set_semaphore
                   (Some {| chan_cap := chan_cap ch; chan_len := chan_len ch - 1 |}) e)
      else None
  | None => None
  end.

(** The synchronous part of [AttemptHashes], up to [setProcessing(true)]. *)
Definition AttemptHashes_entry (hashes : Z) (e : EPOCH) : call * EPOCH :=
  if negb (IsActive e)
  then (new_call (Attempt hashes) (CReturned (Some ErrNotActive)), e)
  else if hashes >? GetMaxHashes e
  then (new_call (Attempt hashes)
          (CReturned (Some (ErrHashesExceedMax hashes (maxHashes e)))), e)
  else (new_call (Attempt hashes) CLoop, setProcessing true e).

(** The synchronous part of [SubmitHashes]. *)
Definition SubmitHashes_entry (params : list Submit_Params) (e : EPOCH) : call * EPOCH :=
  if negb (IsActive e)
  then (new_call (Submit params) (CReturned (Some ErrNotActive)), e)
  else
    let l := Z.of_nat (length params) in
    if l >? GetMaxHashes e
    then (new_call (Submit params)
            (CReturned (Some (ErrSubmissionExceedsMax (maxHashes e) l))), e)
    else (new_call (Submit params) CLoop, setProcessing true e).

Definition loop_cond (c : call) : bool :=
  match c_kind c with
  | Attempt hashes => c_i c <? hashes
  | Submit params => bool_decide (c_next c < length params)%nat
  end.

(** What follows [wg.Wait()], with the deferred [setProcessing(false)].
    The additions to the session are taken together; the code makes them
    without a lock, so this is the code only as long as no other activation
    and no [StartGetWork] writes the session at that moment. *)
Definition finish (clock : Z) (c : call) (e : EPOCH) : call * EPOCH :=
  let r := set_res_Duration clock (c_result c) in
  let h := wrap_uint64 (c_i c) in
  let r := set_res_Hashes h r in
  let e :=
    match c_kind c with
    | Attempt _ =>
        let e := set_session (set_Hashes (wrap_uint64 (Hashes (session e) + h)) (session e)) e in
        set_session (set_MiniBlocks (wrap_int (MiniBlocks (session e) + res_Submitted r))
                       (session e)) e
    | Submit _ =>
        set_session (set_MiniBlocks (wrap_int (MiniBlocks (session e) + res_Submitted r))
                       (session e)) e
    end in
  (set_c_pc (CReturned None) (set_c_result r c), setProcessing false e).

(** One step of the calling goroutine. *)
Definition call_step (clock : Z) (c : call) (e : EPOCH) : option (call * EPOCH) :=
  match c_pc c with
  | CLoop =>
      if loop_cond c then
        match res_Error (c_result c) with
        | Some _ => Some (set_c_pc CWait c, e)
        | None => Some (set_c_pc CAcquire c, e)
        end
      else Some (set_c_pc CWait c, e)
  | CAcquire =>
      match acquire e with
      | None => None
      | Some e' =>
          match c_kind c with
          | Attempt _ =>
              Some (set_c_pc CLoop
                      (set_c_i (wrap_int (c_i c + 1))
                         (set_c_tasks (c_tasks c ++ [new_task TPowHash]) c)), e')
          | Submit params =>
              match params !! c_next c with
              | None => None
              | Some p =>
                  Some (set_c_pc CLoop
                          (set_c_next (S (c_next c))
                             (set_c_tasks (c_tasks c ++ [new_task (TSubmit p)]) c)), e')
              end
          end
      end
  | CWait =>
      if forallb task_done (c_tasks c) then Some (finish clock c e) else None
  | CReturned _ => None
  end.

(** One step of a goroutine: the goroutine, the variables of the call it
    shares, the package variable and the outbox after the step. *)
Definition task_step (io : task_io) (t : task) (c : call) (e : EPOCH)
    (out : list rpc.SubmitBlock_Params)
  : option (outcome (task * call * EPOCH * list rpc.SubmitBlock_Params)) :=
  match t_pc t with
  | TPowHash =>
      match powHash (io_random io) e with
      | Panic => Some Panic
      | Ret r =>
          match ph_err r with
          | Some err => Some (Ret (set_t_pc (TSetError err) t, c, e, out))
          | None =>
              let p := {| Job := ph_job r; PowHash := ph_powhash r;
                          EpochWork := ph_work r; Difficulty := ph_diff r |} in
              Some (Ret (set_t_pc (TSubmit p) t, c, e, out))
          end
      end
  | TSubmit p =>
      let '(valid, err, msg) :=
        submitBlock (io_write_ok io) (Job p) (PowHash p) (EpochWork p) (Difficulty p) e in
      let out := match msg with Some m => out ++ [m] | None => out end in
      let t := set_t_ret (Some (valid, err)) t in
      match err with
      | Some err => Some (Ret (set_t_pc (TSetError err) t, c, e, out))
      | None =>
          match c_kind c with
          | Attempt _ =>
              Some (Ret (set_t_pc (if valid then TLoadSubmitted else TRelease) t, c, e, out))
          | Submit _ => Some (Ret (set_t_pc TLoadI t, c, e, out))
          end
      end
  | TSetError err =>
      Some (Ret (set_t_pc TRelease t,
                 set_c_result (set_res_Error (Some err) (c_result c)) c, e, out))
  | TLoadI => Some (Ret (set_t_pc (TStoreI (c_i c)) t, c, e, out))
  | TStoreI tmp =>
      let valid := match t_ret t with Some (v, _) => v | None => false end in
      Some (Ret (set_t_pc (if valid then TLoadSubmitted else TRelease) t,
                 set_c_i (wrap_int (tmp + 1)) c, e, out))
  | TLoadSubmitted =>
      Some (Ret (set_t_pc (TStoreSubmitted (res_Submitted (c_result c))) t, c, e, out))
  | TStoreSubmitted tmp =>
      Some (Ret (set_t_pc TRelease t,
                 set_c_result (set_res_Submitted (wrap_int (tmp + 1)) (c_result c)) c,
                 e, out))
  | TRelease =>
      match release e with
      | None => None
      | Some e' => Some (Ret (released t, c, e', out))
      end
  | TDone => None
  end.

(** One step of the process; [None] when the chosen goroutine cannot move.
    [i++] and [result.Submitted++] are a read and a write.  [StartGetWork],
    [submitBlock] and what follows [wg.Wait()] are one step each: the states
    between the assignment of the connection and the making of the
    semaphore (epoch.go:276-287) and between the test and the use of the
    connection in [submitBlock] are not represented. *)
Definition step (ev : event) (w : world) : option world :=
  if crashed w then None else
  match ev with
  | EvSetMaxThreads i => Some (set_eng (SetMaxThreads i (eng w)) w)
  | EvSetMaxHashes i => Some (set_eng (SetMaxHashes i (eng w)).1 w)
  | EvSetAddress a => Some (set_eng (SetAddress a (eng w)).1 w)
  | EvSetPort p => Some (set_eng (SetPort p (eng w)).1 w)
  | EvStartGetWork addr endpoint dial =>
      match StartGetWork addr endpoint dial (eng w) with
      | Panic => Some (crash w)
      | Ret (e, _) => Some (set_eng e w)
      end
  | EvStopGetWork => Some (set_eng (StopGetWork (eng w)) w)
  | EvNewJob job =>
      if IsActive (eng w) then Some (set_eng (newJob job (eng w)).1 w) else None
  | EvAttemptHashes hashes =>
      let '(c, e) := AttemptHashes_entry hashes (eng w) in
      Some (set_calls (calls w ++ [c]) (set_eng e w))
  | EvSubmitHashes params =>
      let '(c, e) := SubmitHashes_entry params (eng w) in
      Some (set_calls (calls w ++ [c]) (set_eng e w))
  | EvCall k clock =>
      match calls w !! k with
      | None => None
      | Some c =>
          match call_step clock c (eng w) with
          | None => None
          | Some (c', e') => Some (set_calls (<[k := c']> (calls w)) (set_eng e' w))
          end
      end
  | EvTask k t io =>
      match calls w !! k with
      | None => None
      | Some c =>
          match c_tasks c !! t with
          | None => None
          | Some tk =>
              match task_step io tk c (eng w) (outbox w) with
              | None => None
              | Some Panic => Some (crash w)
              | Some (Ret (tk', c', e', out')) =>
                  let c'' := set_c_tasks (<[t := tk']> (c_tasks c')) c' in
                  Some (set_outbox out' (set_calls (<[k := c'']> (calls w)) (set_eng e' w)))
              end
          end
      end
  end.

(** A schedule runs from left to right and stops at the first step that
    cannot be taken. *)
Fixpoint run (tr : list event) (w : world) : option world :=
  match tr with
  | [] => Some w
  | ev :: tr' =>
      match step ev w with
      | None => None
      | Some w' => run tr' w'
      end
  end.

Definition world_init : world :=
  {| eng := init; calls := []; outbox := []; crashed := false |}.

Definition reachable (w : world) : Prop := exists tr, run tr world_init = Some w.

End Dispatcher.

(** ** Specification-side notions and concrete instances *)

(** [clamp i lo hi], as the specification words it. *)
Definition clamp (i lo hi : Z) : Z := Z.max lo (Z.min i hi).

Definition sumZ {A : Type} (g : A -> Z) (l : list A) : Z :=
  foldr (fun x acc => g x + acc) 0 l.

Definition count_tasks (f : task -> bool) (ts : list task) : Z :=
  sumZ (fun t => if f t then 1 else 0) ts.

(** Goroutines that hold a semaphore slot: launched and not yet through the
    deferred receive. *)
Definition holding_tasks (ts : list task) : Z :=
  count_tasks (fun t => negb (task_done t)) ts.

Definition holding (w : world) : Z :=
  sumZ (fun c => holding_tasks (c_tasks c)) (calls w).

(** Goroutines for which [submitBlock] returned a nil error. *)
Definition task_ok (t : task) : bool :=
  match t_ret t with Some (_, None) => true | _ => false end.

Definition ok_tasks (ts : list task) : Z := count_tasks task_ok ts.

(** Goroutines of [SubmitHashes] that have written [i] back. *)
Definition stored (t : task) : bool :=
  task_ok t &&
  match t_pc t with
  | TLoadSubmitted | TStoreSubmitted _ | TRelease | TDone => true
  | _ => false
  end.

Definition stored_tasks (ts : list task) : Z := count_tasks stored ts.

(** A machine with four CPUs, one accepted address, a hash that meets the
    target exactly when the difficulty is 1. *)
Definition demo : Externals :=
  {| NumCPU := 4;
     ParseValidateAddress := fun a => bool_decide (a = "dero1qy");
     SplitHostPort := fun s => Some "127.0.0.1";
     AstroBWTv3 := fun w => take 32 w;
     CheckPowHashBig := fun _ d => d =? 1;
     big_SetString := fun s => if bool_decide (s = "1") then 1 else 0 |}.

Definition demo_init : world := world_init (ext := demo).

Definition demo_start : event :=
  EvStartGetWork "dero1qy" "127.0.0.1:20000" (Some 1%nat).

Definition demo_job (blob : string) : rpc.GetBlockTemplate_Result :=
  {| rpc.JobID := "1722895096807.0.notified"; rpc.Blockhashing_blob := blob;
     rpc.Difficulty := "1"; rpc.Difficultyuint64 := 1; rpc.Height := 518;
     rpc.Prev_Hash := ""; rpc.EpochMilli := 0; rpc.Blocks := 1;
     rpc.MiniBlocks := 3; rpc.Rejected := 0; rpc.LastError := "";
     rpc.Status := "" |}.

(** The 96 hex digits of the README example, and the same with one more
    byte. *)
Definition blob48 : string :=
  "41dc0600000002062bb9d17900000000a12fda3f33403ee25f490fe665a93a3e0000000056790bb6dd9f5bdad5a18d87".
Definition blob49 : string := blob48 +:+ "00".

Definition demo_io : task_io := {| io_random := replicate 12 7; io_write_ok := true |}.

(** A precomputed submission whose hash does not meet the target. *)
Definition demo_param : Submit_Params :=
  {| Job := demo_job blob48; PowHash := replicate 32 255;
     EpochWork := replicate 48 0; Difficulty := 2 |}.

(** Two goroutines of one [SubmitHashes] both read [i] before either writes
    it back. *)
Definition lost_update_schedule : list event :=
  [ demo_start; EvSubmitHashes [demo_param; demo_param];
    EvCall 0 0; EvCall 0 0; EvCall 0 0; EvCall 0 0;
    EvTask 0 0 demo_io; EvTask 0 1 demo_io;
    EvTask 0 0 demo_io; EvTask 0 1 demo_io;
    EvTask 0 0 demo_io; EvTask 0 1 demo_io;
    EvTask 0 0 demo_io; EvTask 0 1 demo_io;
    EvCall 0 0; EvCall 0 3 ].

(** The state right after the demo connection is made. *)
Definition demo_started : world :=
  Eval vm_compute in default demo_init (run (ext := demo) [demo_start] demo_init).

(** [AttemptHashes(-1)] and [SubmitHashes] of nothing under a ceiling of -1,
    on an active connection. *)
Definition negative_attempt_schedule : list event :=
  [ demo_start; EvAttemptHashes (-1); EvCall 0 0; EvCall 0 9 ].

Definition negative_ceiling_schedule : list event :=
  [ EvSetMaxHashes (-1); demo_start; EvSubmitHashes [] ].

(** A precomputed submission whose hash meets the target. *)
Definition demo_valid_param : Submit_Params :=
  {| Job := demo_job blob48; PowHash := replicate 32 0;
     EpochWork := replicate 48 0; Difficulty := 1 |}.

(** One [SubmitHashes] of two submissions, the first of them valid: each
    goroutine runs to its end before the next is launched, and the worker
    limit is set in between. *)
Definition two_submit_schedule : list event :=
  [ EvCall 0 0; EvCall 0 0;
    EvTask 0 0 demo_io; EvTask 0 0 demo_io; EvTask 0 0 demo_io;
    EvTask 0 0 demo_io; EvTask 0 0 demo_io; EvTask 0 0 demo_io;
    EvSetMaxThreads 3;
    EvCall 0 0; EvCall 0 0;
    EvTask 0 1 demo_io; EvTask 0 1 demo_io; EvTask 0 1 demo_io; EvTask 0 1 demo_io;
    EvCall 0 0; EvCall 0 1 ].

(** A second [SubmitHashes] of one valid submission is entered, runs and
    returns while the first one has not started its loop; then the first
    one runs and returns. *)
Definition overlapping_submit_schedule : list event :=
  [ EvSubmitHashes [demo_valid_param];
    EvCall 1 0; EvCall 1 0;
    EvTask 1 0 demo_io; EvTask 1 0 demo_io; EvTask 1 0 demo_io;
    EvTask 1 0 demo_io; EvTask 1 0 demo_io; EvTask 1 0 demo_io;
    EvCall 1 0; EvCall 1 1;
    EvCall 0 0; EvCall 0 0;
    EvTask 0 0 demo_io; EvTask 0 0 demo_io; EvTask 0 0 demo_io;
    EvTask 0 0 demo_io; EvTask 0 0 demo_io; EvTask 0 0 demo_io;
    EvCall 0 0; EvCall 0 1 ].

(** Two goroutines of one [AttemptHashes] hold both slots; then the worker
    limit is lowered. *)
Definition two_in_flight_schedule : list event :=
  [ demo_start; EvAttemptHashes 2;
    EvCall 0 0; EvCall 0 0; EvCall 0 0; EvCall 0 0 ].

Definition lowered_limit_schedule : list event :=
  two_in_flight_schedule ++ [ EvSetMaxThreads 1 ].

(** A batch is still running when the connection is dropped and a new one
    is started: the new semaphore is empty, the goroutines of the old one
    go on. *)
Definition restart_schedule : list event :=
  [ demo_start; EvAttemptHashes 2;
    EvCall 0 0; EvCall 0 0; EvCall 0 0; EvCall 0 0;
    EvStopGetWork; demo_start; EvAttemptHashes 2;
    EvCall 1 0; EvCall 1 0; EvCall 1 0; EvCall 1 0 ].

(** Whether the event is a [StartGetWork] that connects. *)
Definition starts {ext : Externals} (ev : event) (w : world) : bool :=
  match ev with
  | EvStartGetWork addr endpoint dial =>
      match StartGetWork addr endpoint dial (eng w) with
      | Ret (_, None) => true
      | _ => false
      end
  | _ => false
  end.

(** No [StartGetWork] connects while goroutines hold slots. *)
Fixpoint quiet_starts {ext : Externals} (tr : list event) (w : world) : Prop :=
  match tr with
  | [] => True
  | ev :: tr' =>
      (starts ev w = true -> holding w = 0) /\
      match step ev w with
      | None => True
      | Some w' => quiet_starts tr' w'
      end
  end.

(** The worker limit that was configured when the last [StartGetWork]
    connected ([last] if none did). *)
Fixpoint limit_at_start {ext : Externals} (tr : list event) (w : world) (last : Z) : Z :=
  match tr with
  | [] => last
  | ev :: tr' =>
      match step ev w with
      | None => last
      | Some w' =>
          limit_at_start tr' w' (if starts ev w then maxThreads (eng w) else last)
      end
  end.

(** Events of activation [k] and of the read loop. *)
Definition own_event (k : nat) (ev : event) : Prop :=
  match ev with
  | EvCall k' _ => k' = k
  | EvTask k' _ _ => k' = k
  | EvNewJob _ => True
  | EvStopGetWork => True
  | _ => False
  end.

(** Events that leave the session to activation [k]: its own steps, those
    of the read loop and the setters; no step of another activation of a
    dispatcher, no entry into one, and no [StartGetWork]. *)
Definition quiet_event (k : nat) (ev : event) : Prop :=
  match ev with
  | EvCall k' _ => k' = k
  | EvTask k' _ _ => k' = k
  | EvStartGetWork _ _ _ => False
  | EvAttemptHashes _ => False
  | EvSubmitHashes _ => False
  | _ => True
  end.

(** ** Invariants of the scheduler *)

(** The semaphore counts the goroutines that hold a slot, it is never over
    its capacity, and its capacity is [limit]. *)
Definition sem_good (w : world) (limit : Z) : Prop :=
  match semaphore (eng w) with
  | Some ch => holding w = chan_len ch /\ chan_len ch <= chan_cap ch /\ chan_cap ch = limit
  | None => holding w = 0 /\ 0 <= limit
  end.

(** One send was made for the goroutine, and one receive once it is done,
    none before. *)
Definition slot_counts (t : task) : Prop :=
  t_acquired t = 1%nat /\ t_released t = (if task_done t then 1 else 0)%nat.

Definition slots_once (w : world) : Prop :=
  Forall (fun c => Forall slot_counts (c_tasks c)) (calls w).

(** Steps a goroutine has left at most, the deferred receive included. *)
Definition steps_left (pc : task_pc) : nat :=
  match pc with
  | TPowHash => 7
  | TSubmit _ => 6
  | TLoadI => 5
  | TStoreI _ => 4
  | TLoadSubmitted => 3
  | TStoreSubmitted _ => 2
  | TSetError _ => 2
  | TRelease => 1
  | TDone => 0
  end.

(** What holds of the engine in every state the package can reach: the
    ceiling is under the package limit, the counters are in the range of
    their types, the version tag is empty. *)
Definition eng_ok (e : EPOCH) : Prop :=
  maxHashes e <= LIMIT_MAX_HASHES /\
  int_range (MiniBlocks (session e)) /\
  0 <= Hashes (session e) < 2 ^ 64 /\
  Version (session e) = "".

Definition is_submit (k : call_kind) : Prop :=
  match k with Submit _ => True | Attempt _ => False end.

(** A goroutine against the activation it belongs to: [powHash] only runs
    in [AttemptHashes]; [i++] only runs in [SubmitHashes], after a
    [submitBlock] without error, and the value it read is at most the number
    of writes made so far ([bound]). *)
Definition task_wf (k : call_kind) (bound : Z) (t : task) : Prop :=
  match t_pc t with
  | TPowHash => task_ok t = false /\ ~ is_submit k
  | TSetError _ => task_ok t = false
  | TLoadI => task_ok t = true /\ is_submit k
  | TStoreI tmp => task_ok t = true /\ is_submit k /\ 0 <= tmp <= bound
  | _ => True
  end.

(** An activation: a rejected one has done nothing; otherwise the loop
    variables count the goroutines launched, [i] of [SubmitHashes] is at
    most the number of goroutines that wrote it, and a returned activation
    has all its goroutines done and reports [i]. *)
Definition call_ok (c : call) : Prop :=
  match c_pc c with
  | CReturned (Some _) => c_tasks c = [] /\ c_result c = result_zero
  | _ =>
    Forall (task_wf (c_kind c) (stored_tasks (c_tasks c))) (c_tasks c) /\
    (c_pc c = CReturned None ->
     res_Hashes (c_result c) = c_i c /\ forallb task_done (c_tasks c) = true) /\
    match c_kind c with
    | Attempt n =>
        n <= LIMIT_MAX_HASHES /\ 0 <= c_i c <= Z.max n 0 /\
        Z.of_nat (length (c_tasks c)) = c_i c /\
        (c_pc c = CAcquire -> c_i c < n)
    | Submit params =>
        Z.of_nat (length params) <= LIMIT_MAX_HASHES /\
        (c_next c <= length params)%nat /\ length (c_tasks c) = c_next c /\
        0 <= c_i c <= stored_tasks (c_tasks c) /\
        (1 <= stored_tasks (c_tasks c) -> 1 <= c_i c) /\
        (c_pc c = CAcquire -> (c_next c < length params)%nat)
    end
  end.

Definition winv (w : world) : Prop := eng_ok (eng w) /\ Forall call_ok (calls w).

(** A goroutine between the read and the write of [i++]. *)
Definition storing (t : task) : bool :=
  match t_pc t with TStoreI _ => true | _ => false end.

(** No two goroutines of activation [k] are between the read and the write
    of [i++] at the same time. *)
Definition no_overlap (k : nat) (w : world) : Prop :=
  forall c t1 t2 tk1 tk2,
    calls w !! k = Some c ->
    c_tasks c !! t1 = Some tk1 -> c_tasks c !! t2 = Some tk2 ->
    storing tk1 = true -> storing tk2 = true -> t1 = t2.

(** [P] holds of every state a schedule goes through. *)
Fixpoint always {ext : Externals} (P : world -> Prop) (tr : list event) (w : world) : Prop :=
  P w /\
  match tr with
  | [] => True
  | ev :: tr' =>
      match step ev w with
      | None => True
      | Some w' => always P tr' w'
      end
  end.

(** The two as functions to [bool], to run them on a schedule. *)
Definition no_overlapb (k : nat) (w : world) : bool :=
  match calls w !! k with
  | Some c => count_tasks storing (c_tasks c) <=? 1
  | None => true
  end.

Fixpoint alwaysb {ext : Externals} (P : world -> bool) (tr : list event) (w : world) : bool :=
  P w &&
  match tr with
  | [] => true
  | ev :: tr' =>
      match step ev w with
      | None => true
      | Some w' => alwaysb P tr' w'
      end
  end.

(** [i] of a [SubmitHashes] is the number of goroutines that wrote it, and
    a goroutine about to write it has read its present value. *)
Definition exact_count (c : call) : Prop :=
  c_i c = stored_tasks (c_tasks c) /\
  Forall (fun t => forall tmp, t_pc t = TStoreI tmp -> tmp = c_i c) (c_tasks c).

(** The session against the one, [s0], that activation [k] of
    [SubmitHashes params] found: untouched until the activation returns,
    then with [MiniBlocks] raised by [Submitted]. *)
Definition session_of_submit (k : nat) (params : list Submit_Params)
    (s0 : GetSessionEPOCH_Result) (w : world) : Prop :=
  exists c, calls w !! k = Some c /\ c_kind c = Submit params /\
    match c_pc c with
    | CReturned None =>
        session (eng w)
        = set_MiniBlocks (wrap_int (MiniBlocks s0 + res_Submitted (c_result c))) s0
    | _ => session (eng w) = s0
    end.

(** The hashing blob of the current job fits the work buffer, so that
    [hex.Decode] returns. *)
Definition job_safe (e : EPOCH) : Prop :=
  hex_Decode (replicate MINIBLOCK_SIZE 0)
    (bytes_of_string (rpc.Blockhashing_blob (getJob e))) <> DecodePanic.

(** Activation [k] stands at its loop test with every goroutine it launched
    done, the semaphore is [ch], the process runs, and the current blob fits
    if the activation is one that hashes. *)
Definition at_loop (k : nat) (ch : chan) (w : world) (c : call) : Prop :=
  crashed w = false /\ calls w !! k = Some c /\ c_pc c = CLoop /\
  forallb task_done (c_tasks c) = true /\
  semaphore (eng w) = Some ch /\ (is_submit (c_kind c) \/ job_safe (eng w)).

(** Iterations the loop of an activation has left. *)
Definition loops_left (c : call) : nat :=
  match c_kind c with
  | Attempt n => Z.to_nat (n - c_i c)
  | Submit params => length params - c_next c
  end.

(** ** The rest of the package: port, job polling, RPC adapter *)

(** [strings.Trim] with a cutset of ASCII characters, as [GetPort] calls
    it: the standard library then works byte by byte, first from the right,
    then from the left ([trimLeftByte(trimRightByte(s, c), c)]). *)
Fixpoint TrimLeft (s : string) (cutset : list ascii) : string :=
  match s with
  | String c s' => if bool_decide (c ∈ cutset) then TrimLeft s' cutset else s
  | EmptyString => EmptyString
  end.

Fixpoint TrimRight (s : string) (cutset : list ascii) : string :=
  match s with
  | String c s' =>
      match TrimRight s' cutset with
      | EmptyString => if bool_decide (c ∈ cutset) then EmptyString
                       else String c EmptyString
      | r => String c r
      end
  | EmptyString => EmptyString
  end.

Definition Trim (s cutset : string) : string :=
  let cut := String.list_ascii_of_string cutset in
  TrimLeft (TrimRight s cut) cut.

Definition GetPort (e : EPOCH) : string := Trim (port e) ":".

(** The one error of [JobIsReady]. *)
Inductive job_error :=
| ErrCouldNotGetJob (timeout : Z).

(** [JobIsReady]: [time.NewTicker] panics on a duration that is not
    positive; then the select loop looks at the job once per poll until the
    ticker fires.  [polls] is what the engine looks like at each poll made
    before that. *)
Fixpoint JobIsReady_loop (timeout : Z) (polls : list EPOCH) : option job_error :=
  match polls with
  | [] => Some (ErrCouldNotGetJob timeout)
  | e :: rest =>
      if bool_decide (rpc.JobID (jobs_job e) <> "") then None
      else JobIsReady_loop timeout rest
  end.

Definition JobIsReady (timeout : Z) (polls : list EPOCH) : outcome (option job_error) :=
  if timeout <=? 0 then Panic else Ret (JobIsReady_loop timeout polls).

(** The RPC adapter. *)
Record Attempt_Params := {
  ap_Hashes : Z
}.

Record GetMaxHashes_Result := {
  MaxHashes : Z
}.

Record GetAddressEPOCH_Result := {
  Address : string
}.

(** [AttemptEPOCH] and [SubmitEPOCH] hand over to the two dispatchers. *)
Definition AttemptEPOCH (p : Attempt_Params) : event := EvAttemptHashes (ap_Hashes p).

Definition SubmitEPOCH (params : list Submit_Params) : event := EvSubmitHashes params.

Definition GetMaxHashesEPOCH (e : EPOCH) : GetMaxHashes_Result * option error :=
  if negb (IsActive e) then ({| MaxHashes := 0 |}, Some ErrNotActive)
  else ({| MaxHashes := GetMaxHashes e |}, None).

Definition GetAddressEPOCH (e : EPOCH) : GetAddressEPOCH_Result * option error :=
  if negb (IsActive e) then ({| Address := "" |}, Some ErrNotActive)
  else ({| Address := GetAddress e |}, None).

(** The functions registered in [epochHandler]. *)
Inductive handler_Func :=
| hAttemptEPOCH
| hSubmitEPOCH
| hGetMaxHashesEPOCH
| hGetAddressEPOCH
| hGetSessionEPOCH.

Definition epochHandler : gmap string handler_Func :=
  list_to_map
    [ ("AttemptEPOCH", hAttemptEPOCH); ("SubmitEPOCH", hSubmitEPOCH);
      ("GetMaxHashesEPOCH", hGetMaxHashesEPOCH);
      ("GetAddressEPOCH", hGetAddressEPOCH);
      ("GetSessionEPOCH", hGetSessionEPOCH) ].

(** [GetHandler]: the [range] loop over [epochHandler] visits the entries in
    an order the runtime picks, [order], and stores each in a new map. *)
Definition GetHandler_in (order : list (string * handler_Func))
  : gmap string handler_Func :=
  foldl (fun handler nf => <[nf.1 := nf.2]> handler) ∅ order.

Definition GetHandler : gmap string handler_Func :=
  GetHandler_in (map_to_list epochHandler).

(** ** What the package keeps in every state it can reach *)

(** The configuration: the port is a colon and the decimal of a number
    from 1 to 65535; the reward address is empty or one that
    [globals.ParseValidateAddress] accepted, and an accepted one while the
    connection is active; the worker limit is between 1 and the number of
    CPUs when there is a CPU; a semaphore never holds more than its
    capacity, which was a worker limit. *)
Definition cfg_ok {ext : Externals} (e : EPOCH) : Prop :=
  (exists p, 1 <= p <= 65535 /\ port e = ":" +:+ pretty p) /\
  (address e = "" \/ ParseValidateAddress (address e) = true) /\
  (IsActive e = true -> ParseValidateAddress (address e) = true) /\
  (1 <= NumCPU -> 1 <= maxThreads e <= NumCPU) /\
  (forall ch, semaphore e = Some ch ->
     0 <= chan_len ch <= chan_cap ch /\ (1 <= NumCPU -> 1 <= chan_cap ch <= NumCPU)).

(** The last template received along a schedule, [j0] if none was. *)
Definition last_job (tr : list event) (j0 : rpc.GetBlockTemplate_Result)
  : rpc.GetBlockTemplate_Result :=
  foldl (fun j ev => match ev with EvNewJob job => job | _ => j end) j0 tr.

(** ** What the two dispatchers report *)

(** The goroutine got [true] and a nil error from [submitBlock]. *)
Definition valid_ret (t : task) : bool :=
  match t_ret t with Some (true, None) => true | _ => false end.

(** The goroutine has left the body of the [go func()]; only the deferred
    function is left, or nothing. *)
Definition through (t : task) : bool :=
  match t_pc t with TRelease | TDone => true | _ => false end.

(** It left by one of the two [result.Error = err; return]. *)
Definition failed (t : task) : bool := negb (task_ok t) && through t.

(** It left after [result.Submitted++]. *)
Definition counted (t : task) : bool := valid_ret t && through t.

(** A goroutine at [result.Submitted++]: its block was valid, and the value
    it read is at most the number of increments made so far ([bound]). *)
Definition task_acct (bound : Z) (t : task) : Prop :=
  match t_pc t with
  | TLoadSubmitted => valid_ret t = true
  | TStoreSubmitted tmp => valid_ret t = true /\ 0 <= tmp <= bound
  | _ => True
  end.

(** The result of an activation against its goroutines: [result.Error] is
    set exactly when a goroutine has left by an error; a caller that is past
    its loop with no error set has run the loop to its end; [Submitted] is
    at most the number of goroutines that incremented it, and at least 1 if
    there is one. *)
Definition call_acct (c : call) : Prop :=
  (res_Error (c_result c) = None <-> count_tasks failed (c_tasks c) = 0) /\
  (c_pc c = CWait \/ c_pc c = CReturned None ->
   res_Error (c_result c) = None -> loop_cond c = false) /\
  0 <= res_Submitted (c_result c) <= count_tasks counted (c_tasks c) /\
  (1 <= count_tasks counted (c_tasks c) -> 1 <= res_Submitted (c_result c)) /\
  Forall (task_acct (count_tasks counted (c_tasks c))) (c_tasks c).

(** The session a returned activation leaves, from the one, [s0], it
    found. *)
Definition session_after (c : call) (s0 : GetSessionEPOCH_Result)
  : GetSessionEPOCH_Result :=
  match c_kind c with
  | Attempt _ =>
      set_MiniBlocks (wrap_int (MiniBlocks s0 + res_Submitted (c_result c)))
        (set_Hashes (wrap_uint64 (Hashes s0 + res_Hashes (c_result c))) s0)
  | Submit _ =>
      set_MiniBlocks (wrap_int (MiniBlocks s0 + res_Submitted (c_result c))) s0
  end.

(** Activation [k] alone with the engine: [s0] and [p0] are the session and
    the processing flag it found.  A rejected one has touched neither;
    while it runs the flag is up and the session untouched; once it has
    returned the flag is down and the session has its counts. *)
Definition solo_view (k : nat) (s0 : GetSessionEPOCH_Result) (p0 : bool)
    (w : world) : Prop :=
  exists c, calls w !! k = Some c /\
    match c_pc c with
    | CReturned (Some _) => IsProcessing (eng w) = p0 /\ session (eng w) = s0
    | CReturned None =>
        IsProcessing (eng w) = false /\ session (eng w) = session_after c s0
    | _ => IsProcessing (eng w) = true /\ session (eng w) = s0
    end.

(** The demo connection with the README template received, and one
    [AttemptHashes(1)] run on it to its return: the goroutine hashes,
    submits, counts its block and releases its slot. *)
Definition demo_ready : world :=
  Eval vm_compute in
    default demo_init
      (run (ext := demo) [demo_start; EvNewJob (demo_job blob48)] demo_init).

Definition one_attempt_schedule : list event :=
  [ EvCall 0 0; EvCall 0 0; EvCall 0 0;
    EvTask 0 0 demo_io; EvTask 0 0 demo_io; EvTask 0 0 demo_io;
    EvTask 0 0 demo_io; EvTask 0 0 demo_io;
    EvCall 0 7 ].

Definition demo_attempted : world :=
  Eval vm_compute in
    default demo_init
      (run (ext := demo) (EvAttemptHashes 1 :: one_attempt_schedule) demo_ready).

(** [demo_ready] with one [AttemptHashes(1)] entered. *)
Definition demo_entered : world :=
  Eval vm_compute in
    default demo_init (run (ext := demo) [EvAttemptHashes 1] demo_ready).

(** Blocks counted by the results of all activations, and goroutines that
    got [true] from [submitBlock], over the whole process. *)
Definition total_submitted (w : world) : Z :=
  sumZ (fun c => res_Submitted (c_result c)) (calls w).

Definition total_valid (w : world) : Z :=
  sumZ (fun c => count_tasks valid_ret (c_tasks c)) (calls w).

(** ** Progress *)

(** A step of a caller or of a goroutine. *)
Definition work_event (ev : event) : Prop :=
  match ev with
  | EvCall _ _ | EvTask _ _ _ => True
  | _ => False
  end.

(** A quantity that every step of a caller or of a goroutine lowers and
    that is never negative: it weighs the iterations the loop of an
    activation has left, the steps its goroutines have left, and where its
    caller stands.  The weights are those of the steps of this embedding;
    only that the quantity goes down is used. *)
Definition call_rank (pc : call_pc) : Z :=
  match pc with
  | CLoop => 3
  | CAcquire => 2
  | CWait => 1
  | CReturned _ => 0
  end.

Definition call_measure (c : call) : Z :=
  9 * Z.of_nat (loops_left c) + call_rank (c_pc c)
  + sumZ (fun t => Z.of_nat (steps_left (t_pc t))) (c_tasks c).

Definition world_measure (w : world) : Z := sumZ call_measure (calls w).

(** * Properties *)

(** The outcome of a step of a goroutine, read off its equation. *)
Ltac step_result := intros [= <- <- <- <-].

(** One case of a goroutine step against [task_wf]: unfold what is counted,
    split on what [submitBlock] returned and on the kind of activation, and
    leave the arithmetic to [lia]. *)
Ltac wf_case tk c Hpc :=
  step_result; unfold stored, task_wf, task_ok in *; simpl; rewrite Hpc;
  destruct (t_ret tk) as [[? [? |]] |]; simpl;
  try destruct (c_kind c); simpl in *; intuition (try lia; try discriminate).

(** Cases on an event, with the names used throughout. *)
Ltac event_cases ev :=
  destruct ev as [i | i | a | p | addr endpoint dial | | job | n | params
                  | k clock | k t io].

Lemma wrap_int_id z : int_range z -> wrap_int z = z.
Proof.
  unfold int_range, wrap_int. intros H.
  rewrite Z.mod_small by lia. lia.
Qed.

Lemma wrap_uint64_id z : 0 <= z < 2 ^ 64 -> wrap_uint64 z = z.
Proof. intros H. unfold wrap_uint64. now apply Z.mod_small. Qed.

Lemma wrap_int_range z : int_range (wrap_int z).
Proof.
  unfold int_range, wrap_int.
  pose proof (Z.mod_pos_bound (z + 2 ^ 63) (2 ^ 64) ltac:(lia)). lia.
Qed.

Lemma wrap_uint64_range z : 0 <= wrap_uint64 z < 2 ^ 64.
Proof. unfold wrap_uint64. apply Z.mod_pos_bound. lia. Qed.

Section ConfigFacts.
Context {ext : Externals}.

(** ** The job store *)

(** C8.  Storing a template with [newJob] and reading it back with [getJob]
    gives the template itself, field for field, and [newJob] returns the
    last-error field of the template it was given. *)
Theorem newJob_getJob_roundtrip (t : rpc.GetBlockTemplate_Result) (e : EPOCH) :
  getJob (newJob t e).1 = t /\
  (newJob t e).2 = rpc.LastError t /\
  rpc.JobID (getJob (newJob t e).1) = rpc.JobID t /\
  rpc.Blockhashing_blob (getJob (newJob t e).1) = rpc.Blockhashing_blob t /\
  rpc.Difficulty (getJob (newJob t e).1) = rpc.Difficulty t /\
  rpc.Height (getJob (newJob t e).1) = rpc.Height t /\
  rpc.LastError (getJob (newJob t e).1) = rpc.LastError t /\
  rpc.Status (getJob (newJob t e).1) = rpc.Status t.
Proof. repeat split. Qed.

(** Nothing but the stored template changes. *)
Lemma newJob_frame (t : rpc.GetBlockTemplate_Result) (e : EPOCH) :
  (newJob t e).1 = set_jobs_job t e.
Proof. reflexivity. Qed.

(** ** The ceilings *)

(** C4, as the code has it.  [SetMaxHashes] does not clamp: a value up to
    [LIMIT_MAX_HASHES] is stored as given and no error is returned; a value
    above it is refused with an error and the ceiling stays what it was.
    Either way a ceiling that was at most the limit stays so. *)
Theorem SetMaxHashes_stores_or_refuses (i : Z) (e : EPOCH) :
  (i <= LIMIT_MAX_HASHES /\
   SetMaxHashes i e = (set_maxHashes i e, None) /\
   GetMaxHashes (SetMaxHashes i e).1 = Z.min i LIMIT_MAX_HASHES)
  \/
  (LIMIT_MAX_HASHES < i /\
   SetMaxHashes i e = (e, Some (ErrCannotExceed LIMIT_MAX_HASHES)) /\
   GetMaxHashes (SetMaxHashes i e).1 = GetMaxHashes e).
Proof.
  unfold SetMaxHashes. destruct (Z.gtb_spec i LIMIT_MAX_HASHES) as [Hgt | Hle].
  - right. repeat split; lia.
  - left. repeat split; try lia. simpl. unfold GetMaxHashes. simpl. lia.
Qed.

Lemma SetMaxHashes_below_limit (i : Z) (e : EPOCH) :
  GetMaxHashes e <= LIMIT_MAX_HASHES ->
  GetMaxHashes (SetMaxHashes i e).1 <= LIMIT_MAX_HASHES.
Proof.
  intros He. unfold SetMaxHashes.
  destruct (Z.gtb_spec i LIMIT_MAX_HASHES); simpl; [exact He | assumption].
Qed.

(** C7.  With at least one CPU reported by the runtime, [SetMaxThreads i]
    leaves the worker limit at [clamp i 1 NumCPU]: [NumCPU] for an input
    above it, 1 for an input below 1, the input itself in between. *)
Theorem SetMaxThreads_clamp (i : Z) (e : EPOCH) :
  1 <= NumCPU ->
  GetMaxThreads (SetMaxThreads i e) = clamp i 1 NumCPU /\
  (NumCPU < i -> GetMaxThreads (SetMaxThreads i e) = NumCPU) /\
  (i < 1 -> GetMaxThreads (SetMaxThreads i e) = 1) /\
  (1 <= i <= NumCPU -> GetMaxThreads (SetMaxThreads i e) = i).
Proof.
  intros Hcpu. unfold SetMaxThreads, GetMaxThreads, clamp. simpl.
  destruct (Z.gtb_spec i NumCPU); destruct (Z.ltb_spec i 1); repeat split; lia.
Qed.

Lemma SetMaxThreads_frame (i : Z) (e : EPOCH) :
  SetMaxThreads i e = set_maxThreads (GetMaxThreads (SetMaxThreads i e)) e.
Proof. reflexivity. Qed.

End ConfigFacts.

(** C4 as stated fails: from the initial ceiling of 1000,
    [SetMaxHashes 10001] leaves 1000, not [min 10001 10000]. *)
Lemma SetMaxHashes_does_not_clamp :
  GetMaxHashes (SetMaxHashes 10001 (init (ext := demo))).1 = 1000 /\
  GetMaxHashes (SetMaxHashes 10001 (init (ext := demo))).1
    <> Z.min 10001 LIMIT_MAX_HASHES.
Proof. split; [reflexivity | discriminate]. Qed.

Lemma SetMaxThreads_clamp_witness :
  1 <= 4 /\
  GetMaxThreads (SetMaxThreads (ext := demo) 9 (init (ext := demo))) = clamp 9 1 4.
Proof.
  split; [lia |].
  refine (proj1 (SetMaxThreads_clamp (ext := demo) 9 _ _)).
  vm_compute. discriminate.
Defined.

(** ** Decoding the work blob *)

Lemma hex_Decode_from_length (src : list Z) :
  forall (i : nat) (dst dst' : list Z) (n : nat) (err : option hex_error),
  hex_Decode_from i dst src = Decoded dst' n err -> length dst' = length dst.
Proof.
  induction src as [src IH] using (induction_ltof1 _ (@length Z)).
  intros i dst dst' n err. destruct src as [| p [| q rest]]; simpl.
  - intros [= <- _ _]. reflexivity.
  - destruct (_ >? 15); intros [= <- _ _]; reflexivity.
  - destruct (_ >? 15); [intros [= <- _ _]; reflexivity |].
    destruct (_ >? 15); [intros [= <- _ _]; reflexivity |].
    destruct (i <? length dst)%nat; [| discriminate].
    intros H. apply IH in H; [| unfold ltof; simpl; lia].
    rewrite H. apply length_insert.
Qed.

(** The decoder panics only when the source holds more bytes than the
    destination has room for. *)
Lemma hex_Decode_from_no_panic (src : list Z) :
  forall (i : nat) (dst : list Z),
  (2 * i + length src <= 2 * length dst + 1)%nat ->
  hex_Decode_from i dst src <> DecodePanic.
Proof.
  induction src as [src IH] using (induction_ltof1 _ (@length Z)).
  intros i dst Hlen. destruct src as [| p [| q rest]]; simpl.
  - discriminate.
  - destruct (_ >? 15); discriminate.
  - destruct (_ >? 15); [discriminate |].
    destruct (_ >? 15); [discriminate |].
    destruct (Nat.ltb_spec i (length dst)) as [Hi | Hi].
    + apply IH; [unfold ltof; simpl; lia |].
      rewrite length_insert. simpl in Hlen. lia.
    + simpl in Hlen. lia.
Qed.

Section PowFacts.
Context {ext : Externals}.

(** A blob that decodes to another number of bytes than [MINIBLOCK_SIZE], or
    that does not decode, makes [powHash] return an error, with no hash
    computed, as long as the decoder itself returns. *)
Lemma powHash_rejects_bad_length (random_buf : list Z) (e : EPOCH)
    (work : list Z) (n : nat) (err : option hex_error) :
  hex_Decode (replicate MINIBLOCK_SIZE 0)
    (bytes_of_string (rpc.Blockhashing_blob (getJob e))) = Decoded work n err ->
  err <> None \/ n <> MINIBLOCK_SIZE ->
  exists r, powHash random_buf e = Ret r /\
    ph_err r = Some (ErrNotDecoded (getJob e) (Z.of_nat n) err) /\
    ph_powhash r = replicate 32 0.
Proof.
  intros Hdec Hbad. unfold powHash. rewrite Hdec.
  assert (bool_decide (err <> None) || bool_decide (n <> MINIBLOCK_SIZE) = true) as ->.
  { destruct Hbad as [H | H]; [rewrite (bool_decide_eq_true_2 _ H) |
      rewrite (bool_decide_eq_true_2 (n <> MINIBLOCK_SIZE) H), orb_true_r]; reflexivity. }
  eexists. split; [reflexivity |]. split; reflexivity.
Qed.

(** A decoded buffer whose byte 0 has a low nibble other than 1 makes
    [powHash] return an error, with no hash computed. *)
Lemma powHash_rejects_bad_version (random_buf : list Z) (e : EPOCH)
    (work : list Z) (b0 : Z) :
  hex_Decode (replicate MINIBLOCK_SIZE 0)
    (bytes_of_string (rpc.Blockhashing_blob (getJob e)))
    = Decoded work MINIBLOCK_SIZE None ->
  work !! 0%nat = Some b0 ->
  Z.land b0 15 <> 1 ->
  exists r, powHash random_buf e = Ret r /\
    ph_err r = Some (ErrUnknownVersion (Z.land b0 31)) /\
    ph_powhash r = replicate 32 0.
Proof.
  intros Hdec H0 Hver. unfold powHash. rewrite Hdec.
  apply hex_Decode_from_length in Hdec. rewrite length_replicate in Hdec.
  rewrite bool_decide_eq_false_2 by (intros H; now apply H).
  rewrite bool_decide_eq_false_2 by (intros H; now apply H).
  simpl orb. cbv iota.
  assert ((<[(MINIBLOCK_SIZE - 1)%nat := 1]>
             (take (MINIBLOCK_SIZE - 12) work
              ++ copy (drop (MINIBLOCK_SIZE - 12) work) random_buf)) !! 0%nat
          = Some b0) as Hw0.
  { rewrite list_lookup_insert_ne by (unfold MINIBLOCK_SIZE; lia).
    rewrite lookup_app_l by (rewrite length_take, Hdec; unfold MINIBLOCK_SIZE; lia).
    rewrite lookup_take_lt by (unfold MINIBLOCK_SIZE; lia). exact H0. }
  rewrite Hw0. simpl default.
  rewrite bool_decide_eq_true_2 by exact Hver.
  eexists. split; [reflexivity |]. split; reflexivity.
Qed.

(** The hash function is only reached on the path without error. *)
Lemma powHash_error_no_hash (random_buf : list Z) (e : EPOCH) (r : powHash_ret) :
  powHash random_buf e = Ret r -> ph_err r <> None -> ph_powhash r = replicate 32 0.
Proof.
  unfold powHash. destruct (hex_Decode _ _) as [| work n err]; [discriminate |].
  destruct (_ || _); [intros [= <-]; reflexivity |].
  destruct (bool_decide _); intros [= <-]; [reflexivity |].
  simpl. intros H. now contradict H.
Qed.

(** A goroutine of [AttemptHashes] whose [powHash] returned an error goes to
    [result.Error = err] with nothing sent and [submitBlock] not called. *)
Lemma task_step_powHash_error (io : task_io) (t : task) (c : call) (e : EPOCH)
    (out : list rpc.SubmitBlock_Params) (r : powHash_ret) (err : error) :
  t_pc t = TPowHash ->
  powHash (io_random io) e = Ret r -> ph_err r = Some err ->
  task_step io t c e out = Some (Ret (set_t_pc (TSetError err) t, c, e, out)).
Proof.
  intros Hpc Hpow Herr. unfold task_step. rewrite Hpc, Hpow, Herr. reflexivity.
Qed.

(** From there the goroutine sets the error, releases its slot and ends. *)
Lemma task_step_after_error (io : task_io) (t : task) (c : call) (e : EPOCH)
    (out : list rpc.SubmitBlock_Params) (err : error) :
  t_pc t = TSetError err ->
  task_step io t c e out
  = Some (Ret (set_t_pc TRelease t,
               set_c_result (set_res_Error (Some err) (c_result c)) c, e, out)).
Proof. intros Hpc. unfold task_step. rewrite Hpc. reflexivity. Qed.

(** A panic of [powHash] in a goroutine ends the process, whatever else is
    running. *)
Lemma step_powHash_panic (w : world) (k t : nat) (io : task_io) (c : call) (tk : task) :
  crashed w = false ->
  calls w !! k = Some c -> c_tasks c !! t = Some tk -> t_pc tk = TPowHash ->
  powHash (io_random io) (eng w) = Panic ->
  step (EvTask k t io) w = Some (crash w).
Proof.
  intros Hc Hk Ht Hpc Hpow. unfold step. rewrite Hc, Hk, Ht.
  unfold task_step. rewrite Hpc, Hpow. reflexivity.
Qed.

(** Past the end of the destination the decoder panics, if the digits up
    to there are valid. *)
Lemma hex_Decode_from_overflow (m : nat) :
  forall (i : nat) (dst src : list Z),
  (i + m = length dst)%nat -> (2 * m + 2 <= length src)%nat ->
  Forall (fun b => reverseHexTable b <= 15) (take (2 * m + 2) src) ->
  hex_Decode_from i dst src = DecodePanic.
Proof.
  induction m as [| m IH]; intros i dst src Hi Hlen Hhex;
    destruct src as [| p [| q rest]]; simpl in Hlen; try lia.
  - simpl in Hhex. apply Forall_cons in Hhex as [Hp Hhex].
    apply Forall_cons in Hhex as [Hq _]. simpl.
    destruct (Z.gtb_spec (reverseHexTable p) 15); [lia |].
    destruct (Z.gtb_spec (reverseHexTable q) 15); [lia |].
    destruct (Nat.ltb_spec i (length dst)); [lia | reflexivity].
  - replace (2 * S m + 2)%nat with (S (S (2 * m + 2))) in Hhex by lia.
    simpl in Hhex. apply Forall_cons in Hhex as [Hp Hhex].
    apply Forall_cons in Hhex as [Hq Hhex]. simpl.
    destruct (Z.gtb_spec (reverseHexTable p) 15); [lia |].
    destruct (Z.gtb_spec (reverseHexTable q) 15); [lia |].
    destruct (Nat.ltb_spec i (length dst)); [| lia].
    apply IH; [rewrite length_insert; lia | lia | exact Hhex].
Qed.

(** C5, where the code departs from it.  When the hashing blob of the
    current job starts with [MINIBLOCK_SIZE + 1] bytes' worth of valid hex
    digits (98 digits or more), [hex.Decode] writes past the work buffer:
    [powHash] does not return an error, it panics, whatever the random bytes
    and the rest of the engine are. *)
Theorem powHash_long_blob_panics (random_buf : list Z) (e : EPOCH) :
  (2 * MINIBLOCK_SIZE + 2 <= length (bytes_of_string (rpc.Blockhashing_blob (getJob e))))%nat ->
  Forall (fun b => reverseHexTable b <= 15)
    (take (2 * MINIBLOCK_SIZE + 2) (bytes_of_string (rpc.Blockhashing_blob (getJob e)))) ->
  powHash random_buf e = Panic.
Proof.
  intros Hlen Hhex. unfold powHash, hex_Decode.
  rewrite (hex_Decode_from_overflow MINIBLOCK_SIZE); [reflexivity | | exact Hlen | exact Hhex].
  rewrite length_replicate. reflexivity.
Qed.

(** The same blob cut to 96 digits is accepted, and cut to 94 digits is
    refused with an error. *)
Lemma powHash_exact_blob_ok (e : EPOCH) :
  exists r, powHash (replicate 12 7) (set_jobs_job (demo_job blob48) e) = Ret r
            /\ ph_err r = None.
Proof. eexists. split; reflexivity. Qed.

Lemma powHash_short_blob_error (random_buf : list Z) (e : EPOCH) :
  exists r, powHash random_buf
              (set_jobs_job (demo_job (String.substring 0 94 blob48)) e) = Ret r
            /\ ph_err r = Some (ErrNotDecoded
                                  (demo_job (String.substring 0 94 blob48)) 47 None).
Proof. eexists. split; reflexivity. Qed.

End PowFacts.

(** The 96 digits of the README example followed by one more byte: the
    goroutine that runs [powHash] on it brings the process down. *)
Lemma powHash_long_blob_panics_witness :
  powHash (ext := demo) (replicate 12 7) (set_jobs_job (demo_job blob49) (eng demo_started))
  = Panic.
Proof.
  apply (powHash_long_blob_panics (ext := demo)).
  - vm_compute. lia.
  - vm_compute. repeat constructor; discriminate.
Defined.

(** ** Counting goroutines *)

Lemma sumZ_app {A : Type} (g : A -> Z) (l1 l2 : list A) :
  sumZ g (l1 ++ l2) = sumZ g l1 + sumZ g l2.
Proof. induction l1 as [| x l1 IH]; simpl; [reflexivity | rewrite IH; lia]. Qed.

Lemma sumZ_insert {A : Type} (g : A -> Z) (l : list A) (k : nat) (x y : A) :
  l !! k = Some x -> sumZ g (<[k := y]> l) = sumZ g l - g x + g y.
Proof.
  revert k. induction l as [| a l IH]; intros [| k] Hk; simpl in *; try discriminate.
  - injection Hk as ->. lia.
  - rewrite (IH k Hk). lia.
Qed.

Lemma sumZ_nonneg {A : Type} (g : A -> Z) (l : list A) :
  (forall x, 0 <= g x) -> 0 <= sumZ g l.
Proof.
  intros Hg. induction l as [| a l IH]; simpl; [lia | specialize (Hg a); lia].
Qed.

Lemma count_tasks_bounds (f : task -> bool) (ts : list task) :
  0 <= count_tasks f ts <= Z.of_nat (length ts).
Proof.
  unfold count_tasks. induction ts as [| t ts IH]; simpl; [lia |].
  destruct (f t); lia.
Qed.

Lemma count_tasks_le (f g : task -> bool) (ts : list task) :
  (forall t, f t = true -> g t = true) -> count_tasks f ts <= count_tasks g ts.
Proof.
  intros Hfg. unfold count_tasks. induction ts as [| t ts IH]; simpl; [lia |].
  specialize (Hfg t). destruct (f t), (g t); try lia; discriminate (Hfg eq_refl).
Qed.

Lemma count_tasks_all (f g : task -> bool) (ts : list task) :
  Forall (fun t => f t = g t) ts -> count_tasks f ts = count_tasks g ts.
Proof.
  unfold count_tasks. induction 1 as [| t ts Ht _ IH]; simpl; [reflexivity |].
  rewrite Ht, IH. reflexivity.
Qed.

Lemma holding_nonneg (w : world) : 0 <= holding w.
Proof.
  apply sumZ_nonneg. intros c. apply count_tasks_bounds.
Qed.

Lemma forallb_task_done_holding (ts : list task) :
  forallb task_done ts = true -> holding_tasks ts = 0.
Proof.
  unfold holding_tasks, count_tasks.
  induction ts as [| t ts IH]; simpl; [reflexivity |].
  intros [Ht Hts]%andb_prop. rewrite Ht. simpl. rewrite IH by assumption. reflexivity.
Qed.

Section SchedulerFacts.
Context {ext : Externals}.

(** ** What [StartGetWork] changes *)

Lemma StartGetWork_cases (addr endpoint : string) (dial : option nat)
    (e e' : EPOCH) (err : option error) :
  StartGetWork addr endpoint dial e = Ret (e', err) ->
  maxHashes e' = maxHashes e /\ maxThreads e' = maxThreads e /\
  Version (session e') = Version (session e) /\
  match err with
  | None =>
      IsActive e = false /\ IsActive e' = true /\ 0 <= maxThreads e /\
      semaphore e' = Some {| chan_cap := maxThreads e; chan_len := 0 |} /\
      Hashes (session e') = 0 /\ MiniBlocks (session e') = 0
  | Some _ => semaphore e' = semaphore e /\ session e' = session e
  end.
Proof.
  unfold StartGetWork.
  destruct (IsActive e) eqn:Hact; [intros [= <- <-]; auto |].
  destruct (SplitHostPort endpoint); [| intros [= <- <-]; auto].
  destruct (bool_decide (addr <> "")).
  - unfold SetAddress. destruct (ParseValidateAddress addr); [| intros [= <- <-]; auto].
    destruct (ParseValidateAddress _); simpl; [| intros [= <- <-]; auto].
    destruct dial; [| intros [= <- <-]; auto].
    destruct (Z.ltb_spec (maxThreads e) 0); [discriminate |].
    intros [= <- <-]. simpl. repeat split; auto.
  - destruct (ParseValidateAddress _); simpl; [| intros [= <- <-]; auto].
    destruct dial; [| intros [= <- <-]; auto].
    destruct (Z.ltb_spec (maxThreads e) 0); [discriminate |].
    intros [= <- <-]. simpl. repeat split; auto.
Qed.

(** ** The semaphore *)

Lemma acquire_spec (e e' : EPOCH) :
  acquire e = Some e' ->
  exists ch, semaphore e = Some ch /\ chan_len ch < chan_cap ch /\
    e' = set_semaphore (Some {| chan_cap := chan_cap ch; chan_len := chan_len ch + 1 |}) e.
Proof.
  unfold acquire. destruct (semaphore e) as [ch |]; [| discriminate].
  destruct (Z.ltb_spec (chan_len ch) (chan_cap ch)); [| discriminate].
  intros [= <-]. eauto.
Qed.

Lemma release_spec (e e' : EPOCH) :
  release e = Some e' ->
  exists ch, semaphore e = Some ch /\ 0 < chan_len ch /\
    e' = set_semaphore (Some {| chan_cap := chan_cap ch; chan_len := chan_len ch - 1 |}) e.
Proof.
  unfold release. destruct (semaphore e) as [ch |]; [| discriminate].
  destruct (Z.ltb_spec 0 (chan_len ch)); [| discriminate].
  intros [= <-]. eauto.
Qed.

(** A step of the caller either leaves the semaphore and its goroutines as
    they are, or takes one slot and launches one goroutine. *)
Lemma call_step_semaphore (clock : Z) (c c' : call) (e e' : EPOCH) :
  call_step clock c e = Some (c', e') ->
  (semaphore e' = semaphore e /\ c_tasks c' = c_tasks c) \/
  (exists ch pc, semaphore e = Some ch /\ chan_len ch < chan_cap ch /\
     semaphore e' = Some {| chan_cap := chan_cap ch; chan_len := chan_len ch + 1 |} /\
     c_tasks c' = c_tasks c ++ [new_task pc] /\ task_done (new_task pc) = false).
Proof.
  unfold call_step. destruct (c_pc c).
  - destruct (loop_cond c); [destruct (res_Error _) |]; intros [= <- <-]; auto.
  - destruct (acquire e) as [e1 |] eqn:Hacq; [| discriminate].
    apply acquire_spec in Hacq as (ch & Hch & Hlt & ->).
    destruct (c_kind c) as [n | params].
    + intros [= <- <-]. right. exists ch, TPowHash. auto.
    + destruct (params !! c_next c) as [p |]; [| discriminate].
      intros [= <- <-]. right. exists ch, (TSubmit p). auto.
  - destruct (forallb task_done (c_tasks c)); [| discriminate].
    unfold finish. intros [= <- <-]. left. split; [| reflexivity].
    destruct (c_kind c); reflexivity.
  - discriminate.
Qed.

(** A step of a goroutine either keeps it running with the semaphore as it
    is, or is the deferred receive: one slot is given back and the goroutine
    is done. *)
Lemma task_step_semaphore (io : task_io) (tk tk' : task) (c c' : call) (e e' : EPOCH)
    (out out' : list rpc.SubmitBlock_Params) :
  task_step io tk c e out = Some (Ret (tk', c', e', out')) ->
  c_tasks c' = c_tasks c /\ c_kind c' = c_kind c /\ c_pc c' = c_pc c /\
  c_next c' = c_next c /\
  task_done tk = false /\
  t_acquired tk' = t_acquired tk /\
  ((e' = e /\ task_done tk' = false /\ t_released tk' = t_released tk) \/
   (t_pc tk = TRelease /\ task_done tk' = true /\
    t_released tk' = S (t_released tk) /\ c' = c /\ out' = out /\
    exists ch, semaphore e = Some ch /\ 0 < chan_len ch /\
      e' = set_semaphore (Some {| chan_cap := chan_cap ch; chan_len := chan_len ch - 1 |}) e)).
Proof.
  unfold task_step, task_done. destruct (t_pc tk) eqn:Hpc.
  - destruct (powHash _ _) as [| r]; [discriminate |].
    destruct (ph_err r); step_result; repeat split; auto.
  - destruct (submitBlock _ _ _ _ _ _) as [[valid err] msg].
    destruct err; [step_result; repeat split; auto |].
    destruct (c_kind c) eqn:Hkind; [destruct valid |];
      step_result; repeat split; auto.
  - step_result; repeat split; auto.
  - step_result; repeat split; auto.
  - destruct (match t_ret tk with Some (v, _) => v | None => false end);
      step_result; repeat split; auto.
  - step_result; repeat split; auto.
  - step_result; repeat split; auto.
  - destruct (release e) as [e1 |] eqn:Hrel; [| discriminate].
    apply release_spec in Hrel as (ch & Hch & Hlt & ->).
    step_result. repeat split; auto. right. repeat split; auto.
    exists ch. auto.
  - discriminate.
Qed.

Lemma holding_set_eng (e : EPOCH) (w : world) : holding (set_eng e w) = holding w.
Proof. reflexivity. Qed.

Lemma sem_good_same (w w' : world) (limit : Z) :
  semaphore (eng w') = semaphore (eng w) -> holding w' = holding w ->
  sem_good w limit -> sem_good w' limit.
Proof. unfold sem_good. intros -> ->. auto. Qed.

(** Every step keeps the semaphore in line with the goroutines that hold a
    slot, provided a connecting [StartGetWork] finds none holding one. *)
Lemma step_sem_good (ev : event) (w w' : world) (limit : Z) :
  sem_good w limit -> (starts ev w = true -> holding w = 0) ->
  step ev w = Some w' ->
  sem_good w' (if starts ev w then maxThreads (eng w) else limit).
Proof.
  intros Hg Hquiet. unfold step. destruct (crashed w); [discriminate |].
  event_cases ev; simpl starts.
  - intros [= <-]. revert Hg. apply sem_good_same; reflexivity.
  - intros [= <-]. revert Hg. apply sem_good_same; [| reflexivity].
    unfold SetMaxHashes. destruct (_ >? _); reflexivity.
  - intros [= <-]. revert Hg. apply sem_good_same; [| reflexivity].
    unfold SetAddress. destruct (ParseValidateAddress a); reflexivity.
  - intros [= <-]. revert Hg. apply sem_good_same; [| reflexivity].
    unfold SetPort. destruct (_ || _); reflexivity.
  - simpl in Hquiet.
    destruct (StartGetWork addr endpoint dial (eng w)) as [| [e' err]] eqn:Hs.
    + intros [= <-]. revert Hg. apply sem_good_same; reflexivity.
    + intros [= <-]. apply StartGetWork_cases in Hs as (_ & _ & _ & Hs).
      destruct err as [err |].
      * destruct Hs as [Hsem _]. revert Hg. apply sem_good_same; [exact Hsem | reflexivity].
      * destruct Hs as (_ & _ & Hpos & Hsem & _).
        unfold sem_good. simpl eng. rewrite Hsem, holding_set_eng. simpl.
        rewrite Hquiet by reflexivity. lia.
  - intros [= <-]. revert Hg. apply sem_good_same; [| reflexivity].
    unfold StopGetWork. destruct (IsActive _); reflexivity.
  - destruct (IsActive _); [| discriminate].
    intros [= <-]. revert Hg. apply sem_good_same; reflexivity.
  - unfold AttemptHashes_entry.
    destruct (negb _); [| destruct (_ >? _)]; intros [= <-]; revert Hg;
      (apply sem_good_same; [reflexivity |]);
      unfold holding; simpl; rewrite sumZ_app; simpl; unfold holding_tasks, count_tasks;
      simpl; lia.
  - unfold SubmitHashes_entry.
    destruct (negb _); [| destruct (_ >? _)]; intros [= <-]; revert Hg;
      (apply sem_good_same; [reflexivity |]);
      unfold holding; simpl; rewrite sumZ_app; simpl; unfold holding_tasks, count_tasks;
      simpl; lia.
  - destruct (calls w !! k) as [c |] eqn:Hk; [| discriminate].
    destruct (call_step clock c (eng w)) as [[c' e'] |] eqn:Hstep; [| discriminate].
    intros [= <-].
    assert (holding (set_calls (<[k := c']> (calls w)) (set_eng e' w))
            = holding w - holding_tasks (c_tasks c) + holding_tasks (c_tasks c')) as Hh.
    { unfold holding. simpl. now rewrite (sumZ_insert _ _ _ _ _ Hk). }
    apply call_step_semaphore in Hstep as [[Hsem Hts] | (ch & pc & Hch & Hlt & Hsem & Hts & Hnd)].
    + revert Hg. apply sem_good_same; [exact Hsem |]. rewrite Hh, Hts. lia.
    + unfold sem_good in *. simpl eng. rewrite Hsem, Hh, Hts. rewrite Hch in Hg.
      unfold holding_tasks, count_tasks. rewrite sumZ_app. simpl.
      rewrite Hnd. simpl. unfold holding_tasks, count_tasks in Hg. lia.
  - destruct (calls w !! k) as [c |] eqn:Hk; [| discriminate].
    destruct (c_tasks c !! t) as [tk |] eqn:Ht; [| discriminate].
    destruct (task_step io tk c (eng w) (outbox w)) as [[| [[[tk' c'] e'] out']] |] eqn:Hstep;
      [| | discriminate].
    + intros [= <-]. revert Hg. apply sem_good_same; reflexivity.
    + intros [= <-].
      apply task_step_semaphore in Hstep as (Hts & _ & _ & _ & Hnd & _ & Hcase).
      assert (holding (set_outbox out'
                (set_calls (<[k := set_c_tasks (<[t := tk']> (c_tasks c')) c']> (calls w))
                   (set_eng e' w)))
              = holding w - (if negb (task_done tk) then 1 else 0)
                + (if negb (task_done tk') then 1 else 0)) as Hh.
      { unfold holding. simpl. rewrite (sumZ_insert _ _ _ _ _ Hk). simpl.
        unfold holding_tasks, count_tasks. rewrite Hts.
        rewrite (sumZ_insert _ _ _ _ _ Ht). lia. }
      destruct Hcase as [(-> & Hnd' & _) | (_ & Hd' & _ & _ & _ & ch & Hch & Hlt & ->)].
      * revert Hg. apply sem_good_same; [reflexivity |].
        rewrite Hh, Hnd, Hnd'. simpl. lia.
      * unfold sem_good in *. simpl eng. simpl semaphore. rewrite Hh, Hnd, Hd'.
        rewrite Hch in Hg. simpl. lia.
Qed.

Lemma run_sem_good (tr : list event) :
  forall (w w' : world) (limit : Z),
  sem_good w limit -> quiet_starts tr w -> run tr w = Some w' ->
  sem_good w' (limit_at_start tr w limit).
Proof.
  induction tr as [| ev tr IH]; intros w w' limit Hg Hq Hrun; simpl in *.
  - injection Hrun as <-. exact Hg.
  - destruct (step ev w) as [w1 |] eqn:Hstep; [| discriminate].
    destruct Hq as [Hq1 Hq2].
    eapply IH; [| exact Hq2 | exact Hrun].
    eapply step_sem_good; eassumption.
Qed.

(** Every step keeps the count of semaphore operations of every goroutine:
    one send, and one receive exactly when it is done. *)
Lemma step_slots_once (ev : event) (w w' : world) :
  slots_once w -> step ev w = Some w' -> slots_once w'.
Proof.
  intros Hs. unfold step. destruct (crashed w); [discriminate |].
  event_cases ev; try (intros [= <-]; exact Hs).
  - destruct (StartGetWork _ _ _ _) as [| [e' err]]; intros [= <-]; exact Hs.
  - destruct (IsActive _); [| discriminate]. intros [= <-]; exact Hs.
  - unfold AttemptHashes_entry.
    destruct (negb _); [| destruct (_ >? _)]; intros [= <-];
      apply Forall_app; (split; [exact Hs | repeat constructor]).
  - unfold SubmitHashes_entry.
    destruct (negb _); [| destruct (_ >? _)]; intros [= <-];
      apply Forall_app; (split; [exact Hs | repeat constructor]).
  - destruct (calls w !! k) as [c |] eqn:Hk; [| discriminate].
    destruct (call_step clock c (eng w)) as [[c' e'] |] eqn:Hstep; [| discriminate].
    intros [= <-]. unfold slots_once. simpl. apply Forall_insert; [exact Hs |].
    pose proof (Forall_lookup_1 _ _ _ _ Hs Hk) as Hc. simpl in Hc.
    apply call_step_semaphore in Hstep as [[_ Hts] | (ch & pc & _ & _ & _ & Hts & Hnd)];
      rewrite Hts; [exact Hc |].
    apply Forall_app. split; [exact Hc |]. constructor; [| constructor].
    unfold slot_counts. rewrite Hnd. split; reflexivity.
  - destruct (calls w !! k) as [c |] eqn:Hk; [| discriminate].
    destruct (c_tasks c !! t) as [tk |] eqn:Ht; [| discriminate].
    destruct (task_step io tk c (eng w) (outbox w)) as [[| [[[tk' c'] e'] out']] |] eqn:Hstep;
      [| | discriminate].
    + intros [= <-]. exact Hs.
    + intros [= <-]. unfold slots_once. simpl. apply Forall_insert; [exact Hs |].
      simpl. pose proof (Forall_lookup_1 _ _ _ _ Hs Hk) as Hc. simpl in Hc.
      apply task_step_semaphore in Hstep as (Hts & _ & _ & _ & Hnd & Hacq & Hcase).
      rewrite Hts. apply Forall_insert; [exact Hc |].
      pose proof (Forall_lookup_1 _ _ _ _ Hc Ht) as [Ha Hr].
      rewrite Hnd in Hr. unfold slot_counts. rewrite Hacq.
      destruct Hcase as [(_ & -> & ->) | (_ & -> & -> & _)]; split; auto;
        rewrite Hr; reflexivity.
Qed.

Lemma run_slots_once (tr : list event) :
  forall (w w' : world), slots_once w -> run tr w = Some w' -> slots_once w'.
Proof.
  induction tr as [| ev tr IH]; intros w w' Hs Hrun; simpl in *.
  - injection Hrun as <-. exact Hs.
  - destruct (step ev w) as [w1 |] eqn:Hstep; [| discriminate].
    eapply IH; [| exact Hrun]. eapply step_slots_once; eassumption.
Qed.

(** A goroutine that is not at its deferred receive can always move, a step
    brings it closer to its end, and it only ends through the receive. *)
Lemma task_step_progress (io : task_io) (tk : task) (c : call) (e : EPOCH)
    (out : list rpc.SubmitBlock_Params) :
  t_pc tk <> TRelease -> t_pc tk <> TDone ->
  exists r, task_step io tk c e out = Some r.
Proof.
  intros Hr Hd. unfold task_step. destruct (t_pc tk); try (eexists; reflexivity);
    try contradiction.
  - destruct (powHash _ _) as [| r]; [eexists; reflexivity |].
    destruct (ph_err r); eexists; reflexivity.
  - destruct (submitBlock _ _ _ _ _ _) as [[valid err] msg].
    destruct err; [eexists; reflexivity |]. destruct (c_kind c); eexists; reflexivity.
Qed.

Lemma task_step_decreases (io : task_io) (tk tk' : task) (c c' : call) (e e' : EPOCH)
    (out out' : list rpc.SubmitBlock_Params) :
  task_step io tk c e out = Some (Ret (tk', c', e', out')) ->
  (steps_left (t_pc tk') < steps_left (t_pc tk))%nat /\
  (t_pc tk' = TDone -> t_pc tk = TRelease).
Proof.
  unfold task_step. destruct (t_pc tk) eqn:Hpc.
  - destruct (powHash _ _) as [| r]; [discriminate |].
    destruct (ph_err r); step_result; simpl; (split; [lia | discriminate]).
  - destruct (submitBlock _ _ _ _ _ _) as [[valid err] msg].
    destruct err; [step_result; simpl; (split; [lia | discriminate]) |].
    destruct (c_kind c); [destruct valid |];
      step_result; simpl; (split; [lia | discriminate]).
  - step_result; simpl; (split; [lia | discriminate]).
  - step_result; simpl; (split; [lia | discriminate]).
  - destruct (match t_ret tk with Some (v, _) => v | None => false end);
      step_result; simpl; (split; [lia | discriminate]).
  - step_result; simpl; (split; [lia | discriminate]).
  - step_result; simpl; (split; [lia | discriminate]).
  - destruct (release e); [| discriminate].
    step_result; simpl; (split; [lia | reflexivity]).
  - discriminate.
Qed.

End SchedulerFacts.

(** ** Admission control *)

Section AdmissionFacts.
Context {ext : Externals}.

Lemma sem_good_init : sem_good world_init 0.
Proof. unfold sem_good. simpl. split; [reflexivity | lia]. Qed.

Lemma slots_once_init : slots_once world_init.
Proof. constructor. Qed.

(** C1, as the code has it.  Along every schedule from the initial state in
    which no [StartGetWork] connects while goroutines still hold slots of an
    earlier semaphore, and for any number of overlapping [AttemptHashes] and
    [SubmitHashes] calls: the goroutines that hold a slot are exactly the
    elements buffered in the semaphore, their number never exceeds its
    capacity, and that capacity is the worker limit that was configured when
    the last [StartGetWork] connected (a later [SetMaxThreads] does not
    resize it).  For every goroutine exactly one send was made before it
    started, and exactly one receive has been made once it is done, none
    before. *)
Theorem admission_bound (tr : list event) (w : world) :
  quiet_starts tr world_init -> run tr world_init = Some w ->
  0 <= holding w <= limit_at_start tr world_init 0 /\
  sem_good w (limit_at_start tr world_init 0) /\
  slots_once w.
Proof.
  intros Hq Hrun.
  pose proof (run_sem_good tr _ _ 0 sem_good_init Hq Hrun) as Hg.
  pose proof (run_slots_once tr _ _ slots_once_init Hrun) as Hs.
  split; [| split; assumption].
  pose proof (holding_nonneg w). unfold sem_good in Hg.
  destruct (semaphore (eng w)) as [ch |]; lia.
Qed.

(** While no [SetMaxThreads] follows, the capacity set by a connecting
    [StartGetWork] is the worker limit itself. *)
Lemma StartGetWork_sizes_semaphore (addr endpoint : string) (dial : option nat)
    (e e' : EPOCH) :
  StartGetWork addr endpoint dial e = Ret (e', None) ->
  semaphore e' = Some {| chan_cap := GetMaxThreads e'; chan_len := 0 |}.
Proof.
  intros H. apply StartGetWork_cases in H as (_ & Hmt & _ & _ & _ & _ & Hsem & _).
  unfold GetMaxThreads. rewrite Hmt. exact Hsem.
Qed.

(** [SetMaxThreads] leaves the semaphore alone. *)
Lemma SetMaxThreads_keeps_semaphore (i : Z) (e : EPOCH) :
  semaphore (SetMaxThreads i e) = semaphore e.
Proof. reflexivity. Qed.

End AdmissionFacts.

(** C1 as stated fails: with two goroutines of one
    [AttemptHashes 2] holding the two slots of a semaphore made for a worker
    limit of 2, [SetMaxThreads 1] leaves two goroutines in flight under a
    configured limit of 1.  No connection is restarted on the way. *)
Lemma in_flight_exceeds_lowered_limit :
  exists w, run (ext := demo) lowered_limit_schedule demo_init = Some w /\
    quiet_starts (ext := demo) lowered_limit_schedule demo_init /\
    holding w = 2 /\ GetMaxThreads (eng w) = 1 /\
    ~ holding w <= GetMaxThreads (eng w).
Proof.
  eexists. split; [vm_compute; reflexivity |]. split.
  - vm_compute. repeat split; discriminate.
  - split; [vm_compute; reflexivity |]. split; [vm_compute; reflexivity |].
    vm_compute. intros H. apply H. reflexivity.
Qed.

(** What the hypothesis on restarts keeps out: a connection restarted under a
    running batch gets a fresh, empty semaphore, and the goroutines of both
    batches run together, four of them under a capacity of 2. *)
Lemma restart_under_running_batch :
  exists w ch, run (ext := demo) restart_schedule demo_init = Some w /\
    semaphore (eng w) = Some ch /\ chan_cap ch = 2 /\ holding w = 4.
Proof.
  do 2 eexists. split; [vm_compute; reflexivity |].
  split; [vm_compute; reflexivity |]. split; vm_compute; reflexivity.
Qed.

Lemma admission_bound_witness :
  exists w, run (ext := demo) two_in_flight_schedule demo_init = Some w /\
    quiet_starts (ext := demo) two_in_flight_schedule demo_init /\
    0 <= holding w <= 2 /\ slots_once w.
Proof.
  eexists. split; [vm_compute; reflexivity |].
  assert (quiet_starts (ext := demo) two_in_flight_schedule demo_init) as Hq.
  { vm_compute. repeat split; discriminate. }
  split; [exact Hq |].
  destruct (admission_bound (ext := demo) two_in_flight_schedule _ Hq
              ltac:(vm_compute; reflexivity)) as (Hb & _ & Hs).
  split; [exact Hb | exact Hs].
Defined.

(** ** The ceiling has no lower bound *)

Section CeilingFacts.
Context {ext : Externals}.

(** A returned activation makes no further step, and a rejected one has no
    goroutine. *)
Lemma returned_call_is_final (clock : Z) (c : call) (e : EPOCH) (err : option error) :
  c_pc c = CReturned err -> call_step clock c e = None.
Proof. intros H. unfold call_step. rewrite H. reflexivity. Qed.

Lemma negative_ceiling_rejects_attempt (n : Z) (e : EPOCH) :
  IsActive e = true -> GetMaxHashes e < 0 -> 0 <= n ->
  AttemptHashes_entry n e
  = (new_call (Attempt n) (CReturned (Some (ErrHashesExceedMax n (GetMaxHashes e)))), e).
Proof.
  intros Hact Hneg Hn. unfold AttemptHashes_entry. rewrite Hact. simpl.
  destruct (Z.gtb_spec n (GetMaxHashes e)); [reflexivity | lia].
Qed.

Lemma negative_ceiling_rejects_submit (params : list Submit_Params) (e : EPOCH) :
  IsActive e = true -> GetMaxHashes e < 0 ->
  SubmitHashes_entry params e
  = (new_call (Submit params)
       (CReturned (Some (ErrSubmissionExceedsMax (GetMaxHashes e)
                           (Z.of_nat (length params))))), e).
Proof.
  intros Hact Hneg. unfold SubmitHashes_entry. rewrite Hact. simpl.
  destruct (Z.gtb_spec (Z.of_nat (length params)) (GetMaxHashes e)); [reflexivity | lia].
Qed.

Lemma step_SetMaxHashes (i : Z) (w : world) :
  crashed w = false ->
  step (EvSetMaxHashes i) w = Some (set_eng (SetMaxHashes i (eng w)).1 w).
Proof. intros Hc. unfold step. rewrite Hc. reflexivity. Qed.

Lemma step_AttemptHashes (n : Z) (w : world) :
  crashed w = false ->
  step (EvAttemptHashes n) w
  = Some (set_calls (calls w ++ [(AttemptHashes_entry n (eng w)).1])
            (set_eng (AttemptHashes_entry n (eng w)).2 w)).
Proof.
  intros Hc. unfold step. rewrite Hc.
  destruct (AttemptHashes_entry n (eng w)). reflexivity.
Qed.

Lemma step_SubmitHashes (params : list Submit_Params) (w : world) :
  crashed w = false ->
  step (EvSubmitHashes params) w
  = Some (set_calls (calls w ++ [(SubmitHashes_entry params (eng w)).1])
            (set_eng (SubmitHashes_entry params (eng w)).2 w)).
Proof.
  intros Hc. unfold step. rewrite Hc.
  destruct (SubmitHashes_entry params (eng w)). reflexivity.
Qed.

(** C9.  [SetMaxHashes] accepts every value up to [LIMIT_MAX_HASHES], zero
    and negative ones included, without error and stores it as given.  After
    [SetMaxHashes i] with a negative [i], on an active connection, every
    [AttemptHashes n] with [n >= 0] and every [SubmitHashes params], the
    empty list included, returns the capacity error at once: the engine is
    left as [SetMaxHashes] left it and the activation has no goroutine. *)
Theorem SetMaxHashes_no_lower_bound (i n : Z) (params : list Submit_Params) (w : world) :
  (i <= LIMIT_MAX_HASHES ->
   (SetMaxHashes i (eng w)).2 = None /\ GetMaxHashes (SetMaxHashes i (eng w)).1 = i) /\
  (i < 0 -> 0 <= n -> crashed w = false -> IsActive (eng w) = true ->
   let w1 := set_eng (SetMaxHashes i (eng w)).1 w in
   let rejected_attempt :=
     new_call (Attempt n) (CReturned (Some (ErrHashesExceedMax n i))) in
   let rejected_submit :=
     new_call (Submit params)
       (CReturned (Some (ErrSubmissionExceedsMax i (Z.of_nat (length params))))) in
   run [EvSetMaxHashes i; EvAttemptHashes n] w
     = Some (set_calls (calls w ++ [rejected_attempt]) w1) /\
   run [EvSetMaxHashes i; EvSubmitHashes params] w
     = Some (set_calls (calls w ++ [rejected_submit]) w1) /\
   c_tasks rejected_attempt = [] /\ c_tasks rejected_submit = [] /\
   run [EvSetMaxHashes i; EvSubmitHashes []] w
     = Some (set_calls
               (calls w ++ [new_call (Submit [])
                              (CReturned (Some (ErrSubmissionExceedsMax i 0)))]) w1)).
Proof.
  split.
  - intros Hi. unfold SetMaxHashes. destruct (Z.gtb_spec i LIMIT_MAX_HASHES); [lia |].
    split; reflexivity.
  - intros Hneg Hn Hc Hact. simpl.
    assert ((SetMaxHashes i (eng w)).1 = set_maxHashes i (eng w)) as Hset.
    { unfold SetMaxHashes, LIMIT_MAX_HASHES.
      destruct (Z.gtb_spec i 10000); [lia | reflexivity]. }
    cbn [run]. rewrite step_SetMaxHashes by exact Hc.
    rewrite step_AttemptHashes, !step_SubmitHashes by exact Hc.
    cbn [eng set_eng]. rewrite Hset.
    rewrite negative_ceiling_rejects_attempt by (try exact Hact; simpl; lia).
    rewrite !negative_ceiling_rejects_submit by (try exact Hact; simpl; lia).
    repeat split; reflexivity.
Qed.

End CeilingFacts.

Lemma SetMaxHashes_no_lower_bound_witness :
  exists w, run (ext := demo) [demo_start] demo_init = Some w /\
    (SetMaxHashes (-5) (eng w)).2 = None /\
    GetMaxHashes (SetMaxHashes (-5) (eng w)).1 = -5 /\
    run (ext := demo) [EvSetMaxHashes (-5); EvAttemptHashes 0] w
    = Some (set_calls
              [new_call (Attempt 0) (CReturned (Some (ErrHashesExceedMax 0 (-5))))]
              (set_eng (SetMaxHashes (-5) (eng w)).1 w)).
Proof.
  eexists. split; [vm_compute; reflexivity |].
  match goal with
  | |- (SetMaxHashes _ (eng ?w)).2 = None /\ _ =>
      destruct (SetMaxHashes_no_lower_bound (ext := demo) (-5) 0 [] w) as [H1 H2]
  end.
  destruct H1 as [Ha Hb]; [vm_compute; discriminate |].
  destruct H2 as (Hc & _); [lia | lia | reflexivity | reflexivity |].
  split; [exact Ha |]. split; [exact Hb |]. exact Hc.
Defined.

(** ** Invariants of every reachable state *)

Section InvariantFacts.
Context {ext : Externals}.

Lemma eng_ok_init : eng_ok init.
Proof.
  unfold eng_ok, init, int_range, LIMIT_MAX_HASHES. simpl.
  split; [lia |]. split; [lia |]. split; [lia | reflexivity].
Qed.

Lemma winv_init : winv world_init.
Proof. split; [apply eng_ok_init | constructor]. Qed.

Lemma task_wf_mono (k : call_kind) (b b' : Z) (t : task) :
  b <= b' -> task_wf k b t -> task_wf k b' t.
Proof.
  intros Hb. unfold task_wf. destruct (t_pc t); auto.
  intros (? & ? & ?). repeat split; auto; lia.
Qed.

Lemma stored_tasks_app_new (ts : list task) (pc : task_pc) :
  stored_tasks (ts ++ [new_task pc]) = stored_tasks ts.
Proof.
  unfold stored_tasks, count_tasks. rewrite sumZ_app. simpl. lia.
Qed.

Lemma stored_tasks_bound (ts : list task) :
  0 <= stored_tasks ts <= Z.of_nat (length ts).
Proof. apply count_tasks_bounds. Qed.

(** The entry of either dispatcher gives an activation in order. *)
Lemma AttemptHashes_entry_ok (n : Z) (e : EPOCH) :
  eng_ok e ->
  call_ok (AttemptHashes_entry n e).1 /\ eng_ok (AttemptHashes_entry n e).2.
Proof.
  intros He. pose proof He as (Hmax & _). unfold AttemptHashes_entry.
  destruct (negb (IsActive e)); [split; [split; reflexivity | exact He] |].
  unfold GetMaxHashes. destruct (Z.gtb_spec n (maxHashes e));
    [split; [split; reflexivity | exact He] |].
  split; [| exact He]. unfold call_ok. simpl.
  split; [constructor |]. split; [discriminate |].
  repeat split; try lia. discriminate.
Qed.

Lemma SubmitHashes_entry_ok (params : list Submit_Params) (e : EPOCH) :
  eng_ok e ->
  call_ok (SubmitHashes_entry params e).1 /\ eng_ok (SubmitHashes_entry params e).2.
Proof.
  intros He. pose proof He as (Hmax & _). unfold SubmitHashes_entry.
  destruct (negb (IsActive e)); [split; [split; reflexivity | exact He] |].
  unfold GetMaxHashes. destruct (Z.gtb_spec (Z.of_nat (length params)) (maxHashes e));
    [split; [split; reflexivity | exact He] |].
  split; [| exact He]. unfold call_ok. simpl.
  split; [constructor |]. split; [discriminate |].
  unfold stored_tasks, count_tasks. simpl.
  repeat split; try lia. discriminate.
Qed.


Lemma loop_cond_attempt (c : call) (n : Z) :
  c_kind c = Attempt n -> loop_cond c = true -> c_i c < n.
Proof. unfold loop_cond. intros ->. apply Z.ltb_lt. Qed.

Lemma loop_cond_submit (c : call) (params : list Submit_Params) :
  c_kind c = Submit params -> loop_cond c = true -> (c_next c < length params)%nat.
Proof. unfold loop_cond. intros ->. apply bool_decide_eq_true_1. Qed.

Lemma finish_eng_ok (clock : Z) (c : call) (e : EPOCH) :
  eng_ok e -> eng_ok (finish clock c e).2.
Proof.
  intros (Hmax & Hmb & Hh & Hv). unfold finish, eng_ok.
  destruct (c_kind c); simpl;
    (split; [exact Hmax |]); (split; [apply wrap_int_range |]);
    (split; [| exact Hv]); first [apply wrap_uint64_range | exact Hh].
Qed.

(** A step of the caller keeps the activation and the engine in order. *)
Lemma call_step_ok (clock : Z) (c c' : call) (e e' : EPOCH) :
  eng_ok e -> call_ok c -> call_step clock c e = Some (c', e') ->
  call_ok c' /\ eng_ok e'.
Proof.
  intros He Hc. unfold call_step. destruct (c_pc c) eqn:Hpc.
  - unfold call_ok in Hc. rewrite Hpc in Hc. destruct Hc as (Hts & _ & Hk).
    destruct (loop_cond c) eqn:Hcond; [destruct (res_Error (c_result c)) |];
      intros [= <- <-]; (split; [| exact He]); unfold call_ok; simpl;
      (split; [exact Hts |]); (split; [discriminate |]);
      destruct (c_kind c) as [n | params] eqn:Hkind;
      try (pose proof (loop_cond_attempt c n Hkind Hcond));
      try (pose proof (loop_cond_submit c params Hkind Hcond));
      intuition (try discriminate; auto).
  - unfold call_ok in Hc. rewrite Hpc in Hc. destruct Hc as (Hts & _ & Hk).
    destruct (acquire e) as [e1 |] eqn:Hacq; [| discriminate].
    apply acquire_spec in Hacq as (ch & Hch & Hlt & ->).
    assert (eng_ok (set_semaphore
                      (Some {| chan_cap := chan_cap ch; chan_len := chan_len ch + 1 |}) e))
      as He' by exact He.
    destruct (c_kind c) as [n | params] eqn:Hkind.
    + intros [= <- <-]. split; [| exact He'].
      destruct Hk as (Hn & Hi & Hlen & Hlt'). specialize (Hlt' eq_refl).
      unfold LIMIT_MAX_HASHES in *.
      assert (wrap_int (c_i c + 1) = c_i c + 1) as Hw
        by (apply wrap_int_id; unfold int_range; lia).
      unfold call_ok. simpl. rewrite Hkind, Hw, stored_tasks_app_new, length_app. simpl.
      split.
      { apply Forall_app. split; [exact Hts |]. constructor; [| constructor].
        split; [reflexivity | intros []]. }
      split; [discriminate |]. repeat split; first [discriminate | unfold LIMIT_MAX_HASHES in *; lia].
    + destruct (params !! c_next c) as [p |] eqn:Hp; [| discriminate].
      intros [= <- <-]. split; [| exact He'].
      destruct Hk as (Hn & Hnext & Hlen & Hi & Hone & Hlt'). specialize (Hlt' eq_refl).
      unfold call_ok. simpl. rewrite Hkind, stored_tasks_app_new, length_app. simpl.
      split.
      { apply Forall_app. split; [exact Hts |]. constructor; [| constructor].
        exact I. }
      split; [discriminate |]. repeat split; first [discriminate | unfold LIMIT_MAX_HASHES in *; lia].
  - destruct (forallb task_done (c_tasks c)) eqn:Hdone; [| discriminate].
    intros [= <- <-]. split; [| apply (finish_eng_ok clock c e He)].
    unfold call_ok in Hc. rewrite Hpc in Hc. destruct Hc as (Hts & _ & Hk).
    unfold call_ok, finish. simpl.
    split; [exact Hts |].
    assert (wrap_uint64 (c_i c) = c_i c) as Hw.
    { apply wrap_uint64_id. pose proof (stored_tasks_bound (c_tasks c)).
      unfold LIMIT_MAX_HASHES in *.
      destruct (c_kind c); [| destruct Hk as (? & ? & ? & ? & _)]; lia. }
    split; [intros _; split; [exact Hw | exact Hdone] |].
    destruct (c_kind c); intuition discriminate.
  - discriminate.
Qed.

Lemma forallb_lookup {A : Type} (f : A -> bool) (l : list A) (i : nat) (x : A) :
  forallb f l = true -> l !! i = Some x -> f x = true.
Proof.
  revert i. induction l as [| a l IH]; intros [| i]; simpl; try discriminate.
  - intros [Ha _]%andb_prop [= <-]. exact Ha.
  - intros [_ Hl]%andb_prop. apply IH. exact Hl.
Qed.

(** A step of a goroutine against the bookkeeping of its activation: the
    number of goroutines that have written [i] grows by one exactly at the
    write of [i++], where [i] becomes the value read plus one. *)
Lemma task_step_wf (io : task_io) (tk tk' : task) (c c' : call) (e e' : EPOCH)
    (out out' : list rpc.SubmitBlock_Params) (S : Z) :
  task_wf (c_kind c) S tk ->
  (is_submit (c_kind c) -> 0 <= c_i c <= S) ->
  task_step io tk c e out = Some (Ret (tk', c', e', out')) ->
  let d := (if stored tk' then 1 else 0) - (if stored tk then 1 else 0) in
  0 <= d <= 1 /\ task_wf (c_kind c) (S + d) tk' /\
  match c_kind c with
  | Attempt _ => c_i c' = c_i c
  | Submit _ =>
      (d = 0 /\ c_i c' = c_i c) \/
      (d = 1 /\ exists tmp, 0 <= tmp <= S /\ c_i c' = wrap_int (tmp + 1))
  end.
Proof.
  intros Hwf Hi. unfold task_step. unfold task_wf in Hwf.
  destruct (t_pc tk) eqn:Hpc.
  - destruct (powHash _ _) as [| r]; [discriminate |].
    destruct (ph_err r); wf_case tk c Hpc.
  - destruct (submitBlock _ _ _ _ _ _) as [[valid err] msg].
    destruct err as [x |]; [wf_case tk c Hpc |].
    destruct (c_kind c) eqn:Hkind; [destruct valid |]; wf_case tk c Hpc.
  - wf_case tk c Hpc.
  - wf_case tk c Hpc.
  - destruct (match t_ret tk with Some (v, _) => v | None => false end);
      wf_case tk c Hpc;
      right; (split; [lia |]); exists tmp; (split; [lia | reflexivity]).
  - wf_case tk c Hpc.
  - wf_case tk c Hpc.
  - destruct (release e); [| discriminate]. wf_case tk c Hpc.
  - discriminate.
Qed.

(** A step of a goroutine keeps its activation in order. *)
Lemma task_step_ok (io : task_io) (t : nat) (tk tk' : task) (c c' : call) (e e' : EPOCH)
    (out out' : list rpc.SubmitBlock_Params) :
  call_ok c -> c_tasks c !! t = Some tk ->
  task_step io tk c e out = Some (Ret (tk', c', e', out')) ->
  call_ok (set_c_tasks (<[t := tk']> (c_tasks c')) c').
Proof.
  intros Hc Ht Hstep.
  pose proof (task_step_semaphore _ _ _ _ _ _ _ _ _ Hstep)
    as (Hts & Hkind & Hpc & Hnext & Hnd & _ & _).
  assert (c_pc c = CLoop \/ c_pc c = CAcquire \/ c_pc c = CWait) as Hrun.
  { unfold call_ok in Hc. destruct (c_pc c) as [| | | [err |]]; auto.
    - destruct Hc as [Hnil _]. rewrite Hnil in Ht. discriminate.
    - destruct Hc as (_ & Hret & _). destruct (Hret eq_refl) as [_ Hdone].
      rewrite (forallb_lookup _ _ _ _ Hdone Ht) in Hnd. discriminate. }
  assert (call_ok c = (Forall (task_wf (c_kind c) (stored_tasks (c_tasks c))) (c_tasks c) /\
    (c_pc c = CReturned None ->
     res_Hashes (c_result c) = c_i c /\ forallb task_done (c_tasks c) = true) /\
    match c_kind c with
    | Attempt n =>
        n <= LIMIT_MAX_HASHES /\ 0 <= c_i c <= Z.max n 0 /\
        Z.of_nat (length (c_tasks c)) = c_i c /\
        (c_pc c = CAcquire -> c_i c < n)
    | Submit params =>
        Z.of_nat (length params) <= LIMIT_MAX_HASHES /\
        (c_next c <= length params)%nat /\ length (c_tasks c) = c_next c /\
        0 <= c_i c <= stored_tasks (c_tasks c) /\
        (1 <= stored_tasks (c_tasks c) -> 1 <= c_i c) /\
        (c_pc c = CAcquire -> (c_next c < length params)%nat)
    end)) as Hunf.
  { unfold call_ok. destruct Hrun as [-> | [-> | ->]]; reflexivity. }
  rewrite Hunf in Hc. destruct Hc as (Hwf & _ & Hk).
  assert (is_submit (c_kind c) -> 0 <= c_i c <= stored_tasks (c_tasks c)) as Hi.
  { destruct (c_kind c); [intros [] | intros _; apply Hk]. }
  pose proof (task_step_wf _ _ _ _ _ _ _ _ _ _ (Forall_lookup_1 _ _ _ _ Hwf Ht) Hi Hstep)
    as (Hd & Hwf' & Hci).
  assert (stored_tasks (<[t := tk']> (c_tasks c))
          = stored_tasks (c_tasks c)
            + ((if stored tk' then 1 else 0) - (if stored tk then 1 else 0))) as HS.
  { unfold stored_tasks, count_tasks. rewrite (sumZ_insert _ _ _ _ _ Ht). lia. }
  pose proof (stored_tasks_bound (c_tasks c)) as HSb.
  unfold call_ok. simpl. rewrite Hpc, Hkind, Hts, HS, length_insert.
  assert (forall P : Prop, (c_pc c = CReturned None -> P)) as Hnr.
  { intros P H. rewrite H in Hrun. destruct Hrun as [? | [? | ?]]; discriminate. }
  assert (Forall (task_wf (c_kind c)
            (stored_tasks (c_tasks c)
             + ((if stored tk' then 1 else 0) - (if stored tk then 1 else 0))))
            (<[t := tk']> (c_tasks c))) as Hwf''.
  { apply Forall_insert; [| exact Hwf'].
    eapply Forall_impl; [exact Hwf |]. intros x. apply task_wf_mono. lia. }
  destruct Hrun as [Hp | [Hp | Hp]]; rewrite Hp in *;
    (split; [exact Hwf'' |]); (split; [discriminate |]);
    destruct (c_kind c) as [n | params]; try rewrite Hci; try rewrite Hnext;
    try exact Hk.
  all: destruct Hk as (Hn & Hnx & Hlen & Hrange & Hone & Hacq).
  all: destruct Hci as [[Hd0 ->] | (Hd1 & tmp & Htmp & ->)];
    [rewrite Hd0, Z.add_0_r; repeat split; auto; lia |].
  all: rewrite Hd1; unfold LIMIT_MAX_HASHES in *;
    rewrite wrap_int_id by (unfold int_range; lia);
    repeat split; auto; lia.
Qed.

(** Every step keeps the invariant. *)
Lemma step_winv (ev : event) (w w' : world) :
  winv w -> step ev w = Some w' -> winv w'.
Proof.
  intros [He Hcs]. unfold step. destruct (crashed w); [discriminate |].
  event_cases ev.
  - intros [= <-]. split; [exact He | exact Hcs].
  - intros [= <-]. split; [| exact Hcs]. simpl.
    pose proof (SetMaxHashes_below_limit i (eng w)) as Hb. unfold GetMaxHashes in Hb.
    destruct He as (Hmax & Hrest). split; [apply Hb; exact Hmax |].
    unfold SetMaxHashes. destruct (_ >? _); exact Hrest.
  - intros [= <-]. split; [| exact Hcs]. simpl.
    unfold SetAddress. destruct (ParseValidateAddress a); exact He.
  - intros [= <-]. split; [| exact Hcs]. simpl.
    unfold SetPort. destruct (_ || _); exact He.
  - destruct (StartGetWork _ _ _ _) as [| [e' err]] eqn:Hs; intros [= <-];
      [split; [exact He | exact Hcs] |].
    split; [| exact Hcs]. simpl.
    apply StartGetWork_cases in Hs as (Hmh & _ & Hv & Hs).
    destruct He as (Hmax & Hmb & Hh & Hver). unfold eng_ok.
    rewrite Hmh, Hv. destruct err as [err |].
    + destruct Hs as [_ ->]. auto.
    + destruct Hs as (_ & _ & _ & _ & -> & ->). unfold int_range. repeat split; auto; lia.
  - intros [= <-]. split; [| exact Hcs]. simpl.
    unfold StopGetWork. destruct (IsActive _); exact He.
  - destruct (IsActive _); [| discriminate]. intros [= <-]. split; [exact He | exact Hcs].
  - pose proof (AttemptHashes_entry_ok n (eng w) He) as [Hc He'].
    destruct (AttemptHashes_entry n (eng w)) as [c e']. intros [= <-].
    split; [exact He' |]. simpl. apply Forall_app. split; [exact Hcs |].
    constructor; [exact Hc | constructor].
  - pose proof (SubmitHashes_entry_ok params (eng w) He) as [Hc He'].
    destruct (SubmitHashes_entry params (eng w)) as [c e']. intros [= <-].
    split; [exact He' |]. simpl. apply Forall_app. split; [exact Hcs |].
    constructor; [exact Hc | constructor].
  - destruct (calls w !! k) as [c |] eqn:Hk; [| discriminate].
    destruct (call_step clock c (eng w)) as [[c' e'] |] eqn:Hstep; [| discriminate].
    intros [= <-].
    destruct (call_step_ok _ _ _ _ _ He (Forall_lookup_1 _ _ _ _ Hcs Hk) Hstep) as [Hc' He'].
    split; [exact He' |]. simpl. apply Forall_insert; assumption.
  - destruct (calls w !! k) as [c |] eqn:Hk; [| discriminate].
    destruct (c_tasks c !! t) as [tk |] eqn:Ht; [| discriminate].
    destruct (task_step io tk c (eng w) (outbox w)) as [[| [[[tk' c'] e'] out']] |] eqn:Hstep;
      [| | discriminate].
    + intros [= <-]. split; [exact He | exact Hcs].
    + intros [= <-]. split.
      * simpl. apply task_step_semaphore in Hstep as (_ & _ & _ & _ & _ & _ & Hcase).
        destruct Hcase as [(-> & _) | (_ & _ & _ & _ & _ & ch & _ & _ & ->)]; exact He.
      * simpl. apply Forall_insert; [exact Hcs |].
        eapply task_step_ok; [exact (Forall_lookup_1 _ _ _ _ Hcs Hk) | exact Ht | exact Hstep].
Qed.

Lemma run_winv (tr : list event) :
  forall (w w' : world), winv w -> run tr w = Some w' -> winv w'.
Proof.
  induction tr as [| ev tr IH]; intros w w' Hw Hrun; simpl in *.
  - injection Hrun as <-. exact Hw.
  - destruct (step ev w) as [w1 |] eqn:Hstep; [| discriminate].
    eapply IH; [| exact Hrun]. eapply step_winv; eassumption.
Qed.

Lemma reachable_winv (w : world) : reachable w -> winv w.
Proof. intros [tr Hrun]. exact (run_winv tr _ _ winv_init Hrun). Qed.

Lemma reachable_step (ev : event) (w w' : world) :
  reachable w -> step ev w = Some w' -> reachable w'.
Proof.
  intros [tr Hrun] Hstep. exists (tr ++ [ev]).
  revert Hrun. generalize world_init. induction tr as [| x tr IH]; intros w0; simpl.
  - intros [= ->]. rewrite Hstep. reflexivity.
  - destruct (step x w0); [apply IH | discriminate].
Qed.

Lemma reachable_run (tr : list event) :
  forall (w w' : world), reachable w -> run tr w = Some w' -> reachable w'.
Proof.
  induction tr as [| ev tr IH]; intros w w' Hw Hrun; simpl in *.
  - injection Hrun as <-. exact Hw.
  - destruct (step ev w) as [w1 |] eqn:Hstep; [| discriminate].
    eapply IH; [| exact Hrun]. eapply reachable_step; eassumption.
Qed.
End InvariantFacts.

(** ** The session and the version tag *)

Section SessionFacts.
Context {ext : Externals}.

Lemma GetSession_Version (polls : list EPOCH) :
  Forall (fun e => Version (session e) = "") polls ->
  Version (GetSession polls).1 = "".
Proof.
  induction 1 as [| e polls He _ IH]; simpl; [reflexivity |].
  destruct (negb (IsProcessing e)); [exact He | exact IH].
Qed.

(** C10.  No operation assigns the [Version] field of the session: in every
    state reachable from the initial one it is the empty string, a
    [StartGetWork] that connects resets the two counters and leaves it
    empty, and [GetSession] and [GetSessionEPOCH] return a result whose
    [Version] is empty, whatever reachable states their polls observe and
    whether they succeed, time out or find the engine inactive. *)
Theorem Version_never_assigned (w : world) (polls : list world) :
  reachable w -> Forall reachable polls ->
  Version (session (eng w)) = "" /\
  Version (GetSession (eng <$> polls)).1 = "" /\
  Version (GetSessionEPOCH (eng w) (eng <$> polls)).1 = "" /\
  (forall addr endpoint dial e',
     StartGetWork addr endpoint dial (eng w) = Ret (e', None) ->
     Version (session e') = "" /\ Hashes (session e') = 0 /\ MiniBlocks (session e') = 0).
Proof.
  intros Hw Hpolls.
  pose proof (reachable_winv w Hw) as [(_ & _ & _ & Hv) _].
  assert (Version (GetSession (eng <$> polls)).1 = "") as Hg.
  { apply GetSession_Version. apply Forall_fmap.
    eapply Forall_impl; [exact Hpolls |]. intros w1 Hw1. simpl.
    apply (reachable_winv w1 Hw1). }
  split; [exact Hv |]. split; [exact Hg |]. split.
  - unfold GetSessionEPOCH. destruct (negb (IsActive (eng w))); [reflexivity | exact Hg].
  - intros addr endpoint dial e' Hs.
    apply StartGetWork_cases in Hs as (_ & _ & Hv' & _ & _ & _ & _ & Hh & Hm).
    rewrite Hv', Hv. auto.
Qed.

End SessionFacts.

Lemma Version_never_assigned_witness :
  exists w, run (ext := demo) lost_update_schedule demo_init = Some w /\
    Version (session (eng w)) = "" /\
    Version (GetSessionEPOCH (eng w) (eng <$> [w])).1 = "".
Proof.
  eexists. split; [vm_compute; reflexivity |].
  match goal with
  | |- Version (session (eng ?w)) = _ /\ _ =>
      assert (reachable (ext := demo) w) as Hw
        by (exists lost_update_schedule; vm_compute; reflexivity);
      destruct (Version_never_assigned (ext := demo) w [w] Hw
                  (Forall_cons_2 _ _ _ Hw (Forall_nil_2 _))) as (Ha & _ & Hb & _)
  end.
  split; [exact Ha | exact Hb].
Defined.

(** ** [SubmitHashes] *)

Section SubmitFacts.
Context {ext : Externals}.

Lemma step_EvCall (k : nat) (clock : Z) (w : world) (c c' : call) (e' : EPOCH) :
  crashed w = false -> calls w !! k = Some c ->
  call_step clock c (eng w) = Some (c', e') ->
  step (EvCall k clock) w = Some (set_calls (<[k := c']> (calls w)) (set_eng e' w)).
Proof. intros Hc Hk Hstep. unfold step. rewrite Hc, Hk, Hstep. reflexivity. Qed.

Lemma set_MiniBlocks_same (s : GetSessionEPOCH_Result) (z : Z) :
  z = MiniBlocks s -> set_MiniBlocks z s = s.
Proof. intros ->. destruct s. reflexivity. Qed.

(** C6, as the code has it.  In every reachable state with an active
    connection and a ceiling that is not negative, [SubmitHashes] of the
    empty list goes through its loop test and its wait without launching
    anything and returns a nil error with [Hashes = 0] and [Submitted = 0];
    the session is what it was and nothing was sent. *)
Theorem SubmitHashes_empty_succeeds (w : world) (clock1 clock2 : Z) :
  reachable w -> crashed w = false -> IsActive (eng w) = true ->
  0 <= GetMaxHashes (eng w) ->
  exists w',
    run [EvSubmitHashes []; EvCall (length (calls w)) clock1;
         EvCall (length (calls w)) clock2] w = Some w' /\
    calls w' !! length (calls w)
    = Some {| c_kind := Submit []; c_pc := CReturned None; c_i := 0; c_next := 0%nat;
              c_result := {| res_Hashes := 0; res_Submitted := 0;
                             res_Duration := clock2; res_Error := None |};
              c_tasks := [] |} /\
    session (eng w') = session (eng w) /\ outbox w' = outbox w /\
    crashed w' = false.
Proof.
  intros Hw Hc Hact Hmax.
  pose proof (reachable_winv w Hw) as [(_ & Hmb & _) _].
  cbn [run]. rewrite step_SubmitHashes by exact Hc.
  unfold SubmitHashes_entry. rewrite Hact. simpl negb. cbv iota. simpl length.
  destruct (Z.gtb_spec (Z.of_nat 0) (GetMaxHashes (eng w))); [simpl in *; lia |].
  cbn [fst snd].
  erewrite step_EvCall; [| exact Hc | apply list_lookup_middle; reflexivity | reflexivity].
  cbn [calls set_calls eng set_eng].
  rewrite insert_app_r_alt, Nat.sub_diag by lia. cbn [insert list_insert].
  erewrite step_EvCall;
    [| exact Hc | apply list_lookup_middle; reflexivity | reflexivity].
  cbn [calls set_calls eng set_eng].
  rewrite insert_app_r_alt, Nat.sub_diag by lia. cbn [insert list_insert].
  eexists. split; [reflexivity |].
  split; [apply list_lookup_middle; reflexivity |].
  split; [| split; [reflexivity | exact Hc]].
  simpl. apply set_MiniBlocks_same. rewrite Z.add_0_r. apply wrap_int_id. exact Hmb.
Qed.

Lemma forallb_done_stored (ts : list task) :
  forallb task_done ts = true -> stored_tasks ts = ok_tasks ts.
Proof.
  intros H. apply count_tasks_all.
  induction ts as [| t ts IH]; [constructor |].
  simpl in H. apply andb_prop in H as [Ht Hts]. constructor; [| exact (IH Hts)].
  unfold stored, task_done in *. destruct (t_pc t); try discriminate.
  apply andb_true_r.
Qed.

Lemma stored_le_ok (ts : list task) : stored_tasks ts <= ok_tasks ts.
Proof.
  apply count_tasks_le. intros t. unfold stored. intros [H _]%andb_prop. exact H.
Qed.

(** A step of activation [k] or of the read loop leaves the session alone
    until the activation returns, and then raises [MiniBlocks] by the
    [Submitted] of the result. *)
Lemma solo_step_session (k : nat) (params : list Submit_Params)
    (s0 : GetSessionEPOCH_Result) (ev : event) (w w' : world) :
  winv w -> own_event k ev -> step ev w = Some w' ->
  session_of_submit k params s0 w -> session_of_submit k params s0 w'.
Proof.
  intros [_ Hcs] Hown Hstep (c & Hk & Hkind & Hs). unfold step in Hstep.
  destruct (crashed w); [discriminate |].
  destruct ev as [| | | | | | | | | k' clock | k' t io]; simpl in Hown; try contradiction.
  - injection Hstep as <-. exists c. simpl. repeat split; auto.
    unfold StopGetWork. destruct (IsActive _); exact Hs.
  - destruct (IsActive _); [| discriminate]. injection Hstep as <-.
    exists c. simpl. repeat split; auto.
  - subst k'. rewrite Hk in Hstep.
    destruct (call_step clock c (eng w)) as [[c' e'] |] eqn:Hcall; [| discriminate].
    injection Hstep as <-. exists c'. simpl.
    split; [apply list_lookup_insert_eq; eapply lookup_lt_Some; exact Hk |].
    unfold call_step in Hcall. destruct (c_pc c) eqn:Hpc.
    + destruct (loop_cond c); [destruct (res_Error _) |]; injection Hcall as <- <-;
        simpl; auto.
    + destruct (acquire (eng w)) as [e1 |] eqn:Hacq; [| discriminate].
      apply acquire_spec in Hacq as (ch & _ & _ & ->). rewrite Hkind in Hcall.
      destruct (params !! c_next c); [| discriminate].
      injection Hcall as <- <-. simpl. auto.
    + destruct (forallb task_done (c_tasks c)); [| discriminate].
      unfold finish in Hcall. rewrite Hkind in Hcall. injection Hcall as <- <-.
      simpl. rewrite Hs. auto.
    + discriminate.
  - subst k'. rewrite Hk in Hstep.
    destruct (c_tasks c !! t) as [tk |] eqn:Ht; [| discriminate].
    destruct (task_step io tk c (eng w) (outbox w)) as [[| [[[tk' c'] e'] out']] |] eqn:Htask;
      [| | discriminate].
    + injection Hstep as <-. exists c. auto.
    + injection Hstep as <-.
      pose proof (task_step_semaphore _ _ _ _ _ _ _ _ _ Htask)
        as (Hts & Hkind' & Hpc' & _ & Hnd & _ & Hcase).
      exists (set_c_tasks (<[t := tk']> (c_tasks c')) c'). simpl.
      split; [apply list_lookup_insert_eq; eapply lookup_lt_Some; exact Hk |].
      split; [congruence |]. rewrite Hpc'.
      assert (session e' = session (eng w)) as ->.
      { destruct Hcase as [(-> & _) | (_ & _ & _ & _ & _ & ch & _ & _ & ->)]; reflexivity. }
      destruct (c_pc c) as [| | | [err |]] eqn:Hpc; try exact Hs.
      pose proof (Forall_lookup_1 _ _ _ _ Hcs Hk) as Hc. unfold call_ok in Hc.
      rewrite Hpc in Hc. destruct Hc as (_ & Hret & _).
      destruct (Hret eq_refl) as [_ Hdone].
      rewrite (forallb_lookup _ _ _ _ Hdone Ht) in Hnd. discriminate.
Qed.

(** What [call_ok] says of an activation one of whose goroutines can move. *)
Lemma call_ok_with_task (c : call) (t : nat) (tk : task) :
  call_ok c -> c_tasks c !! t = Some tk -> task_done tk = false ->
  Forall (task_wf (c_kind c) (stored_tasks (c_tasks c))) (c_tasks c) /\
  (forall params, c_kind c = Submit params ->
     Z.of_nat (length params) <= LIMIT_MAX_HASHES /\
     (length (c_tasks c) <= length params)%nat /\
     0 <= c_i c <= stored_tasks (c_tasks c)).
Proof.
  intros Hc Ht Hnd. unfold call_ok in Hc.
  destruct (c_pc c) as [| | | [err |]].
  4: { destruct Hc as [Hnil _]. rewrite Hnil in Ht. discriminate. }
  4: { destruct Hc as (_ & Hret & _). destruct (Hret eq_refl) as [_ Hdone].
       rewrite (forallb_lookup _ _ _ _ Hdone Ht) in Hnd. discriminate. }
  all: destruct Hc as (Hwf & _ & Hk); (split; [exact Hwf |]);
    intros params Hkind; rewrite Hkind in Hk;
    destruct Hk as (Hn & Hnx & Hlen & Hi & _); repeat split; try lia.
Qed.

(** How a step of a goroutine of [SubmitHashes] bears on [i]: the read, the
    write, or neither. *)
Lemma task_step_counter (io : task_io) (tk tk' : task) (c c' : call) (e e' : EPOCH)
    (out out' : list rpc.SubmitBlock_Params) (S : Z) :
  task_wf (c_kind c) S tk -> is_submit (c_kind c) ->
  task_step io tk c e out = Some (Ret (tk', c', e', out')) ->
  (t_pc tk = TLoadI /\ t_pc tk' = TStoreI (c_i c) /\ c_i c' = c_i c /\
   stored tk' = stored tk) \/
  (exists tmp, t_pc tk = TStoreI tmp /\ c_i c' = wrap_int (tmp + 1) /\
     storing tk' = false /\ stored tk = false /\ stored tk' = true) \/
  (storing tk = false /\ storing tk' = false /\ c_i c' = c_i c /\
   stored tk' = stored tk).
Proof.
  intros Hwf Hsub. unfold task_step. unfold task_wf in Hwf.
  destruct (t_pc tk) eqn:Hpc.
  - destruct (powHash _ _) as [| r]; [discriminate |].
    destruct (ph_err r); step_result; right; right;
      unfold storing, stored; simpl; rewrite Hpc, !andb_false_r; auto.
  - destruct (submitBlock _ _ _ _ _ _) as [[valid err] msg].
    destruct err as [x |].
    + step_result; right; right;
        unfold storing, stored; simpl; rewrite Hpc, !andb_false_r; auto.
    + destruct (c_kind c) eqn:Hkind; [destruct Hsub |].
      step_result; right; right;
        unfold storing, stored; simpl; rewrite Hpc, !andb_false_r; auto.
  - step_result; right; right.
    unfold storing, stored, task_ok in *; simpl; rewrite Hpc.
    destruct (t_ret tk) as [[v [x |]] |]; try discriminate; auto.
  - step_result; left.
    unfold storing, stored; simpl; rewrite Hpc, !andb_false_r; auto.
  - destruct Hwf as (Hok & _ & _).
    destruct (match t_ret tk with Some (v, _) => v | None => false end);
      step_result; right; left; exists tmp;
      unfold storing, stored, task_ok in *; simpl; rewrite Hpc, Hok, !andb_false_r; auto.
  - step_result; right; right;
      unfold storing, stored, task_ok; simpl; rewrite Hpc; auto.
  - step_result; right; right;
      unfold storing, stored, task_ok; simpl; rewrite Hpc; auto.
  - destruct (release e); [| discriminate].
    step_result; right; right;
      unfold storing, stored, task_ok; simpl; rewrite Hpc; auto.
  - discriminate.
Qed.

Lemma call_step_exact (clock : Z) (c c' : call) (e e' : EPOCH) :
  is_submit (c_kind c) -> exact_count c -> call_step clock c e = Some (c', e') ->
  exact_count c'.
Proof.
  intros Hsub [Hi Hall]. unfold call_step. destruct (c_pc c).
  - destruct (loop_cond c); [destruct (res_Error _) |]; intros [= <- <-];
      split; assumption.
  - destruct (acquire e); [| discriminate].
    destruct (c_kind c) as [n | params]; [destruct Hsub |].
    destruct (params !! c_next c) as [p |]; [| discriminate].
    intros [= <- <-]. unfold exact_count. simpl. rewrite stored_tasks_app_new.
    split; [exact Hi |]. apply Forall_app. split; [exact Hall |].
    constructor; [| constructor]. simpl. discriminate.
  - destruct (forallb task_done (c_tasks c)); [| discriminate].
    unfold finish. intros [= <- <-]. split; assumption.
  - discriminate.
Qed.

(** With no other goroutine between its read and its write, a goroutine
    keeps [i] equal to the number of writes. *)
Lemma task_step_exact (io : task_io) (t : nat) (tk tk' : task) (c c' : call) (e e' : EPOCH)
    (out out' : list rpc.SubmitBlock_Params) :
  call_ok c -> is_submit (c_kind c) -> exact_count c ->
  (forall t2 tk2, c_tasks c !! t2 = Some tk2 ->
     storing tk = true -> storing tk2 = true -> t2 = t) ->
  c_tasks c !! t = Some tk ->
  task_step io tk c e out = Some (Ret (tk', c', e', out')) ->
  exact_count (set_c_tasks (<[t := tk']> (c_tasks c')) c').
Proof.
  intros Hc Hsub [Hi Hall] Hno Ht Hstep.
  pose proof (task_step_semaphore _ _ _ _ _ _ _ _ _ Hstep)
    as (Hts & Hkind & _ & _ & Hnd & _ & _).
  destruct (call_ok_with_task c t tk Hc Ht Hnd) as [Hwf Hsubmit].
  destruct (c_kind c) as [n | params] eqn:Hk; [destruct Hsub |].
  destruct (Hsubmit params eq_refl) as (Hlim & Hlen & Hrange).
  pose proof (stored_tasks_bound (c_tasks c)) as HSb.
  assert (stored_tasks (<[t := tk']> (c_tasks c))
          = stored_tasks (c_tasks c)
            + ((if stored tk' then 1 else 0) - (if stored tk then 1 else 0))) as HS.
  { unfold stored_tasks, count_tasks. rewrite (sumZ_insert _ _ _ _ _ Ht). lia. }
  assert (task_wf (c_kind c) (stored_tasks (c_tasks c)) tk) as Hwf_tk
    by (rewrite Hk; exact (Forall_lookup_1 _ _ _ _ Hwf Ht)).
  assert (is_submit (c_kind c)) as Hsub' by (rewrite Hk; exact I).
  unfold exact_count. simpl. rewrite Hts, HS.
  destruct (task_step_counter _ _ _ _ _ _ _ _ _ _ Hwf_tk Hsub' Hstep)
    as [(Hpc & Hpc' & Hci & Hst) | [(tmp & Hpc & Hci & Hns' & Hst & Hst') |
                                       (Hns & Hns' & Hci & Hst)]].
  - rewrite Hci, Hst. split; [destruct (stored tk); lia |].
    apply Forall_insert; [exact Hall |]. intros tmp. rewrite Hpc'. congruence.
  - pose proof (Forall_lookup_1 _ _ _ _ Hall Ht tmp Hpc) as Htmp.
    rewrite Hci, Hst, Hst', Htmp.
    unfold LIMIT_MAX_HASHES in *. rewrite wrap_int_id by (unfold int_range; lia).
    split; [lia |]. apply Forall_lookup_2. intros j x Hj tmp' Hx.
    destruct (decide (j = t)) as [-> | Hne].
    + rewrite list_lookup_insert_eq in Hj by (eapply lookup_lt_Some; exact Ht).
      injection Hj as <-. unfold storing in Hns'. rewrite Hx in Hns'. discriminate.
    + rewrite list_lookup_insert_ne in Hj by auto.
      contradict Hne. apply (Hno j x Hj); unfold storing; [rewrite Hpc | rewrite Hx];
        reflexivity.
  - rewrite Hci, Hst. split; [destruct (stored tk); lia |].
    apply Forall_insert; [exact Hall |]. intros tmp Hx.
    unfold storing in Hns'. rewrite Hx in Hns'. discriminate.
Qed.

Lemma solo_step_exact (k : nat) (params : list Submit_Params) (ev : event) (w w' : world) :
  winv w -> own_event k ev -> no_overlap k w -> step ev w = Some w' ->
  (exists c, calls w !! k = Some c /\ c_kind c = Submit params /\ exact_count c) ->
  exists c', calls w' !! k = Some c' /\ c_kind c' = Submit params /\ exact_count c'.
Proof.
  intros [_ Hcs] Hown Hno Hstep (c & Hk & Hkind & Hex). unfold step in Hstep.
  destruct (crashed w); [discriminate |].
  assert (is_submit (c_kind c)) as Hsub by (rewrite Hkind; exact I).
  destruct ev as [| | | | | | | | | k' clock | k' t io]; simpl in Hown; try contradiction.
  - injection Hstep as <-. exists c. auto.
  - destruct (IsActive _); [| discriminate]. injection Hstep as <-. exists c. auto.
  - subst k'. rewrite Hk in Hstep.
    destruct (call_step clock c (eng w)) as [[c' e'] |] eqn:Hcall; [| discriminate].
    injection Hstep as <-. exists c'. simpl.
    split; [apply list_lookup_insert_eq; eapply lookup_lt_Some; exact Hk |].
    split; [| eapply call_step_exact; eassumption].
    apply call_step_semaphore in Hcall as Hsem.
    unfold call_step in Hcall. destruct (c_pc c).
    + destruct (loop_cond c); [destruct (res_Error _) |]; injection Hcall as <- <-;
        exact Hkind.
    + destruct (acquire (eng w)); [| discriminate]. rewrite Hkind in Hcall.
      destruct (params !! c_next c); [| discriminate]. injection Hcall as <- <-.
      exact Hkind.
    + destruct (forallb task_done (c_tasks c)); [| discriminate].
      unfold finish in Hcall. injection Hcall as <- <-. exact Hkind.
    + discriminate.
  - subst k'. rewrite Hk in Hstep.
    destruct (c_tasks c !! t) as [tk |] eqn:Ht; [| discriminate].
    destruct (task_step io tk c (eng w) (outbox w)) as [[| [[[tk' c'] e'] out']] |] eqn:Htask;
      [| | discriminate].
    + injection Hstep as <-. exists c. auto.
    + injection Hstep as <-.
      pose proof (task_step_semaphore _ _ _ _ _ _ _ _ _ Htask) as (_ & Hkind' & _).
      exists (set_c_tasks (<[t := tk']> (c_tasks c')) c'). simpl.
      split; [apply list_lookup_insert_eq; eapply lookup_lt_Some; exact Hk |].
      split; [congruence |].
      eapply task_step_exact; try eassumption.
      * exact (Forall_lookup_1 _ _ _ _ Hcs Hk).
      * intros t2 tk2 Ht2 Hs Hs2. exact (Hno c t2 t tk2 tk Hk Ht2 Ht Hs2 Hs).
Qed.

Lemma call_step_kind (clock : Z) (c c' : call) (e e' : EPOCH) :
  call_step clock c e = Some (c', e') -> c_kind c' = c_kind c.
Proof.
  unfold call_step. destruct (c_pc c).
  - destruct (loop_cond c); [destruct (res_Error _) |]; intros [= <- _]; reflexivity.
  - destruct (acquire e); [| discriminate].
    destruct (c_kind c) eqn:Hkind; [| destruct (_ !! _); [| discriminate]];
      intros [= <- _]; simpl; exact Hkind.
  - destruct (forallb _ _); [| discriminate]. intros [= <- _]. reflexivity.
  - discriminate.
Qed.

(** An activation stays where it is in the list of activations, and of the
    kind it is. *)
Lemma step_keeps_call (ev : event) (w w' : world) (k : nat) (c : call) :
  step ev w = Some w' -> calls w !! k = Some c ->
  exists c', calls w' !! k = Some c' /\ c_kind c' = c_kind c.
Proof.
  intros Hstep Hc. unfold step in Hstep. destruct (crashed w); [discriminate |].
  destruct ev as [i | i | a | p | addr endpoint dial | | job | n | params
                  | k' clock | k' t io];
    try (injection Hstep as <-; exists c; split; [exact Hc | reflexivity]).
  - destruct (StartGetWork _ _ _ _) as [| [e' err]]; injection Hstep as <-;
      exists c; (split; [exact Hc | reflexivity]).
  - destruct (IsActive _); [| discriminate]. injection Hstep as <-.
    exists c. split; [exact Hc | reflexivity].
  - destruct (AttemptHashes_entry n (eng w)) as [c0 e]. injection Hstep as <-.
    exists c. simpl. split; [apply lookup_app_l_Some; exact Hc | reflexivity].
  - destruct (SubmitHashes_entry params (eng w)) as [c0 e]. injection Hstep as <-.
    exists c. simpl. split; [apply lookup_app_l_Some; exact Hc | reflexivity].
  - destruct (calls w !! k') as [c0 |] eqn:Hk; [| discriminate].
    destruct (call_step clock c0 (eng w)) as [[c' e'] |] eqn:Hcall; [| discriminate].
    injection Hstep as <-. simpl.
    destruct (decide (k' = k)) as [-> | Hne].
    + rewrite Hc in Hk. injection Hk as <-. exists c'.
      split; [apply list_lookup_insert_eq; eapply lookup_lt_Some; exact Hc |].
      exact (call_step_kind _ _ _ _ _ Hcall).
    + exists c. split; [rewrite list_lookup_insert_ne by exact Hne; exact Hc | reflexivity].
  - destruct (calls w !! k') as [c0 |] eqn:Hk; [| discriminate].
    destruct (c_tasks c0 !! t) as [tk |]; [| discriminate].
    destruct (task_step io tk c0 (eng w) (outbox w))
      as [[| [[[tk' c'] e'] out']] |] eqn:Htask; [| | discriminate];
      injection Hstep as <-; [exists c; split; [exact Hc | reflexivity] |].
    simpl. destruct (decide (k' = k)) as [-> | Hne].
    + rewrite Hc in Hk. injection Hk as <-.
      eexists. split; [apply list_lookup_insert_eq; eapply lookup_lt_Some; exact Hc |].
      simpl. exact (proj1 (proj2 (task_step_semaphore _ _ _ _ _ _ _ _ _ Htask))).
    + exists c. split; [rewrite list_lookup_insert_ne by exact Hne; exact Hc | reflexivity].
Qed.

Lemma run_keeps_call (tr : list event) :
  forall (w w' : world) (k : nat) (c : call),
  run tr w = Some w' -> calls w !! k = Some c ->
  exists c', calls w' !! k = Some c' /\ c_kind c' = c_kind c.
Proof.
  induction tr as [| ev tr IH]; intros w w' k c; simpl.
  - intros [= <-] H. exists c. split; [exact H | reflexivity].
  - destruct (step ev w) as [w1 |] eqn:Hstep; [| discriminate].
    intros Hrun Hc. destruct (step_keeps_call _ _ _ _ _ Hstep Hc) as (c1 & Hc1 & Hk1).
    destruct (IH _ _ _ _ Hrun Hc1) as (c2 & Hc2 & Hk2).
    exists c2. split; [exact Hc2 | congruence].
Qed.

(** A step that is not one of activation [k] leaves it as it is. *)
Lemma other_step_call (k : nat) (ev : event) (w w' : world) (c : call) :
  match ev with
  | EvCall k' _ => k' <> k
  | EvTask k' _ _ => k' <> k
  | _ => True
  end ->
  step ev w = Some w' -> calls w !! k = Some c -> calls w' !! k = Some c.
Proof.
  intros Hev Hstep Hc. unfold step in Hstep. destruct (crashed w); [discriminate |].
  destruct ev as [i | i | a | p | addr endpoint dial | | job | n | params
                  | k' clock | k' t io];
    try (injection Hstep as <-; exact Hc).
  - destruct (StartGetWork _ _ _ _) as [| [e' err]]; injection Hstep as <-; exact Hc.
  - destruct (IsActive _); [| discriminate]. injection Hstep as <-. exact Hc.
  - destruct (AttemptHashes_entry n (eng w)) as [c0 e]. injection Hstep as <-.
    simpl. apply lookup_app_l_Some; exact Hc.
  - destruct (SubmitHashes_entry params (eng w)) as [c0 e]. injection Hstep as <-.
    simpl. apply lookup_app_l_Some; exact Hc.
  - destruct (calls w !! k') as [c0 |]; [| discriminate].
    destruct (call_step clock c0 (eng w)) as [[c' e'] |]; [| discriminate].
    injection Hstep as <-. simpl. rewrite list_lookup_insert_ne by exact Hev. exact Hc.
  - destruct (calls w !! k') as [c0 |]; [| discriminate].
    destruct (c_tasks c0 !! t) as [tk |]; [| discriminate].
    destruct (task_step io tk c0 (eng w) (outbox w)) as [[| [[[tk' c'] e'] out']] |];
      [| | discriminate]; injection Hstep as <-; [exact Hc |].
    simpl. rewrite list_lookup_insert_ne by exact Hev. exact Hc.
Qed.

(** Whatever else runs, [i] stays the number of writes as long as no two
    goroutines of the activation are between the read and the write. *)
Lemma step_exact (k : nat) (params : list Submit_Params) (ev : event) (w w' : world) :
  winv w -> no_overlap k w -> step ev w = Some w' ->
  (exists c, calls w !! k = Some c /\ c_kind c = Submit params /\ exact_count c) ->
  exists c', calls w' !! k = Some c' /\ c_kind c' = Submit params /\ exact_count c'.
Proof.
  intros Hinv Hno Hstep Hex.
  assert (own_event k ev \/
          match ev with
          | EvCall k' _ => k' <> k
          | EvTask k' _ _ => k' <> k
          | _ => True
          end) as [Hown | Hother].
  { destruct ev as [| | | | | | | | | k' clock | k' t io]; simpl; auto;
      destruct (decide (k' = k)); auto. }
  - exact (solo_step_exact k params ev w w' Hinv Hown Hno Hstep Hex).
  - destruct Hex as (c & Hk & Hkind & Hexact). exists c.
    split; [exact (other_step_call k ev w w' c Hother Hstep Hk) | auto].
Qed.

Lemma run_exact (k : nat) (params : list Submit_Params) (tr : list event) :
  forall (w w' : world),
  reachable w -> always (no_overlap k) tr w -> run tr w = Some w' ->
  (exists c, calls w !! k = Some c /\ c_kind c = Submit params /\ exact_count c) ->
  exists c', calls w' !! k = Some c' /\ c_kind c' = Submit params /\ exact_count c'.
Proof.
  induction tr as [| ev tr IH]; intros w w' Hw Hno Hrun Hex; simpl in *.
  - injection Hrun as <-. exact Hex.
  - destruct (step ev w) as [w1 |] eqn:Hstep; [| discriminate].
    destruct Hno as [Hno1 Hno].
    apply (IH w1 w' (reachable_step _ _ _ Hw Hstep) Hno Hrun).
    exact (step_exact k params ev w w1 (reachable_winv w Hw) Hno1 Hstep Hex).
Qed.

(** The setters leave the activations and the session alone. *)
Lemma quiet_step_session (k : nat) (params : list Submit_Params)
    (s0 : GetSessionEPOCH_Result) (ev : event) (w w' : world) :
  winv w -> quiet_event k ev -> step ev w = Some w' ->
  session_of_submit k params s0 w -> session_of_submit k params s0 w'.
Proof.
  intros Hinv Hq Hstep Hs.
  assert (own_event k ev \/
          (calls w' = calls w /\ session (eng w') = session (eng w))) as [Hown | [Hc He]].
  { unfold step in Hstep. destruct (crashed w); [discriminate |].
    destruct ev as [i | i | a | p | addr endpoint dial | | job | n | params'
                    | k' clock | k' t io];
      simpl in Hq; try contradiction; try (left; exact Hq); try (left; exact I);
      right; injection Hstep as <-; simpl; (split; [reflexivity |]);
      unfold SetMaxThreads, SetMaxHashes, SetAddress, SetPort;
      repeat match goal with
             | |- context [if ?b then _ else _] => destruct b
             end; reflexivity. }
  - exact (solo_step_session k params s0 ev w w' Hinv Hown Hstep Hs).
  - unfold session_of_submit in *. rewrite Hc, He. exact Hs.
Qed.

Lemma quiet_run_session (k : nat) (params : list Submit_Params)
    (s0 : GetSessionEPOCH_Result) (tr : list event) :
  forall (w w' : world),
  reachable w -> Forall (quiet_event k) tr -> run tr w = Some w' ->
  session_of_submit k params s0 w -> session_of_submit k params s0 w'.
Proof.
  induction tr as [| ev tr IH]; intros w w' Hw Hq Hrun Hs; simpl in *.
  - injection Hrun as <-. exact Hs.
  - destruct (step ev w) as [w1 |] eqn:Hstep; [| discriminate].
    apply Forall_cons in Hq as [Hev Hq].
    apply (IH w1 w' (reachable_step _ _ _ Hw Hstep) Hq Hrun).
    exact (quiet_step_session k params s0 ev w w1 (reachable_winv w Hw) Hev Hstep Hs).
Qed.

Lemma count_storing_unique (ts : list task) :
  count_tasks storing ts <= 1 ->
  forall t1 t2 tk1 tk2, ts !! t1 = Some tk1 -> ts !! t2 = Some tk2 ->
    storing tk1 = true -> storing tk2 = true -> t1 = t2.
Proof.
  unfold count_tasks. induction ts as [| x ts IH]; intros Hc t1 t2 tk1 tk2 H1 H2 S1 S2.
  - discriminate.
  - simpl in Hc. pose proof (count_tasks_bounds storing ts) as Hb.
    unfold count_tasks in Hb.
    assert (forall t tk, ts !! t = Some tk -> storing tk = true ->
                         1 <= sumZ (fun t => if storing t then 1 else 0) ts) as Hone.
    { clear. intros t tk. revert t. induction ts as [| y ts IH]; intros [| t]; simpl;
        try discriminate.
      - intros [= ->] ->. pose proof (count_tasks_bounds storing ts) as Hb.
        unfold count_tasks in Hb. lia.
      - intros Ht Hs. specialize (IH t Ht Hs). destruct (storing y); lia. }
    destruct t1 as [| t1], t2 as [| t2]; simpl in H1, H2.
    + reflexivity.
    + injection H1 as ->. rewrite S1 in Hc. specialize (Hone t2 tk2 H2 S2). lia.
    + injection H2 as ->. rewrite S2 in Hc. specialize (Hone t1 tk1 H1 S1). lia.
    + f_equal. apply (IH ltac:(destruct (storing x); lia) t1 t2 tk1 tk2); assumption.
Qed.

Lemma no_overlapb_sound (k : nat) (w : world) : no_overlapb k w = true -> no_overlap k w.
Proof.
  unfold no_overlapb, no_overlap. intros H c t1 t2 tk1 tk2 Hk. rewrite Hk in H.
  apply count_storing_unique. now apply Z.leb_le.
Qed.

Lemma alwaysb_sound (Pb : world -> bool) (P : world -> Prop) (tr : list event) :
  (forall w, Pb w = true -> P w) ->
  forall w, alwaysb Pb tr w = true -> always P tr w.
Proof.
  intros HP. induction tr as [| ev tr IH]; intros w; simpl;
    intros [Hw Hrest]%andb_prop; (split; [apply HP; exact Hw |]); [exact I |].
  destruct (step ev w); [apply IH; exact Hrest | exact I].
Qed.

Lemma SubmitHashes_entry_facts (params : list Submit_Params) (e : EPOCH) :
  c_kind (SubmitHashes_entry params e).1 = Submit params /\
  c_pc (SubmitHashes_entry params e).1 <> CReturned None /\
  session (SubmitHashes_entry params e).2 = session e /\
  exact_count (SubmitHashes_entry params e).1.
Proof.
  unfold SubmitHashes_entry.
  destruct (negb (IsActive e)); [| destruct (_ >? _)]; simpl;
    repeat split; try discriminate; constructor.
Qed.

End SubmitFacts.

(** C6 as stated fails when the ceiling is negative: the
    connection is active and [SubmitHashes] of the empty list is rejected
    with the capacity error. *)
Lemma SubmitHashes_empty_rejected_under_negative_ceiling :
  exists w c, run (ext := demo) negative_ceiling_schedule demo_init = Some w /\
    IsActive (eng w) = true /\ calls w !! 0%nat = Some c /\ c_kind c = Submit [] /\
    c_pc c = CReturned (Some (ErrSubmissionExceedsMax (-1) 0)).
Proof.
  do 2 eexists. split; [vm_compute; reflexivity |].
  split; [vm_compute; reflexivity |]. split; [vm_compute; reflexivity |].
  split; vm_compute; reflexivity.
Qed.

Lemma SubmitHashes_empty_succeeds_witness :
  reachable (ext := demo) demo_started /\ IsActive (eng demo_started) = true /\
  0 <= GetMaxHashes (eng demo_started) /\
  exists w',
    run (ext := demo) [EvSubmitHashes []; EvCall 0 0; EvCall 0 5] demo_started = Some w' /\
    session (eng w') = session (eng demo_started).
Proof.
  assert (reachable (ext := demo) demo_started) as Hr
    by (exists [demo_start]; vm_compute; reflexivity).
  assert (IsActive (eng demo_started) = true) as Ha by (vm_compute; reflexivity).
  assert (0 <= GetMaxHashes (eng demo_started)) as Hm by (vm_compute; discriminate).
  destruct (SubmitHashes_empty_succeeds (ext := demo) demo_started 0 5 Hr eq_refl Ha Hm)
    as (w' & Hrun & _ & Hs & _).
  split; [exact Hr |]. split; [exact Ha |]. split; [exact Hm |].
  exists w'. split; [exact Hrun | exact Hs].
Defined.

(** ** A schedule under which a batch returns *)

Section CompletionFacts.
Context {ext : Externals}.

Lemma run_app (tr1 tr2 : list event) :
  forall w, run (tr1 ++ tr2) w = match run tr1 w with
                                 | Some w1 => run tr2 w1
                                 | None => None
                                 end.
Proof.
  induction tr1 as [| ev tr1 IH]; intros w; simpl; [reflexivity |].
  destruct (step ev w); [apply IH | reflexivity].
Qed.

Lemma powHash_no_panic (random_buf : list Z) (e : EPOCH) :
  job_safe e -> powHash random_buf e <> Panic.
Proof.
  unfold job_safe, powHash. destruct (hex_Decode _ _); [contradiction |].
  intros _. destruct (_ || _); [discriminate |]. destruct (bool_decide _); discriminate.
Qed.

Lemma task_step_no_panic (io : task_io) (tk : task) (c : call) (e : EPOCH)
    (out : list rpc.SubmitBlock_Params) :
  t_pc tk <> TPowHash \/ job_safe e -> task_step io tk c e out <> Some Panic.
Proof.
  intros Hsafe. unfold task_step. destruct (t_pc tk); try discriminate.
  - destruct Hsafe as [Hpc | Hsafe]; [contradiction |].
    pose proof (powHash_no_panic (io_random io) e Hsafe).
    destruct (powHash _ _) as [| r]; [contradiction |]. destruct (ph_err r); discriminate.
  - destruct (submitBlock _ _ _ _ _ _) as [[valid err] msg].
    destruct err; [discriminate |]. destruct (c_kind c); discriminate.
  - destruct (release e); discriminate.
Qed.

Lemma forallb_insert_done (ts : list task) (t : nat) (tk tk' : task) :
  ts !! t = Some tk -> task_done tk' = true ->
  (forall j x, ts !! j = Some x -> j <> t -> task_done x = true) ->
  forallb task_done (<[t := tk']> ts) = true.
Proof.
  revert t. induction ts as [| a ts IH]; intros [| t] Ht Hd Hall; simpl in *;
    try discriminate.
  - rewrite Hd. simpl. apply forallb_forall. intros x Hx.
    apply list_elem_of_In, list_elem_of_lookup in Hx as [j Hj].
    apply (Hall (S j) x Hj). discriminate.
  - rewrite (Hall 0%nat a eq_refl) by discriminate. simpl.
    apply (IH t Ht Hd). intros j x Hj Hne. apply (Hall (S j) x Hj). congruence.
Qed.


Lemma task_step_enabled (io : task_io) (tk : task) (c : call) (e : EPOCH)
    (out : list rpc.SubmitBlock_Params) (ch : chan) :
  task_done tk = false -> semaphore e = Some ch -> 0 < chan_len ch ->
  task_step io tk c e out <> None.
Proof.
  intros Hnd Hsem Hlen.
  destruct (t_pc tk) eqn:Hpc;
    try (destruct (task_step_progress io tk c e out) as [r ->];
         [rewrite Hpc; discriminate | rewrite Hpc; discriminate | discriminate]).
  - unfold task_step, release. rewrite Hpc, Hsem.
    destruct (Z.ltb_spec 0 (chan_len ch)); [discriminate | lia].
  - unfold task_done in Hnd. rewrite Hpc in Hnd. discriminate.
Qed.

(** Left to itself, with a slot to give back and a blob that fits, a
    goroutine runs to its end in at most [steps_left] steps. *)
Lemma task_runs_to_done (m : nat) :
  forall (w : world) (k t : nat) (c : call) (tk : task) (ch : chan),
  reachable w -> crashed w = false ->
  calls w !! k = Some c -> c_tasks c !! t = Some tk ->
  (steps_left (t_pc tk) <= m)%nat -> task_done tk = false ->
  semaphore (eng w) = Some ch -> 0 < chan_len ch ->
  is_submit (c_kind c) \/ job_safe (eng w) ->
  exists tr w' c' tk',
    Forall (own_event k) tr /\ run tr w = Some w' /\ crashed w' = false /\
    calls w' !! k = Some c' /\ c_kind c' = c_kind c /\ c_pc c' = c_pc c /\
    c_next c' = c_next c /\ c_tasks c' = <[t := tk']> (c_tasks c) /\
    task_done tk' = true /\
    semaphore (eng w')
    = Some {| chan_cap := chan_cap ch; chan_len := chan_len ch - 1 |} /\
    (is_submit (c_kind c') \/ job_safe (eng w')) /\
    (forall n, c_kind c = Attempt n -> c_i c' = c_i c).
Proof.
  induction m as [| m IH]; intros w k t c tk ch Hw Hcr Hk Ht Hm Hnd Hsem Hlen Hsafe.
  - unfold task_done in Hnd. destruct (t_pc tk); simpl in Hm; first [lia | discriminate].
  - set (io := {| io_random := replicate 12 0; io_write_ok := true |}).
    pose proof (reachable_winv w Hw) as [_ Hcs].
    pose proof (Forall_lookup_1 _ _ _ _ Hcs Hk) as Hc.
    destruct (call_ok_with_task c t tk Hc Ht Hnd) as [Hwf _].
    pose proof (Forall_lookup_1 _ _ _ _ Hwf Ht) as Hwf_tk.
    pose proof (lookup_lt_Some _ _ _ Hk) as Hklt.
    pose proof (lookup_lt_Some _ _ _ Ht) as Htlt.
    destruct (task_step io tk c (eng w) (outbox w)) as [[| [[[tk1 c1] e1] out1]] |] eqn:Hstep.
    + exfalso. apply (task_step_no_panic io tk c (eng w) (outbox w)); [| exact Hstep].
      destruct Hsafe as [Hsub | Hsafe]; [left | right; exact Hsafe].
      intros Hpc. unfold task_wf in Hwf_tk. rewrite Hpc in Hwf_tk.
      destruct Hwf_tk as [_ Hns]. exact (Hns Hsub).
    + set (w1 := set_outbox out1
                   (set_calls (<[k := set_c_tasks (<[t := tk1]> (c_tasks c1)) c1]> (calls w))
                      (set_eng e1 w))).
      assert (step (EvTask k t io) w = Some w1) as Hws.
      { unfold step. rewrite Hcr, Hk, Ht, Hstep. reflexivity. }
      pose proof (task_step_semaphore _ _ _ _ _ _ _ _ _ Hstep)
        as (Hts & Hkind & Hpc & Hnext & _ & _ & Hcase).
      pose proof (task_step_decreases _ _ _ _ _ _ _ _ _ Hstep) as [Hdec _].
      assert (forall n, c_kind c = Attempt n -> c_i c1 = c_i c) as Hci.
      { intros n Hn.
        assert (is_submit (c_kind c) -> 0 <= c_i c <= stored_tasks (c_tasks c)) as Hi
          by (rewrite Hn; intros []).
        pose proof (task_step_wf _ _ _ _ _ _ _ _ _ _ Hwf_tk Hi Hstep) as (_ & _ & H).
        rewrite Hn in H. exact H. }
      destruct Hcase as [(He1 & Hnd1 & _) | (_ & Hd1 & _ & Hc1 & _ & ch' & Hsem' & _ & He1)].
      * subst e1.
        assert (calls w1 !! k = Some (set_c_tasks (<[t := tk1]> (c_tasks c1)) c1)) as Hk1
          by (apply list_lookup_insert_eq; exact Hklt).
        assert (c_tasks (set_c_tasks (<[t := tk1]> (c_tasks c1)) c1) !! t = Some tk1) as Ht1
          by (simpl; rewrite Hts; apply list_lookup_insert_eq; exact Htlt).
        assert (is_submit (c_kind (set_c_tasks (<[t := tk1]> (c_tasks c1)) c1))
                \/ job_safe (eng w1)) as Hsafe1
          by (simpl; rewrite Hkind; exact Hsafe).
        destruct (IH w1 k t (set_c_tasks (<[t := tk1]> (c_tasks c1)) c1) tk1 ch
                    (reachable_step _ w w1 Hw Hws) Hcr Hk1 Ht1 ltac:(lia) Hnd1 Hsem Hlen Hsafe1)
          as (tr & w' & c' & tk' & Hown & Hrun & Hcr' & Hk' & Hkind' & Hpc' & Hnext' & Hts'
                & Hd' & Hsem' & Hsafe' & Hci').
        exists (EvTask k t io :: tr), w', c', tk'. simpl in *.
        split; [constructor; [reflexivity | exact Hown] |].
        split; [rewrite Hws; exact Hrun |]. split; [exact Hcr' |].
        split; [exact Hk' |]. split; [congruence |]. split; [congruence |].
        split; [congruence |].
        split; [rewrite Hts', Hts; apply list_insert_insert_eq |].
        split; [exact Hd' |]. split; [exact Hsem' |]. split; [exact Hsafe' |].
        intros n Hn. rewrite (Hci' n) by congruence. exact (Hci n Hn).
      * rewrite Hsem in Hsem'. injection Hsem' as <-. subst e1 c1.
        exists [EvTask k t io], w1, (set_c_tasks (<[t := tk1]> (c_tasks c)) c), tk1.
        split; [constructor; [reflexivity | constructor] |].
        split; [simpl; rewrite Hws; reflexivity |]. simpl.
        split; [exact Hcr |].
        split; [apply list_lookup_insert_eq; exact Hklt |].
        repeat split; auto.
    + exfalso. exact (task_step_enabled io tk c (eng w) (outbox w) ch Hnd Hsem Hlen Hstep).
Qed.


Lemma chan_back (ch : chan) :
  {| chan_cap := chan_cap {| chan_cap := chan_cap ch; chan_len := chan_len ch + 1 |};
     chan_len := chan_len {| chan_cap := chan_cap ch; chan_len := chan_len ch + 1 |} - 1 |}
  = ch.
Proof. destruct ch as [cap len]. simpl. f_equal. lia. Qed.

(** An activation at its loop test whose loop is over, or that sees an
    error, waits for nothing and returns. *)
Lemma batch_exits (w : world) (k : nat) (c : call) :
  crashed w = false -> calls w !! k = Some c -> c_pc c = CLoop ->
  forallb task_done (c_tasks c) = true ->
  loop_cond c = false \/ res_Error (c_result c) <> None ->
  exists tr w' c',
    Forall (own_event k) tr /\ run tr w = Some w' /\ crashed w' = false /\
    calls w' !! k = Some c' /\ c_pc c' = CReturned None /\ c_kind c' = c_kind c.
Proof.
  intros Hcr Hk Hpc Hdone Hstop.
  pose proof (lookup_lt_Some _ _ _ Hk) as Hklt.
  assert (call_step 0 c (eng w) = Some (set_c_pc CWait c, eng w)) as Hs1.
  { unfold call_step. rewrite Hpc. destruct Hstop as [-> | Herr]; [reflexivity |].
    destruct (loop_cond c); [| reflexivity].
    destruct (res_Error (c_result c)); [reflexivity | contradiction]. }
  pose proof (step_EvCall k 0 w c _ _ Hcr Hk Hs1) as Hw1.
  set (w1 := set_calls (<[k := set_c_pc CWait c]> (calls w)) (set_eng (eng w) w)) in *.
  assert (calls w1 !! k = Some (set_c_pc CWait c)) as Hk1
    by (apply list_lookup_insert_eq; exact Hklt).
  assert (call_step 0 (set_c_pc CWait c) (eng w1)
          = Some (finish 0 (set_c_pc CWait c) (eng w1))) as Hs2
    by (unfold call_step; simpl; rewrite Hdone; reflexivity).
  destruct (finish 0 (set_c_pc CWait c) (eng w1)) as [c2 e2] eqn:Hfin.
  pose proof (step_EvCall k 0 w1 _ _ _ Hcr Hk1 Hs2) as Hw2.
  exists [EvCall k 0; EvCall k 0], (set_calls (<[k := c2]> (calls w1)) (set_eng e2 w1)), c2.
  split; [repeat constructor |].
  split; [simpl; rewrite Hw1, Hw2; reflexivity |].
  split; [exact Hcr |].
  split; [simpl; apply list_lookup_insert_eq; rewrite length_insert; exact Hklt |].
  unfold finish in Hfin. injection Hfin as <- _. split; reflexivity.
Qed.

(** From its loop test, with a free slot, an activation that runs each
    goroutine to its end before it launches the next one returns. *)
Lemma batch_completes (m : nat) :
  forall (w : world) (k : nat) (c : call) (ch : chan),
  reachable w -> at_loop k ch w c -> 0 <= chan_len ch < chan_cap ch ->
  (loops_left c <= m)%nat ->
  exists tr w' c',
    Forall (own_event k) tr /\ run tr w = Some w' /\ crashed w' = false /\
    calls w' !! k = Some c' /\ c_pc c' = CReturned None /\ c_kind c' = c_kind c.
Proof.
  induction m as [| m IH]; intros w k c ch Hw (Hcr & Hk & Hpc & Hdone & Hsem & Hsafe) Hch Hm.
  all: pose proof (lookup_lt_Some _ _ _ Hk) as Hklt.
  all: pose proof (batch_exits w k c Hcr Hk Hpc Hdone) as Hexit.
  - apply Hexit. destruct (loop_cond c) eqn:Hcond; [| left; reflexivity].
    exfalso. unfold loops_left, loop_cond in *. destruct (c_kind c).
    + apply Z.ltb_lt in Hcond. lia.
    + apply bool_decide_eq_true_1 in Hcond. lia.
  - destruct (loop_cond c) eqn:Hcond; [| apply Hexit; left; reflexivity].
    destruct (res_Error (c_result c)) eqn:Herr; [apply Hexit; right; discriminate |].
    clear Hexit.
    pose proof (reachable_winv w Hw) as [_ Hcs].
    pose proof (Forall_lookup_1 _ _ _ _ Hcs Hk) as Hc.
    unfold call_ok in Hc. rewrite Hpc in Hc. destruct Hc as (_ & _ & Hkc).
    assert (call_step 0 c (eng w) = Some (set_c_pc CAcquire c, eng w)) as Hs1
      by (unfold call_step; rewrite Hpc, Hcond, Herr; reflexivity).
    pose proof (step_EvCall k 0 w c _ _ Hcr Hk Hs1) as Hw1.
    set (w1 := set_calls (<[k := set_c_pc CAcquire c]> (calls w)) (set_eng (eng w) w)) in *.
    assert (calls w1 !! k = Some (set_c_pc CAcquire c)) as Hk1
      by (apply list_lookup_insert_eq; exact Hklt).
    set (ch2 := {| chan_cap := chan_cap ch; chan_len := chan_len ch + 1 |}).
    assert (acquire (eng w1) = Some (set_semaphore (Some ch2) (eng w))) as Hacq.
    { unfold acquire. simpl. rewrite Hsem.
      destruct (Z.ltb_spec (chan_len ch) (chan_cap ch)); [reflexivity | lia]. }
    assert (exists pc0 c2,
              call_step 0 (set_c_pc CAcquire c) (eng w1)
              = Some (c2, set_semaphore (Some ch2) (eng w)) /\
              c_tasks c2 = c_tasks c ++ [new_task pc0] /\
              task_done (new_task pc0) = false /\
              (steps_left pc0 <= 7)%nat /\
              c_pc c2 = CLoop /\ c_kind c2 = c_kind c /\
              (loops_left c2 <= m)%nat /\
              (forall n, c_kind c = Attempt n -> c_i c2 = c_i c + 1) /\
              c_next c2 = match c_kind c with
                          | Attempt _ => c_next c
                          | Submit _ => S (c_next c)
                          end) as (pc0 & c2 & Hs2 & Hts2 & Hnd0 & Hsl & Hpc2 & Hkind2 & Hll & Hci2 & Hnx2).
    { unfold call_step. simpl c_pc. cbv iota. rewrite Hacq. simpl c_kind.
      unfold loops_left, loop_cond in *. destruct (c_kind c) as [n | params] eqn:Hkind.
      - apply Z.ltb_lt in Hcond. destruct Hkc as (Hn & Hi & _).
        unfold LIMIT_MAX_HASHES in *.
        assert (wrap_int (c_i c + 1) = c_i c + 1) as Hwr
          by (apply wrap_int_id; unfold int_range; lia).
        exists TPowHash. eexists. split; [reflexivity |]. simpl. rewrite Hkind, Hwr.
        repeat split; auto; try lia; intros n0 [= <-]; reflexivity.
      - apply bool_decide_eq_true_1 in Hcond.
        destruct (lookup_lt_is_Some_2 params (c_next c) Hcond) as [p Hp].
        simpl c_next. rewrite Hp.
        exists (TSubmit p). eexists. split; [reflexivity |]. simpl. rewrite Hkind.
        repeat split; auto; try lia; intros n0 [=]. }
    pose proof (step_EvCall k 0 w1 _ _ _ Hcr Hk1 Hs2) as Hw2.
    set (w2 := set_calls (<[k := c2]> (calls w1)) (set_eng (set_semaphore (Some ch2) (eng w)) w1)) in *.
    assert (reachable w2) as Hr2.
    { eapply reachable_step; [| exact Hw2]. eapply reachable_step; [exact Hw | exact Hw1]. }
    assert (calls w2 !! k = Some c2) as Hk2
      by (apply list_lookup_insert_eq; simpl; rewrite length_insert; exact Hklt).
    assert (c_tasks c2 !! length (c_tasks c) = Some (new_task pc0)) as Ht2
      by (rewrite Hts2; apply list_lookup_middle; reflexivity).
    assert (is_submit (c_kind c2) \/ job_safe (eng w2)) as Hsafe2
      by (rewrite Hkind2; exact Hsafe).
    destruct (task_runs_to_done 7 w2 k (length (c_tasks c)) c2 (new_task pc0) ch2
                Hr2 Hcr Hk2 Ht2 Hsl Hnd0 eq_refl ltac:(simpl; lia) Hsafe2)
      as (tr3 & w3 & c3 & tk' & Hown3 & Hrun3 & Hcr3 & Hk3 & Hkind3 & Hpc3 & Hnx3 & Hts3
            & Hd3 & Hsem3 & Hsafe3 & Hci3).
    assert (at_loop k ch w3 c3) as Hat.
    { split; [exact Hcr3 |]. split; [exact Hk3 |]. split; [congruence |].
      split; [| split; [rewrite Hsem3; unfold ch2; rewrite chan_back; reflexivity | exact Hsafe3]].
      rewrite Hts3, Hts2. eapply forallb_insert_done; [apply list_lookup_middle; reflexivity | exact Hd3 |].
      intros j x Hj Hne.
      assert (j < length (c_tasks c))%nat as Hjlt.
      { apply lookup_lt_Some in Hj. rewrite length_app in Hj. simpl in Hj. lia. }
      rewrite lookup_app_l in Hj by exact Hjlt.
      exact (forallb_lookup _ _ _ _ Hdone Hj). }
    assert (loops_left c3 <= m)%nat as Hm3.
    { unfold loops_left in *. rewrite Hkind3. destruct (c_kind c2) as [n | params] eqn:Hk2'.
      - rewrite (Hci3 n eq_refl). exact Hll.
      - rewrite Hnx3. exact Hll. }
    destruct (IH w3 k c3 ch (reachable_run tr3 w2 w3 Hr2 Hrun3) Hat Hch Hm3)
      as (tr4 & w4 & c4 & Hown4 & Hrun4 & Hcr4 & Hk4 & Hpc4 & Hkind4).
    exists (EvCall k 0 :: EvCall k 0 :: tr3 ++ tr4), w4, c4.
    split; [constructor; [reflexivity |]; constructor; [reflexivity |];
            apply Forall_app; split; assumption |].
    split; [simpl; rewrite Hw1, Hw2, run_app, Hrun3; exact Hrun4 |].
    split; [exact Hcr4 |]. split; [exact Hk4 |]. split; [exact Hpc4 |]. congruence.
Qed.


Lemma AttemptHashes_returns (w : world) (n : Z) (ch : chan) :
  reachable w -> crashed w = false -> IsActive (eng w) = true ->
  n <= GetMaxHashes (eng w) ->
  semaphore (eng w) = Some ch -> 0 <= chan_len ch < chan_cap ch -> job_safe (eng w) ->
  exists tr w' c,
    Forall (own_event (length (calls w))) tr /\
    run (EvAttemptHashes n :: tr) w = Some w' /\
    calls w' !! length (calls w) = Some c /\
    c_kind c = Attempt n /\ c_pc c = CReturned None.
Proof.
  intros Hw Hcr Hact Hle Hsem Hch Hsafe.
  pose proof (step_AttemptHashes n w Hcr) as Hstep.
  unfold AttemptHashes_entry in Hstep. rewrite Hact in Hstep. simpl in Hstep.
  destruct (Z.gtb_spec n (GetMaxHashes (eng w))); [lia |]. simpl in Hstep.
  set (w1 := set_calls (calls w ++ [new_call (Attempt n) CLoop])
               (set_eng (setProcessing true (eng w)) w)) in *.
  assert (at_loop (length (calls w)) ch w1 (new_call (Attempt n) CLoop)) as Hat.
  { split; [exact Hcr |]. split; [apply list_lookup_middle; reflexivity |].
    split; [reflexivity |]. split; [reflexivity |]. split; [exact Hsem |].
    right. exact Hsafe. }
  destruct (batch_completes _ w1 _ _ ch (reachable_step _ _ _ Hw Hstep) Hat Hch (le_n _))
    as (tr & w' & c' & Hown & Hrun & _ & Hk & Hpc & Hkind).
  exists tr, w', c'. split; [exact Hown |].
  split; [cbn [run]; rewrite Hstep; exact Hrun |]. auto.
Qed.

Lemma SubmitHashes_returns (w : world) (params : list Submit_Params) (ch : chan) :
  reachable w -> crashed w = false -> IsActive (eng w) = true ->
  Z.of_nat (length params) <= GetMaxHashes (eng w) ->
  semaphore (eng w) = Some ch -> 0 <= chan_len ch < chan_cap ch ->
  exists tr w' c,
    Forall (own_event (length (calls w))) tr /\
    run (EvSubmitHashes params :: tr) w = Some w' /\
    calls w' !! length (calls w) = Some c /\
    c_kind c = Submit params /\ c_pc c = CReturned None.
Proof.
  intros Hw Hcr Hact Hle Hsem Hch.
  pose proof (step_SubmitHashes params w Hcr) as Hstep.
  unfold SubmitHashes_entry in Hstep. rewrite Hact in Hstep. simpl in Hstep.
  destruct (Z.gtb_spec (Z.of_nat (length params)) (GetMaxHashes (eng w))); [lia |].
  simpl in Hstep.
  set (w1 := set_calls (calls w ++ [new_call (Submit params) CLoop])
               (set_eng (setProcessing true (eng w)) w)) in *.
  assert (at_loop (length (calls w)) ch w1 (new_call (Submit params) CLoop)) as Hat.
  { split; [exact Hcr |]. split; [apply list_lookup_middle; reflexivity |].
    split; [reflexivity |]. split; [reflexivity |]. split; [exact Hsem |].
    left. exact I. }
  destruct (batch_completes _ w1 _ _ ch (reachable_step _ _ _ Hw Hstep) Hat Hch (le_n _))
    as (tr & w' & c' & Hown & Hrun & _ & Hk & Hpc & Hkind).
  exists tr, w', c'. split; [exact Hown |].
  split; [cbn [run]; rewrite Hstep; exact Hrun |]. auto.
Qed.

End CompletionFacts.

(** ** The two dispatchers *)

Section BatchFacts.
Context {ext : Externals}.

(** C2, as the code has it.  In every reachable state: if the connection is
    inactive or [n] exceeds the ceiling, [AttemptHashes n] returns an error
    at once, with no goroutine and the engine (the session with it) as it
    was; otherwise it starts its loop.  Every activation of [AttemptHashes n]
    has, at every moment, launched at most [max n 0] goroutines, and the
    [Hashes] field of what it returns is at most [max n 0]; when it returns
    without error that field is the number of goroutines it launched.  And
    it does return: with a free slot in the semaphore and a blob that fits
    the work buffer there is a schedule of its own steps under which the
    accepted call returns a result, within these bounds. *)
Theorem AttemptHashes_bounds (w : world) (n : Z) :
  reachable w ->
  (crashed w = false -> IsActive (eng w) = false \/ GetMaxHashes (eng w) < n ->
   exists err,
     step (EvAttemptHashes n) w
     = Some (set_calls (calls w ++ [new_call (Attempt n) (CReturned (Some err))]) w) /\
     (err = ErrNotActive \/ err = ErrHashesExceedMax n (GetMaxHashes (eng w)))) /\
  (crashed w = false -> IsActive (eng w) = true -> n <= GetMaxHashes (eng w) ->
   step (EvAttemptHashes n) w
   = Some (set_calls (calls w ++ [new_call (Attempt n) CLoop])
             (set_eng (setProcessing true (eng w)) w))) /\
  (forall k c, calls w !! k = Some c -> c_kind c = Attempt n ->
     0 <= Z.of_nat (length (c_tasks c)) <= Z.max n 0 /\
     forall err, c_pc c = CReturned err ->
       0 <= res_Hashes (c_result c) <= Z.max n 0 /\
       (err = None -> res_Hashes (c_result c) = Z.of_nat (length (c_tasks c)))) /\
  (crashed w = false -> IsActive (eng w) = true -> n <= GetMaxHashes (eng w) ->
   forall ch, semaphore (eng w) = Some ch -> 0 <= chan_len ch < chan_cap ch ->
   job_safe (eng w) ->
   exists tr w' c,
     Forall (own_event (length (calls w))) tr /\
     run (EvAttemptHashes n :: tr) w = Some w' /\
     calls w' !! length (calls w) = Some c /\
     c_kind c = Attempt n /\ c_pc c = CReturned None /\
     0 <= res_Hashes (c_result c) <= Z.max n 0 /\
     res_Hashes (c_result c) = Z.of_nat (length (c_tasks c))).
Proof.
  intros Hw.
  assert (forall w1, reachable w1 -> forall k c, calls w1 !! k = Some c ->
            c_kind c = Attempt n ->
            0 <= Z.of_nat (length (c_tasks c)) <= Z.max n 0 /\
            forall err, c_pc c = CReturned err ->
              0 <= res_Hashes (c_result c) <= Z.max n 0 /\
              (err = None -> res_Hashes (c_result c) = Z.of_nat (length (c_tasks c))))
    as Hinv.
  { intros w1 Hw1 k c Hk Hkind. pose proof (reachable_winv w1 Hw1) as [_ Hcs].
    pose proof (Forall_lookup_1 _ _ _ _ Hcs Hk) as Hc. unfold call_ok in Hc.
    destruct (c_pc c) as [| | | [err |]] eqn:Hpc.
    4: { destruct Hc as [-> ->]. simpl. split; [lia |].
         intros err' [= <-]. split; [lia | discriminate]. }
    all: destruct Hc as (_ & Hret & Hc); rewrite Hkind in Hc;
      destruct Hc as (_ & Hi & Hlen & _); (split; [lia |]);
      intros err' Herr; try discriminate.
    destruct (Hret eq_refl) as [Hh _]. split; [lia |]. intros _. lia. }
  split; [| split; [| split]].
  - intros Hc Hrej. rewrite step_AttemptHashes by exact Hc. unfold AttemptHashes_entry.
    destruct (IsActive (eng w)) eqn:Hact; simpl.
    + destruct Hrej as [Hrej | Hrej]; [discriminate |].
      destruct (Z.gtb_spec n (GetMaxHashes (eng w))); [| lia].
      eexists. split; [destruct w; reflexivity | right; reflexivity].
    + eexists. split; [destruct w; reflexivity | left; reflexivity].
  - intros Hc Hact Hle. rewrite step_AttemptHashes by exact Hc. unfold AttemptHashes_entry.
    rewrite Hact. simpl. destruct (Z.gtb_spec n (GetMaxHashes (eng w))); [lia |].
    reflexivity.
  - exact (Hinv w Hw).
  - intros Hcr Hact Hle ch Hsem Hch Hsafe.
    destruct (AttemptHashes_returns w n ch Hw Hcr Hact Hle Hsem Hch Hsafe)
      as (tr & w' & c & Hown & Hrun & Hk & Hkind & Hpc).
    exists tr, w', c. repeat (split; [assumption |]).
    destruct (Hinv w' (reachable_run _ _ _ Hw Hrun) _ c Hk Hkind) as [_ Hret].
    destruct (Hret None Hpc) as [Hb Heq]. split; [exact Hb | exact (Heq eq_refl)].
Qed.

(** C3, as the code has it.  Take a reachable state, a [SubmitHashes
    params] entered there, and any schedule after which it has returned
    without synchronous rejection.  Whatever else ran meanwhile, the
    [Hashes] of the result counts goroutines for which [submitBlock]
    returned no error: it is at most their number (a goroutine that failed
    is never counted), which is at most the number launched and the length
    of [params]; it is at least 1 when there is one; and it is exactly their
    number when no two goroutines of the batch were ever between the read
    and the write of [i++] at the same time.  If moreover the call had the
    session to itself, that is, between its entry and its return no other
    [AttemptHashes] or [SubmitHashes] was entered or took a step and
    [StartGetWork] was not called (the setters, the read loop and
    [StopGetWork] may run), then the session's [MiniBlocks] is the one found
    at entry plus the [Submitted] of the result (in the arithmetic of
    [int]), and the session's [Hashes] and [Version] are the ones found at
    entry.  And with an active connection, a batch within the ceiling none
    of whose difficulties is zero ([blockchain.CheckPowHashBig] panics on a
    zero difficulty, which is outside this embedding), and a free slot in
    the semaphore, there is such a schedule: the call returns. *)
Theorem SubmitHashes_effect (w0 : world) (params : list Submit_Params) :
  reachable w0 ->
  (forall (tr : list event) (w : world) (c : call),
     run (EvSubmitHashes params :: tr) w0 = Some w ->
     calls w !! length (calls w0) = Some c -> c_pc c = CReturned None ->
     c_kind c = Submit params /\
     0 <= res_Hashes (c_result c) <= ok_tasks (c_tasks c) /\
     ok_tasks (c_tasks c) <= Z.of_nat (length (c_tasks c)) <= Z.of_nat (length params) /\
     (1 <= ok_tasks (c_tasks c) -> 1 <= res_Hashes (c_result c)) /\
     (always (no_overlap (length (calls w0))) (EvSubmitHashes params :: tr) w0 ->
      res_Hashes (c_result c) = ok_tasks (c_tasks c)) /\
     (Forall (quiet_event (length (calls w0))) tr ->
      MiniBlocks (session (eng w))
      = wrap_int (MiniBlocks (session (eng w0)) + res_Submitted (c_result c)) /\
      Hashes (session (eng w)) = Hashes (session (eng w0)) /\
      Version (session (eng w)) = Version (session (eng w0)))) /\
  (crashed w0 = false -> IsActive (eng w0) = true ->
   Z.of_nat (length params) <= GetMaxHashes (eng w0) ->
   Forall (fun p => Difficulty p <> 0) params ->
   forall ch, semaphore (eng w0) = Some ch -> 0 <= chan_len ch < chan_cap ch ->
   exists tr w c,
     Forall (own_event (length (calls w0))) tr /\
     run (EvSubmitHashes params :: tr) w0 = Some w /\
     calls w !! length (calls w0) = Some c /\
     c_kind c = Submit params /\ c_pc c = CReturned None).
Proof.
  intros Hw0. split.
  2: { intros Hcr Hact Hle _ ch Hsem Hch.
       exact (SubmitHashes_returns w0 params ch Hw0 Hcr Hact Hle Hsem Hch). }
  intros tr w c Hrun Hk Hpc. cbn [run] in Hrun.
  destruct (crashed w0) eqn:Hcr; [unfold step in Hrun; rewrite Hcr in Hrun; discriminate |].
  pose proof (step_SubmitHashes params w0 Hcr) as Hstep.
  rewrite Hstep in Hrun.
  pose proof (SubmitHashes_entry_facts params (eng w0)) as (Hkind0 & Hpc0 & Hs0 & Hex0).
  set (c0 := (SubmitHashes_entry params (eng w0)).1) in *.
  set (e0 := (SubmitHashes_entry params (eng w0)).2) in *.
  set (w1 := set_calls (calls w0 ++ [c0]) (set_eng e0 w0)) in *.
  assert (reachable w1) as Hw1 by (eapply reachable_step; eassumption).
  assert (calls w1 !! length (calls w0) = Some c0) as Hk0
    by (apply list_lookup_middle; reflexivity).
  assert (c_kind c = Submit params) as Hkind.
  { destruct (run_keeps_call tr w1 w _ c0 Hrun Hk0) as (c2 & Hc2 & Hk2).
    rewrite Hk in Hc2. injection Hc2 as <-. congruence. }
  pose proof (reachable_winv w (reachable_run tr w1 w Hw1 Hrun)) as [_ Hcs].
  pose proof (Forall_lookup_1 _ _ _ _ Hcs Hk) as Hc. unfold call_ok in Hc.
  rewrite Hpc, Hkind in Hc.
  destruct Hc as (_ & Hret & _ & Hnext & Hlen & Hi & Hone & _).
  destruct (Hret eq_refl) as [Hh Hdone].
  pose proof (forallb_done_stored _ Hdone) as Hstored.
  pose proof (count_tasks_bounds task_ok (c_tasks c)) as Hokb. fold (ok_tasks (c_tasks c)) in Hokb.
  split; [exact Hkind |].
  split; [lia |]. split; [lia |]. split; [lia |]. split.
  - intros Hno. cbn [always] in Hno. rewrite Hstep in Hno. destruct Hno as [_ Hno].
    destruct (run_exact _ params tr w1 w Hw1 Hno Hrun) as (c' & Hk' & _ & Hexact & _).
    { exists c0. auto. }
    rewrite Hk in Hk'. injection Hk' as <-. lia.
  - intros Hq.
    assert (session_of_submit (length (calls w0)) params (session (eng w0)) w1) as Hsess.
    { exists c0. split; [exact Hk0 |]. split; [exact Hkind0 |].
      destruct (c_pc c0) as [| | | [err |]]; try exact Hs0. contradiction. }
    apply (quiet_run_session _ _ _ tr w1 w Hw1 Hq Hrun) in Hsess
      as (c' & Hk' & _ & Hsess).
    rewrite Hk in Hk'. injection Hk' as <-. rewrite Hpc in Hsess.
    rewrite Hsess. simpl. split; [reflexivity |]. split; reflexivity.
Qed.

End BatchFacts.

(** C2 as stated fails for a negative [n]: on an active
    connection [AttemptHashes(-1)] is not rejected (-1 is under the ceiling),
    launches nothing and returns [Hashes = 0], which is not at most -1. *)
Lemma AttemptHashes_negative_not_bounded :
  exists w c, run (ext := demo) negative_attempt_schedule demo_init = Some w /\
    calls w !! 0%nat = Some c /\ c_kind c = Attempt (-1) /\
    c_pc c = CReturned None /\ c_tasks c = [] /\
    res_Hashes (c_result c) = 0 /\ ~ res_Hashes (c_result c) <= -1.
Proof.
  do 2 eexists. split; [vm_compute; reflexivity |].
  split; [vm_compute; reflexivity |].
  split; [vm_compute; reflexivity |]. split; [vm_compute; reflexivity |].
  split; [vm_compute; reflexivity |]. split; [vm_compute; reflexivity |].
  vm_compute. intros H. apply H. reflexivity.
Qed.

Lemma AttemptHashes_bounds_witness :
  reachable (ext := demo) demo_started /\
  exists tr w c,
    run (ext := demo) (EvAttemptHashes 3 :: tr) demo_started = Some w /\
    calls w !! 0%nat = Some c /\ c_pc c = CReturned None /\
    0 <= res_Hashes (c_result c) <= Z.max 3 0.
Proof.
  assert (reachable (ext := demo) demo_started) as Hr
    by (exists [demo_start]; vm_compute; reflexivity).
  split; [exact Hr |].
  destruct (AttemptHashes_bounds (ext := demo) demo_started 3 Hr) as (_ & _ & _ & Hret).
  destruct (Hret eq_refl ltac:(vm_compute; reflexivity) ltac:(vm_compute; discriminate)
              {| chan_cap := 2; chan_len := 0 |} eq_refl ltac:(simpl; lia)
              ltac:(vm_compute; discriminate))
    as (tr & w & c & _ & Hrun & Hk & _ & Hpc & Hb & _).
  exists tr, w, c. auto.
Defined.

(** C3 as stated fails: two goroutines of one [SubmitHashes]
    on two submissions both get a nil error from [submitBlock], both read
    [i = 0] and both write 1.  The batch returns without error, two tasks
    were launched, ran and succeeded, and [Hashes] is 1. *)
Lemma SubmitHashes_lost_update :
  exists w c, run (ext := demo) lost_update_schedule demo_init = Some w /\
    calls w !! 0%nat = Some c /\ c_pc c = CReturned None /\
    res_Error (c_result c) = None /\
    length (c_tasks c) = 2%nat /\ ok_tasks (c_tasks c) = 2 /\
    res_Hashes (c_result c) = 1 /\
    res_Hashes (c_result c) <> ok_tasks (c_tasks c) /\
    res_Hashes (c_result c) <> Z.of_nat (length (c_tasks c)).
Proof.
  do 2 eexists. split; [vm_compute; reflexivity |].
  split; [vm_compute; reflexivity |]. split; [vm_compute; reflexivity |].
  split; [vm_compute; reflexivity |]. split; [vm_compute; reflexivity |].
  split; [vm_compute; reflexivity |]. split; [vm_compute; reflexivity |].
  split; vm_compute; discriminate.
Qed.

(** Why the session part of C3 needs the call to have the session to
    itself: a second [SubmitHashes] that returns in between has added its
    own count. *)
Lemma SubmitHashes_session_shared :
  exists w c,
    run (ext := demo) (EvSubmitHashes [demo_valid_param] :: overlapping_submit_schedule)
      demo_started = Some w /\
    calls w !! 0%nat = Some c /\ c_pc c = CReturned None /\
    res_Submitted (c_result c) = 1 /\
    MiniBlocks (session (eng demo_started)) = 0 /\
    MiniBlocks (session (eng w)) = 2.
Proof.
  do 2 eexists. split; [vm_compute; reflexivity |].
  split; [vm_compute; reflexivity |]. split; [vm_compute; reflexivity |].
  split; [vm_compute; reflexivity |]. split; vm_compute; reflexivity.
Qed.

Lemma SubmitHashes_effect_witness :
  reachable (ext := demo) demo_started /\
  Forall (quiet_event 0) two_submit_schedule /\
  Forall (fun p => Difficulty p <> 0) [demo_valid_param; demo_param] /\
  (exists w c,
     run (ext := demo) (EvSubmitHashes [demo_valid_param; demo_param] :: two_submit_schedule)
       demo_started = Some w /\
     calls w !! 0%nat = Some c /\ c_pc c = CReturned None /\
     length (c_tasks c) = 2%nat /\ res_Submitted (c_result c) = 1 /\
     length (outbox w) = 1%nat /\
     MiniBlocks (session (eng w)) = 1 /\
     res_Hashes (c_result c) = 2) /\
  (exists tr w c,
     run (ext := demo) (EvSubmitHashes [demo_valid_param; demo_param] :: tr) demo_started
     = Some w /\
     calls w !! 0%nat = Some c /\ c_pc c = CReturned None).
Proof.
  assert (reachable (ext := demo) demo_started) as Hr
    by (exists [demo_start]; vm_compute; reflexivity).
  assert (Forall (quiet_event 0) two_submit_schedule) as Hq
    by (repeat constructor).
  assert (Forall (fun p => Difficulty p <> 0) [demo_valid_param; demo_param]) as Hd
    by (repeat constructor; discriminate).
  split; [exact Hr |]. split; [exact Hq |]. split; [exact Hd |]. split.
  - do 2 eexists. split; [vm_compute; reflexivity |].
    match goal with
    | |- calls ?w !! _ = Some _ /\ _ =>
        assert (run (ext := demo)
                  (EvSubmitHashes [demo_valid_param; demo_param] :: two_submit_schedule)
                  demo_started = Some w) as Hrun by (vm_compute; reflexivity)
    end.
    split; [vm_compute; reflexivity |]. split; [vm_compute; reflexivity |].
    split; [vm_compute; reflexivity |]. split; [vm_compute; reflexivity |].
    split; [vm_compute; reflexivity |].
    match goal with
    | |- MiniBlocks (session (eng ?w)) = 1 /\ res_Hashes (c_result ?c) = 2 =>
        destruct (proj1 (SubmitHashes_effect (ext := demo) demo_started
                           [demo_valid_param; demo_param] Hr)
                    two_submit_schedule w c Hrun
                    ltac:(vm_compute; reflexivity) ltac:(vm_compute; reflexivity))
          as (_ & _ & _ & _ & Hex & Hses)
    end.
    destruct (Hses Hq) as (Hm & _ & _).
    split; [rewrite Hm; vm_compute; reflexivity |].
    rewrite Hex; [vm_compute; reflexivity |].
    apply (alwaysb_sound (no_overlapb 0)); [apply no_overlapb_sound |].
    vm_compute. reflexivity.
  - destruct (proj2 (SubmitHashes_effect (ext := demo) demo_started
                       [demo_valid_param; demo_param] Hr)
                eq_refl ltac:(vm_compute; reflexivity) ltac:(vm_compute; discriminate) Hd
                {| chan_cap := 2; chan_len := 0 |} eq_refl ltac:(simpl; lia))
      as (tr & w & c & _ & Hrun & Hk & _ & Hpc).
    exists tr, w, c. auto.
Defined.

(** * Properties of the rest of the package *)

(** ** Port *)

Lemma pretty_N_char_no_colon (x : N) : pretty_N_char x <> ":"%char.
Proof. unfold pretty_N_char. repeat case_match; discriminate. Qed.

Lemma pretty_N_go_no_colon (x : N) :
  forall s, ":"%char ∉ String.list_ascii_of_string s ->
  ":"%char ∉ String.list_ascii_of_string (pretty_N_go x s).
Proof.
  induction (N.lt_wf_0 x) as [x _ IH]. intros s Hs.
  destruct (decide (x = 0%N)) as [-> | Hx]; [exact Hs |].
  rewrite pretty_N_go_step by lia. apply IH.
  - apply N.div_lt; lia.
  - simpl. rewrite elem_of_cons. intros [Heq | Hin]; [| exact (Hs Hin)].
    exact (pretty_N_char_no_colon _ (eq_sym Heq)).
Qed.

Lemma pretty_Z_no_colon (p : Z) :
  0 <= p -> ":"%char ∉ String.list_ascii_of_string (pretty p).
Proof.
  intros Hp. destruct p as [| q | q]; [| | lia].
  - simpl. rewrite elem_of_cons, elem_of_nil. intros [[=] | []].
  - unfold pretty, pretty_Z, pretty, pretty_positive, pretty, pretty_N.
    destruct (decide (N.pos q = 0%N)); [discriminate |].
    apply pretty_N_go_no_colon. simpl. apply not_elem_of_nil.
Qed.

Lemma TrimRight_none (s : string) (cutset : list ascii) :
  Forall (fun c => c ∉ cutset) (String.list_ascii_of_string s) ->
  TrimRight s cutset = s.
Proof.
  induction s as [| c s IH]; simpl; [reflexivity |].
  intros H. inversion H as [| ? ? Hc Hs]; subst. rewrite (IH Hs).
  destruct s; [| reflexivity].
  rewrite bool_decide_eq_false_2 by exact Hc. reflexivity.
Qed.

Lemma Trim_port (s : string) :
  ":"%char ∉ String.list_ascii_of_string s -> Trim (":" +:+ s) ":" = s.
Proof.
  intros Hs. unfold Trim.
  assert (":"%char ∈ String.list_ascii_of_string ":") as Hin
    by (apply list_elem_of_singleton; reflexivity).
  assert (Forall (fun c => c ∉ String.list_ascii_of_string ":")
            (String.list_ascii_of_string s)) as Hall.
  { apply Forall_forall. intros c Hc Hc'. apply list_elem_of_singleton in Hc'.
    subst c. exact (Hs Hc). }
  set (cut := String.list_ascii_of_string ":") in *.
  change (":" +:+ s) with (String ":" s). cbn [TrimRight].
  rewrite (TrimRight_none s _ Hall).
  destruct s as [| c s].
  - rewrite bool_decide_eq_true_2 by exact Hin. reflexivity.
  - cbn [TrimLeft]. rewrite bool_decide_eq_true_2 by exact Hin.
    inversion Hall as [| ? ? Hc _]; subst.
    rewrite bool_decide_eq_false_2 by exact Hc. reflexivity.
Qed.

(** X1.  [SetPort] then [GetPort]: a port from 1 to 65535 is stored and read back
    as its decimal digits, without the colon it is kept with; any other
    number is refused and the engine, its port with it, stays as it was. *)
Theorem SetPort_GetPort (p : Z) (e : EPOCH) :
  (1 <= p <= 65535 ->
   (SetPort p e).2 = None /\ GetPort (SetPort p e).1 = pretty p /\
   (SetPort p e).1 = set_port (":" +:+ pretty p) e) /\
  (p < 1 \/ 65535 < p ->
   SetPort p e = (e, Some ErrInvalidPort) /\ GetPort (SetPort p e).1 = GetPort e).
Proof.
  unfold SetPort. split.
  - intros Hp. destruct (Z.ltb_spec p 1); [lia |]. destruct (Z.gtb_spec p 65535); [lia |].
    simpl. split; [reflexivity |]. split; [| reflexivity].
    unfold GetPort. simpl. apply Trim_port, pretty_Z_no_colon. lia.
  - intros Hp. destruct (Z.ltb_spec p 1); simpl; [split; reflexivity |].
    destruct (Z.gtb_spec p 65535); [split; reflexivity | lia].
Qed.

Lemma SetPort_GetPort_witness :
  1 <= 8080 <= 65535 /\ GetPort (SetPort 8080 (init (ext := demo))).1 = "8080" /\
  (70000 < 1 \/ 65535 < 70000) /\
  GetPort (SetPort 70000 (init (ext := demo))).1 = "10100".
Proof.
  split; [lia |]. split.
  - exact (proj1 (proj2 (proj1 (SetPort_GetPort 8080 (init (ext := demo)))
                           ltac:(lia)))).
  - split; [lia |].
    rewrite (proj2 (proj2 (SetPort_GetPort 70000 (init (ext := demo))) ltac:(lia))).
    vm_compute. reflexivity.
Defined.

(** ** Hex decoding and encoding *)

Lemma hex_Decode_from_panic_iff (m : nat) :
  forall (i : nat) (dst src : list Z),
  (length dst - i = m)%nat ->
  hex_Decode_from i dst src = DecodePanic <->
  (2 * m + 2 <= length src)%nat /\
  Forall (fun b => reverseHexTable b <= 15) (take (2 * m + 2) src).
Proof.
  induction m as [| m IH]; intros i dst src Hm.
  - destruct src as [| p [| q rest]]; simpl.
    + split; [discriminate | intros [H _]; cbn [length] in H; lia].
    + split; [destruct (reverseHexTable p >? 15); discriminate
             | intros [H _]; cbn [length] in H; lia].
    + destruct (Z.gtb_spec (reverseHexTable p) 15) as [Hp | Hp].
      { split; [discriminate |]. intros [_ H].
        inversion H as [| ? ? Hp' _]; subst. lia. }
      destruct (Z.gtb_spec (reverseHexTable q) 15) as [Hq | Hq].
      { split; [discriminate |]. intros [_ H].
        inversion H as [| ? ? _ H']; subst. inversion H' as [| ? ? Hq' _]; subst. lia. }
      destruct (Nat.ltb_spec i (length dst)); [lia |].
      split; [intros _ | reflexivity].
      split; [lia |]. repeat constructor; assumption.
  - assert (forall (p q : Z) (rest : list Z), take (2 * S m + 2) (p :: q :: rest)
                             = p :: q :: take (2 * m + 2) rest) as Htake.
    { intros p q rest. replace (2 * S m + 2)%nat with (S (S (2 * m + 2))) by lia.
      reflexivity. }
    destruct src as [| p [| q rest]]; cbn [hex_Decode_from].
    + split; [discriminate | intros [H _]; cbn [length] in H; lia].
    + split; [destruct (reverseHexTable p >? 15); discriminate
             | intros [H _]; cbn [length] in H; lia].
    + rewrite Htake. cbn [length].
      destruct (Z.gtb_spec (reverseHexTable p) 15) as [Hp | Hp].
      { split; [discriminate |]. intros [_ H].
        inversion H as [| ? ? Hp' _]; subst. lia. }
      destruct (Z.gtb_spec (reverseHexTable q) 15) as [Hq | Hq].
      { split; [discriminate |]. intros [_ H].
        inversion H as [| ? ? _ H']; subst. inversion H' as [| ? ? Hq' _]; subst. lia. }
      destruct (Nat.ltb_spec i (length dst)); [| lia].
      rewrite (IH (S i) (<[i := Z.lor (Z.shiftl (reverseHexTable p) 4)
                                     (reverseHexTable q)]> dst) rest)
        by (rewrite length_insert; lia).
      split.
      * intros [Hlen Hall]. split; [lia |].
        constructor; [exact Hp |]. constructor; [exact Hq | exact Hall].
      * intros [Hlen Hall]. split; [lia |].
        inversion Hall as [| ? ? _ H']; subst.
        inversion H' as [| ? ? _ H'']; subst. exact H''.
Qed.

(** [hex.Decode] panics exactly when the source starts with one more pair
    of valid hex digits than the destination has bytes; on every other
    source it returns, with a count and possibly an error. *)
Lemma hex_Decode_panics_iff (dst src : list Z) :
  hex_Decode dst src = DecodePanic <->
  (2 * length dst + 2 <= length src)%nat /\
  Forall (fun b => reverseHexTable b <= 15) (take (2 * length dst + 2) src).
Proof.
  unfold hex_Decode. apply hex_Decode_from_panic_iff. lia.
Qed.

Lemma bytes_of_string_of_list (l : list ascii) :
  bytes_of_string (String.string_of_list_ascii l)
  = (fun c => Z.of_N (Ascii.N_of_ascii c)) <$> l.
Proof.
  unfold bytes_of_string. rewrite String.list_ascii_of_string_of_list_ascii. reflexivity.
Qed.

Lemma bytes_of_Sprintf_x_cons (b : Z) (bs : list Z) :
  bytes_of_string (Sprintf_x (b :: bs))
  = Z.of_N (Ascii.N_of_ascii (hex_digit (b / 16)))
    :: Z.of_N (Ascii.N_of_ascii (hex_digit (b mod 16)))
    :: bytes_of_string (Sprintf_x bs).
Proof. unfold Sprintf_x. rewrite !bytes_of_string_of_list. reflexivity. Qed.

Lemma hex_digit_back (n : Z) :
  0 <= n < 16 -> reverseHexTable (Z.of_N (Ascii.N_of_ascii (hex_digit n))) = n.
Proof.
  intros Hn.
  assert (exists k : nat, (k < 16)%nat /\ n = Z.of_nat k) as (k & Hk & ->)
    by (exists (Z.to_nat n); lia).
  do 16 (destruct k as [| k]; [vm_compute; reflexivity |]). lia.
Qed.

Lemma byte_join (b : Z) :
  0 <= b < 256 -> Z.lor (Z.shiftl (b / 16) 4) (b mod 16) = b.
Proof.
  intros Hb.
  assert (forallb (fun b => Z.lor (Z.shiftl (b / 16) 4) (b mod 16) =? b) (seqZ 0 256)
          = true) as Hall by (vm_compute; reflexivity).
  rewrite forallb_forall in Hall. apply Z.eqb_eq, Hall.
  apply list_elem_of_In, elem_of_seqZ. lia.
Qed.

(** Decoding what [fmt.Sprintf("%x", bs)] wrote gives [bs] back. *)
Lemma hex_Decode_from_Sprintf_x (bs : list Z) :
  Forall (fun b => 0 <= b < 256) bs ->
  forall (i : nat) (dst : list Z),
  (i + length bs <= length dst)%nat ->
  hex_Decode_from i dst (bytes_of_string (Sprintf_x bs))
  = Decoded (take i dst ++ bs ++ drop (i + length bs) dst) (i + length bs) None.
Proof.
  induction 1 as [| b bs Hb Hbs IH]; intros i dst Hlen.
  - simpl. rewrite Nat.add_0_r, take_drop. reflexivity.
  - rewrite bytes_of_Sprintf_x_cons. cbn [hex_Decode_from length] in *.
    assert (0 <= b / 16 < 16) as Hhi
      by (split; [apply Z.div_pos | apply Z.div_lt_upper_bound]; lia).
    assert (0 <= b mod 16 < 16) as Hlo by (apply Z.mod_pos_bound; lia).
    rewrite !hex_digit_back by assumption.
    destruct (Z.gtb_spec (b / 16) 15); [lia |].
    destruct (Z.gtb_spec (b mod 16) 15); [lia |].
    destruct (Nat.ltb_spec i (length dst)); [| lia].
    rewrite byte_join by exact Hb.
    rewrite IH by (rewrite length_insert; lia).
    assert (<[i := b]> dst !! i = Some b) as Hi
      by (apply list_lookup_insert_eq; lia).
    rewrite (take_S_r _ _ _ Hi), take_insert_ge by lia.
    rewrite drop_insert_lt by lia.
    rewrite <- app_assoc. simpl.
    replace (S (i + length bs)) with (i + S (length bs))%nat by lia.
    reflexivity.
Qed.

Lemma reverseHexTable_range (c : Z) : 0 <= reverseHexTable c <= 255.
Proof.
  unfold reverseHexTable.
  destruct (Z.leb_spec 48 c), (Z.leb_spec c 57), (Z.leb_spec 97 c), (Z.leb_spec c 102),
    (Z.leb_spec 65 c), (Z.leb_spec c 70); simpl; lia.
Qed.

Lemma nibbles_join_range (a b : Z) :
  0 <= a <= 15 -> 0 <= b <= 15 -> 0 <= Z.lor (Z.shiftl a 4) b < 256.
Proof.
  intros Ha Hb.
  assert (forallb (fun a => forallb (fun b =>
            (0 <=? Z.lor (Z.shiftl a 4) b) && (Z.lor (Z.shiftl a 4) b <? 256))
            (seqZ 0 16)) (seqZ 0 16) = true) as Hall by (vm_compute; reflexivity).
  rewrite forallb_forall in Hall.
  assert (In a (seqZ 0 16)) as Hina by (apply list_elem_of_In, elem_of_seqZ; lia).
  specialize (Hall a Hina). rewrite forallb_forall in Hall.
  assert (In b (seqZ 0 16)) as Hinb by (apply list_elem_of_In, elem_of_seqZ; lia).
  specialize (Hall b Hinb). apply andb_prop in Hall as [H1 H2].
  apply Z.leb_le in H1. apply Z.ltb_lt in H2. lia.
Qed.

(** What the decoder has done when it reports no error: it read an even
    number of valid digits, one byte for each pair. *)
Lemma hex_Decode_from_ok (src : list Z) :
  forall (i : nat) (dst d : list Z) (n : nat),
  hex_Decode_from i dst src = Decoded d n None ->
  (i <= n)%nat /\ length src = (2 * (n - i))%nat /\
  Forall (fun b => reverseHexTable b <= 15) src.
Proof.
  induction src as [src IH] using (induction_ltof1 _ (@length Z)).
  intros i dst d n. destruct src as [| p [| q rest]]; cbn [hex_Decode_from].
  - intros [= _ <-]. split; [lia |]. split; [simpl; lia | constructor].
  - destruct (_ >? 15); discriminate.
  - destruct (Z.gtb_spec (reverseHexTable p) 15); [discriminate |].
    destruct (Z.gtb_spec (reverseHexTable q) 15); [discriminate |].
    destruct (i <? length dst)%nat; [| discriminate].
    intros Hd. apply IH in Hd as (Hle & Hlen & Hall); [| unfold ltof; simpl; lia].
    split; [lia |]. split; [cbn [length]; lia |].
    constructor; [lia |]. constructor; [lia | exact Hall].
Qed.

Lemma hex_Decode_from_bytes (src : list Z) :
  forall (i : nat) (dst d : list Z) (n : nat) (err : option hex_error),
  hex_Decode_from i dst src = Decoded d n err ->
  Forall (fun b => 0 <= b < 256) dst -> Forall (fun b => 0 <= b < 256) d.
Proof.
  induction src as [src IH] using (induction_ltof1 _ (@length Z)).
  intros i dst d n err. destruct src as [| p [| q rest]]; cbn [hex_Decode_from].
  - intros [= <- _ _] Hdst. exact Hdst.
  - destruct (_ >? 15); intros [= <- _ _] Hdst; exact Hdst.
  - destruct (Z.gtb_spec (reverseHexTable p) 15); [intros [= <- _ _] Hdst; exact Hdst |].
    destruct (Z.gtb_spec (reverseHexTable q) 15); [intros [= <- _ _] Hdst; exact Hdst |].
    destruct (i <? length dst)%nat; [| discriminate].
    intros Hd Hdst. apply IH in Hd; [exact Hd | unfold ltof; simpl; lia |].
    apply Forall_insert; [exact Hdst |].
    pose proof (reverseHexTable_range p). pose proof (reverseHexTable_range q).
    apply nibbles_join_range; lia.
Qed.

Lemma insert_last_take {A : Type} (l : list A) (n : nat) (x : A) :
  length l = S n -> <[n := x]> l = take n l ++ [x].
Proof.
  intros Hl. rewrite insert_take_drop by lia.
  rewrite (drop_ge l (S n)) by lia. reflexivity.
Qed.

Section WorkFacts.
Context {ext : Externals}.

Lemma powHash_panic_blob (random_buf : list Z) (e : EPOCH) :
  powHash random_buf e = Panic <->
  (98 <= length (bytes_of_string (rpc.Blockhashing_blob (getJob e))))%nat /\
  Forall (fun b => reverseHexTable b <= 15)
    (take 98 (bytes_of_string (rpc.Blockhashing_blob (getJob e)))).
Proof.
  pose proof (hex_Decode_panics_iff (replicate MINIBLOCK_SIZE 0)
                (bytes_of_string (rpc.Blockhashing_blob (getJob e)))) as Hiff.
  rewrite length_replicate in Hiff.
  change (2 * MINIBLOCK_SIZE + 2)%nat with 98%nat in Hiff.
  rewrite <- Hiff. unfold powHash.
  destruct (hex_Decode _ _) as [| work n err].
  - split; reflexivity.
  - split; [| discriminate].
    destruct (_ || _); [discriminate |]. destruct (bool_decide _); discriminate.
Qed.

(** X2.  [powHash] panics exactly when the hashing blob of the current job
    starts with 98 valid hex digits, one byte more than the work buffer
    holds; on every other blob it returns, with or without an error. *)
Theorem powHash_panics_iff (random_buf : list Z) (e : EPOCH) :
  powHash random_buf e = Panic <->
  (98 <= length (bytes_of_string (rpc.Blockhashing_blob (getJob e))))%nat /\
  Forall (fun b => reverseHexTable b <= 15)
    (take 98 (bytes_of_string (rpc.Blockhashing_blob (getJob e)))).
Proof. exact (powHash_panic_blob random_buf e). Qed.

(** X3.  What a [powHash] without error hands back: the blob was 96 valid hex
    digits; the work buffer is its first 36 decoded bytes, then the first 11
    of the 12 random bytes, then the byte 1 (written over the last random
    byte); the low four bits of its first byte are the version 1; the hash
    is [AstroBWTv3] of that buffer; job and difficulty are the current
    job's. *)
Theorem powHash_work_layout (random_buf : list Z) (e : EPOCH) (r : powHash_ret) :
  powHash random_buf e = Ret r -> ph_err r = None -> length random_buf = 12%nat ->
  exists decoded,
    hex_Decode (replicate MINIBLOCK_SIZE 0)
      (bytes_of_string (rpc.Blockhashing_blob (getJob e)))
    = Decoded decoded MINIBLOCK_SIZE None /\
    length (bytes_of_string (rpc.Blockhashing_blob (getJob e))) = 96%nat /\
    Forall (fun b => reverseHexTable b <= 15)
      (bytes_of_string (rpc.Blockhashing_blob (getJob e))) /\
    ph_work r = take 36 decoded ++ take 11 random_buf ++ [1] /\
    length (ph_work r) = MINIBLOCK_SIZE /\
    (exists b0, ph_work r !! 0%nat = Some b0 /\ Z.land b0 15 = 1) /\
    (Forall (fun b => 0 <= b < 256) random_buf ->
     Forall (fun b => 0 <= b < 256) (ph_work r)) /\
    ph_powhash r = AstroBWTv3 (ph_work r) /\
    ph_job r = getJob e /\
    ph_diff r = big_SetString (rpc.Difficulty (getJob e)).
Proof.
  intros Hpow Herr Hrand. unfold powHash in Hpow.
  destruct (hex_Decode _ _) as [| decoded n err] eqn:Hdec; [discriminate |].
  destruct (bool_decide (err <> None)) eqn:He.
  { simpl in Hpow. injection Hpow as <-. discriminate. }
  destruct (bool_decide (n <> MINIBLOCK_SIZE)) eqn:Hn.
  { simpl in Hpow. injection Hpow as <-. discriminate. }
  apply bool_decide_eq_false in He, Hn.
  assert (err = None) as -> by (destruct err; [exfalso; apply He; discriminate | reflexivity]).
  assert (n = MINIBLOCK_SIZE) as -> by (destruct (decide (n = MINIBLOCK_SIZE)); tauto).
  simpl orb in Hpow. cbv iota in Hpow.
  pose proof (hex_Decode_from_length _ _ _ _ _ _ Hdec) as Hlen.
  rewrite length_replicate in Hlen.
  pose proof (hex_Decode_from_ok _ _ _ _ _ Hdec) as (_ & Hsrc & Hvalid).
  pose proof (hex_Decode_from_bytes _ _ _ _ _ _ Hdec) as Hbytes.
  assert (take (MINIBLOCK_SIZE - 12) decoded
          ++ copy (drop (MINIBLOCK_SIZE - 12) decoded) random_buf
          = take 36 decoded ++ random_buf) as Hcopy.
  { unfold copy. rewrite length_drop, Hlen, Hrand.
    change (MINIBLOCK_SIZE - (MINIBLOCK_SIZE - 12))%nat with 12%nat.
    rewrite (take_ge random_buf 12) by lia.
    rewrite (drop_ge (drop _ decoded) 12) by (rewrite length_drop; unfold MINIBLOCK_SIZE in *; lia).
    rewrite app_nil_r. reflexivity. }
  rewrite Hcopy in Hpow.
  assert (<[(MINIBLOCK_SIZE - 1)%nat := 1]> (take 36 decoded ++ random_buf)
          = take 36 decoded ++ take 11 random_buf ++ [1]) as Hwork.
  { assert (length (take 36 decoded) = 36%nat) as H36
      by (rewrite length_take; unfold MINIBLOCK_SIZE in *; lia).
    rewrite insert_app_r_alt by (rewrite H36; unfold MINIBLOCK_SIZE; lia).
    rewrite H36. change (MINIBLOCK_SIZE - 1 - 36)%nat with 11%nat.
    rewrite insert_last_take by exact Hrand. reflexivity. }
  rewrite Hwork in Hpow.
  set (work := take 36 decoded ++ take 11 random_buf ++ [1]) in *.
  assert (exists b0, decoded !! 0%nat = Some b0) as [b0 Hb0]
    by (apply lookup_lt_is_Some_2; unfold MINIBLOCK_SIZE in *; lia).
  assert (work !! 0%nat = Some b0) as Hw0.
  { unfold work. rewrite lookup_app_l by (rewrite length_take; unfold MINIBLOCK_SIZE in *; lia).
    rewrite lookup_take_lt by lia. exact Hb0. }
  rewrite Hw0 in Hpow. simpl default in Hpow.
  destruct (bool_decide (Z.land b0 15 <> 1)) eqn:Hv.
  { injection Hpow as <-. discriminate. }
  apply bool_decide_eq_false in Hv.
  injection Hpow as <-. simpl.
  exists decoded. split; [reflexivity |].
  split; [rewrite Hsrc; reflexivity |]. split; [exact Hvalid |].
  split; [reflexivity |].
  split.
  { unfold work. rewrite !length_app, !length_take, Hlen, Hrand. reflexivity. }
  split.
  { exists b0. split; [exact Hw0 |]. destruct (decide (Z.land b0 15 = 1)); tauto. }
  split.
  { intros Hr. unfold work. apply Forall_app. split.
    - apply Forall_take, Hbytes, Forall_replicate. lia.
    - apply Forall_app. split; [apply Forall_take, Hr |]. repeat constructor; lia. }
  repeat split; reflexivity.
Qed.

(** X4.  What [submitBlock] sends: a message goes out exactly when the
    connection is active and the hash meets the difficulty; the block
    counts as valid exactly when that message was written, and never
    together with an error; the message carries the job id and 96 hex
    digits that decode back to the 48 bytes of the work buffer. *)
Theorem submitBlock_message (write_ok : bool) (job : rpc.GetBlockTemplate_Result)
    (powhash work : list Z) (diff : Z) (e : EPOCH)
    (valid : bool) (err : option error) (msg : option rpc.SubmitBlock_Params) :
  submitBlock write_ok job powhash work diff e = (valid, err, msg) ->
  (msg <> None <-> IsActive e = true /\ CheckPowHashBig powhash diff = true) /\
  (valid = true <-> msg <> None /\ write_ok = true) /\
  (valid = true -> err = None) /\
  (IsActive e = false -> err = Some ErrConnectionClosed) /\
  (forall m, msg = Some m ->
     length work = MINIBLOCK_SIZE -> Forall (fun b => 0 <= b < 256) work ->
     rpc.sb_JobID m = rpc.JobID job /\
     hex_Decode (replicate MINIBLOCK_SIZE 0)
       (bytes_of_string (rpc.MiniBlockhashing_blob m))
     = Decoded work MINIBLOCK_SIZE None).
Proof.
  unfold submitBlock.
  destruct (IsActive e); simpl; [| intros [= <- <- <-]].
  2: { repeat split; try discriminate; try tauto; intros; try discriminate; intuition discriminate. }
  destruct (CheckPowHashBig powhash diff); [| intros [= <- <- <-]].
  2: { repeat split; try discriminate; try tauto; intros; try discriminate; intuition discriminate. }
  assert (forall m : rpc.SubmitBlock_Params,
            m = {| rpc.sb_JobID := rpc.JobID job;
                   rpc.MiniBlockhashing_blob := Sprintf_x work |} ->
            length work = MINIBLOCK_SIZE -> Forall (fun b => 0 <= b < 256) work ->
            rpc.sb_JobID m = rpc.JobID job /\
            hex_Decode (replicate MINIBLOCK_SIZE 0)
              (bytes_of_string (rpc.MiniBlockhashing_blob m))
            = Decoded work MINIBLOCK_SIZE None) as Hback.
  { intros m -> Hlen Hbytes. split; [reflexivity |].
    cbn [rpc.MiniBlockhashing_blob]. unfold hex_Decode.
    rewrite hex_Decode_from_Sprintf_x;
      [| exact Hbytes | rewrite length_replicate; lia].
    rewrite Nat.add_0_l, Hlen, drop_ge by (rewrite length_replicate; lia).
    rewrite app_nil_r. reflexivity. }
  destruct write_ok; intros [= <- <- <-].
  - split; [split; [tauto | discriminate] |].
    split; [split; [intros _; split; [discriminate | reflexivity] | reflexivity] |].
    split; [reflexivity |]. split; [discriminate |].
    intros m [= <-]. apply Hback. reflexivity.
  - split; [split; [tauto | discriminate] |].
    split; [split; [discriminate | intros [_ H]; discriminate] |].
    split; [discriminate |]. split; [discriminate |].
    intros m [= <-]. apply Hback. reflexivity.
Qed.

End WorkFacts.

Lemma powHash_panics_iff_witness :
  powHash (ext := demo) (replicate 12 7) (set_jobs_job (demo_job blob49) (eng demo_started))
  = Panic /\
  powHash (ext := demo) (replicate 12 7) (set_jobs_job (demo_job blob48) (eng demo_started))
  <> Panic.
Proof.
  split.
  - apply (proj2 (powHash_panics_iff (ext := demo) (replicate 12 7)
                    (set_jobs_job (demo_job blob49) (eng demo_started)))).
    split; [vm_compute; lia |].
    apply (bool_decide_unpack _). vm_compute. exact I.
  - intros H.
    apply (proj1 (powHash_panics_iff (ext := demo) (replicate 12 7)
                    (set_jobs_job (demo_job blob48) (eng demo_started)))) in H.
    destruct H as [H _]. vm_compute in H. lia.
Defined.

Lemma powHash_work_layout_witness :
  exists r,
    powHash (ext := demo) (replicate 12 7)
      (set_jobs_job (demo_job blob48) (eng demo_started)) = Ret r /\
    ph_err r = None /\ length (replicate 12 7 : list Z) = 12%nat /\
    length (ph_work r) = MINIBLOCK_SIZE.
Proof.
  destruct (powHash_exact_blob_ok (ext := demo) (eng demo_started)) as (r & Hr & Herr).
  exists r. split; [exact Hr |]. split; [exact Herr |]. split; [reflexivity |].
  destruct (powHash_work_layout (ext := demo) _ _ r Hr Herr eq_refl)
    as (d & _ & _ & _ & _ & Hlen & _).
  exact Hlen.
Defined.

Lemma submitBlock_message_witness :
  let m := {| rpc.sb_JobID := rpc.JobID (demo_job blob48);
              rpc.MiniBlockhashing_blob := Sprintf_x (replicate 48 7) |} in
  submitBlock (ext := demo) true (demo_job blob48) (replicate 32 0) (replicate 48 7) 1
    (eng demo_started) = (true, None, Some m) /\
  hex_Decode (replicate MINIBLOCK_SIZE 0) (bytes_of_string (rpc.MiniBlockhashing_blob m))
  = Decoded (replicate 48 7) MINIBLOCK_SIZE None.
Proof.
  intros m.
  assert (submitBlock (ext := demo) true (demo_job blob48) (replicate 32 0)
            (replicate 48 7) 1 (eng demo_started) = (true, None, Some m)) as H
    by (vm_compute; reflexivity).
  split; [exact H |].
  destruct (submitBlock_message (ext := demo) _ _ _ _ _ _ _ _ _ H) as (_ & _ & _ & _ & Hm).
  apply (Hm m eq_refl); [reflexivity |].
  apply Forall_replicate. lia.
Defined.

(** ** Session and job polling *)

Section PollFacts.
Context {ext : Externals}.

(** X5.  [GetSession] hands back the session as it is at the first poll at
    which the engine is not processing; it reports the timeout, with the
    zero session, exactly when the engine is processing at every poll made
    before the timer fires. *)
Theorem GetSession_first_idle (polls : list EPOCH) :
  (forall before e after,
     polls = before ++ e :: after ->
     Forall (fun e => IsProcessing e = true) before -> IsProcessing e = false ->
     GetSession polls = (session e, None)) /\
  (Forall (fun e => IsProcessing e = true) polls <->
   GetSession polls = (session_zero, Some ErrSessionTimeout)) /\
  (Exists (fun e => IsProcessing e = false) polls <-> (GetSession polls).2 = None).
Proof.
  split; [| split].
  - intros before e after -> Hb He. induction Hb as [| e0 before H0 _ IH]; simpl.
    + rewrite He. reflexivity.
    + rewrite H0. exact IH.
  - induction polls as [| e polls IH]; simpl.
    + split; [reflexivity | constructor].
    + destruct (IsProcessing e) eqn:He; simpl.
      * rewrite <- IH. split; [intros H; inversion H; assumption | intros H; constructor; assumption].
      * split; [intros H; inversion H; congruence | discriminate].
  - induction polls as [| e polls IH]; simpl.
    + split; [intros H; inversion H | discriminate].
    + destruct (IsProcessing e) eqn:He; simpl.
      * rewrite <- IH. split; [intros H; inversion H; [congruence | assumption]
                              | intros H; right; exact H].
      * split; [reflexivity | intros _; left; exact He].
Qed.

(** X6.  [JobIsReady] panics on a timeout that is not positive, the ticker
    refusing it; otherwise it returns without error exactly when some poll
    made before the ticker fires finds a job with a job id, and with its
    error when none does.  It never looks at the connection. *)
Theorem JobIsReady_cases (timeout : Z) (polls : list EPOCH) :
  (timeout <= 0 -> JobIsReady timeout polls = Panic) /\
  (0 < timeout ->
   (Exists (fun e => rpc.JobID (getJob e) <> "") polls <->
    JobIsReady timeout polls = Ret None) /\
   (Forall (fun e => rpc.JobID (getJob e) = "") polls <->
    JobIsReady timeout polls = Ret (Some (ErrCouldNotGetJob timeout))) /\
   JobIsReady timeout polls = JobIsReady timeout (set_conn_ws None <$> polls)).
Proof.
  unfold JobIsReady. split.
  - intros H. destruct (Z.leb_spec timeout 0); [reflexivity | lia].
  - intros H. destruct (Z.leb_spec timeout 0); [lia |]. split; [| split].
    + induction polls as [| e polls IH]; simpl.
      * split; [intros He; inversion He | discriminate].
      * unfold getJob in *. destruct (decide (rpc.JobID (jobs_job e) = "")) as [Hid | Hid].
        -- rewrite bool_decide_eq_false_2 by tauto. rewrite <- IH.
           split; [intros He; inversion He; [contradiction | assumption]
                  | intros He; right; exact He].
        -- rewrite bool_decide_eq_true_2 by exact Hid.
           split; [reflexivity | intros _; left; exact Hid].
    + induction polls as [| e polls IH]; simpl.
      * split; [reflexivity | constructor].
      * unfold getJob in *. destruct (decide (rpc.JobID (jobs_job e) = "")) as [Hid | Hid].
        -- rewrite bool_decide_eq_false_2 by tauto. rewrite <- IH.
           split; [intros He; inversion He; assumption | intros He; constructor; assumption].
        -- rewrite bool_decide_eq_true_2 by exact Hid.
           split; [intros He; inversion He; contradiction | discriminate].
    + f_equal. induction polls as [| e polls IH]; simpl; [reflexivity |].
      rewrite IH. reflexivity.
Qed.

End PollFacts.

Lemma JobIsReady_cases_witness :
  0 <= 0 /\ JobIsReady 0 [init (ext := demo)] = Panic /\
  0 < 5 /\
  JobIsReady 5 [init (ext := demo); (newJob (demo_job blob48) (init (ext := demo))).1]
  = Ret None.
Proof.
  split; [lia |].
  split; [apply (proj1 (JobIsReady_cases 0 [init (ext := demo)])); lia |].
  split; [lia |].
  apply (proj1 (proj2 (JobIsReady_cases 5 _) ltac:(lia))).
  right. left. discriminate.
Defined.

Lemma GetSession_first_idle_witness :
  GetSession [setProcessing true (eng demo_started); eng demo_started]
  = (session (eng demo_started), None).
Proof.
  apply (proj1 (GetSession_first_idle _) [setProcessing true (eng demo_started)]
           (eng demo_started) []); [reflexivity | | reflexivity].
  repeat constructor.
Defined.

(** ** What every reachable state keeps *)

Section ReachFacts.
Context {ext : Externals}.

(** The three ways a step of a caller touches the engine. *)
Lemma call_step_eng (clock : Z) (c c' : call) (e e' : EPOCH) :
  call_step clock c e = Some (c', e') ->
  (e' = e /\ c_pc c = CLoop /\ (c_pc c' = CAcquire \/ c_pc c' = CWait)) \/
  (c_pc c = CAcquire /\ c_pc c' = CLoop /\
   exists ch, semaphore e = Some ch /\ chan_len ch < chan_cap ch /\
     e' = set_semaphore (Some {| chan_cap := chan_cap ch; chan_len := chan_len ch + 1 |}) e) \/
  (c_pc c = CWait /\ c_pc c' = CReturned None /\ (c', e') = finish clock c e).
Proof.
  unfold call_step. destruct (c_pc c) eqn:Hpc.
  - destruct (loop_cond c); [destruct (res_Error _) |]; intros [= <- <-];
      left; (split; [reflexivity |]); (split; [reflexivity | simpl; auto]).
  - destruct (acquire e) as [e1 |] eqn:Hacq; [| discriminate].
    apply acquire_spec in Hacq as (ch & Hsem & Hlt & ->).
    destruct (c_kind c); [| destruct (_ !! _); [| discriminate]]; intros [= <- <-];
      right; left; (split; [reflexivity |]); (split; [reflexivity |]);
      exists ch; auto.
  - destruct (forallb task_done (c_tasks c)); [| discriminate].
    intros [= <- <-]. right. right. split; [reflexivity |]. split; reflexivity.
  - discriminate.
Qed.

(** The two ways a step of a goroutine touches it. *)
Lemma task_step_eng (io : task_io) (tk tk' : task) (c c' : call) (e e' : EPOCH)
    (out out' : list rpc.SubmitBlock_Params) :
  task_step io tk c e out = Some (Ret (tk', c', e', out')) ->
  e' = e \/
  exists ch, semaphore e = Some ch /\ 0 < chan_len ch /\
    e' = set_semaphore (Some {| chan_cap := chan_cap ch; chan_len := chan_len ch - 1 |}) e.
Proof.
  intros H. apply task_step_semaphore in H as (_ & _ & _ & _ & _ & _ & Hcase).
  destruct Hcase as [(-> & _) | (_ & _ & _ & _ & _ & ch & Hs & Hl & ->)];
    [left; reflexivity | right; exists ch; auto].
Qed.

Lemma finish_eng (clock : Z) (c : call) (e : EPOCH) :
  conn_ws (finish clock c e).2 = conn_ws e /\
  jobs_job (finish clock c e).2 = jobs_job e /\
  port (finish clock c e).2 = port e /\
  address (finish clock c e).2 = address e /\
  maxHashes (finish clock c e).2 = maxHashes e /\
  maxThreads (finish clock c e).2 = maxThreads e /\
  semaphore (finish clock c e).2 = semaphore e /\
  processing (finish clock c e).2 = false.
Proof. unfold finish. destruct (c_kind c); simpl; repeat split; reflexivity. Qed.

(** How [StartGetWork] leaves the fields it does not reset. *)
Lemma StartGetWork_frame (addr endpoint : string) (dial : option nat)
    (e e' : EPOCH) (err : option error) :
  StartGetWork addr endpoint dial e = Ret (e', err) ->
  port e' = port e /\ jobs_job e' = jobs_job e /\ processing e' = processing e /\
  (address e' = address e \/
   address e' = addr /\ addr <> "" /\ ParseValidateAddress addr = true) /\
  match err with
  | None => ParseValidateAddress (address e') = true /\ IsActive e' = true /\
            (exists ws, dial = Some ws /\ conn_ws e' = Some ws)
  | Some _ => conn_ws e' = conn_ws e
  end.
Proof.
  unfold StartGetWork. destruct (IsActive e) eqn:Hact.
  { intros [= <- <-]. repeat split; auto. }
  assert (conn_ws e = None) as Hnone.
  { unfold IsActive in Hact. apply bool_decide_eq_false in Hact.
    destruct (conn_ws e); [exfalso; apply Hact; discriminate | reflexivity]. }
  destruct (SplitHostPort endpoint); [| intros [= <- <-]; repeat split; auto].
  assert ((exists e1, (if bool_decide (addr <> "") then SetAddress addr e else (e, None))
                     = (e1, None : option error) /\
                     port e1 = port e /\ jobs_job e1 = jobs_job e /\
                     processing e1 = processing e /\ conn_ws e1 = conn_ws e /\
                     semaphore e1 = semaphore e /\ session e1 = session e /\
                     maxThreads e1 = maxThreads e /\
                     (address e1 = address e \/
                      address e1 = addr /\ addr <> "" /\ ParseValidateAddress addr = true))
          \/ (if bool_decide (addr <> "") then SetAddress addr e else (e, None))
             = (e, Some ErrInvalidAddress)) as Hset.
  { destruct (bool_decide (addr <> "")) eqn:Ha.
    - apply bool_decide_eq_true in Ha. unfold SetAddress.
      destruct (ParseValidateAddress addr) eqn:Hv.
      + left. exists (set_address addr e). simpl. repeat split; auto.
      + right. reflexivity.
    - left. exists e. repeat split; auto. }
  destruct Hset as [(e1 & -> & Hp & Hj & Hpr & Hc & Hsem & Hses & Hmt & Haddr) | ->];
    [| intros [= <- <-]; repeat split; auto].
  destruct (ParseValidateAddress (address e1)) eqn:Hv; simpl;
    [| intros [= <- <-]; repeat split; auto].
  destruct dial as [ws |].
  - simpl. destruct (maxThreads e1 <? 0); [discriminate |].
    intros [= <- <-]. simpl. repeat split; auto. exists ws. auto.
  - intros [= <- <-]. simpl. repeat split; auto; congruence.
Qed.

Lemma cfg_ok_same (e e' : EPOCH) :
  port e' = port e -> address e' = address e -> conn_ws e' = conn_ws e ->
  maxThreads e' = maxThreads e -> semaphore e' = semaphore e ->
  cfg_ok e -> cfg_ok e'.
Proof.
  unfold cfg_ok, IsActive. intros -> -> -> -> ->. exact id.
Qed.

Lemma cfg_ok_semaphore (e : EPOCH) (ch ch' : chan) :
  semaphore e = Some ch -> chan_cap ch' = chan_cap ch -> 0 <= chan_len ch' <= chan_cap ch' ->
  cfg_ok e -> cfg_ok (set_semaphore (Some ch') e).
Proof.
  intros Hs Hcap Hlen (Hp & Ha & Hact & Hmt & Hsem).
  split; [exact Hp |]. split; [exact Ha |].
  split; [exact Hact |].
  split; [exact Hmt |].
  simpl. intros ch0 [= <-]. split; [exact Hlen |]. rewrite Hcap.
  exact (proj2 (Hsem ch Hs)).
Qed.

Lemma cfg_ok_init : cfg_ok init.
Proof.
  split; [exists DEFAULT_WORK_PORT; split; [unfold DEFAULT_WORK_PORT; lia | reflexivity] |].
  split; [left; reflexivity |].
  split; [intros H; vm_compute in H; discriminate |].
  split; [| intros ch H; discriminate].
  intros Hcpu. unfold init, SetMaxThreads, DEFAULT_MAX_THREADS. simpl.
  destruct (Z.gtb_spec 2 NumCPU); simpl; lia.
Qed.

Lemma step_cfg_ok (ev : event) (w w' : world) :
  cfg_ok (eng w) -> step ev w = Some w' -> cfg_ok (eng w').
Proof.
  intros He. unfold step. destruct (crashed w); [discriminate |].
  event_cases ev.
  - intros [= <-]. simpl. destruct He as (Hp & Ha & Hact & Hmt & Hsem).
    split; [exact Hp |]. split; [exact Ha |]. split; [exact Hact |].
    split; [| exact Hsem].
    intros Hcpu. unfold SetMaxThreads. simpl.
    destruct (Z.gtb_spec i NumCPU); [lia |]. destruct (Z.ltb_spec i 1); lia.
  - intros [= <-]. simpl. unfold SetMaxHashes.
    destruct (_ >? _); simpl; [exact He |].
    revert He. apply cfg_ok_same; reflexivity.
  - intros [= <-]. simpl. unfold SetAddress.
    destruct (ParseValidateAddress a) eqn:Hv; simpl; [| exact He].
    destruct He as (Hp & Ha & Hact & Hmt & Hsem).
    split; [exact Hp |]. split; [right; exact Hv |].
    split; [intros _; exact Hv |].
    split; [exact Hmt | exact Hsem].
  - intros [= <-]. simpl. unfold SetPort.
    destruct (Z.ltb_spec p 1); simpl; [exact He |].
    destruct (Z.gtb_spec p 65535); simpl; [exact He |].
    destruct He as (_ & Hrest). split; [| exact Hrest].
    exists p. split; [lia | reflexivity].
  - destruct (StartGetWork _ _ _ _) as [| [e' err]] eqn:Hs; intros [= <-]; [exact He |].
    simpl.
    pose proof (StartGetWork_frame _ _ _ _ _ _ Hs) as (Hp & _ & _ & Haddr & Herr).
    pose proof (StartGetWork_cases _ _ _ _ _ _ Hs) as (_ & Hmt & _ & Hcase).
    destruct He as (Hport & Ha & Hact & Hthr & Hsem).
    split; [rewrite Hp; exact Hport |].
    split.
    { destruct Haddr as [-> | (-> & _ & Hv)]; [exact Ha | right; exact Hv]. }
    destruct err as [err |].
    + destruct Hcase as [Hs' _]. rewrite Hmt, Hs'.
      split; [| split; [exact Hthr | exact Hsem]].
      unfold IsActive in *. rewrite Herr. intros H.
      destruct Haddr as [-> | (-> & _ & Hv)]; [exact (Hact H) | exact Hv].
    + destruct Herr as (Hv & Hact' & _).
      destruct Hcase as (_ & _ & Hnn & Hs' & _). rewrite Hmt, Hs'.
      split; [intros _; exact Hv |].
      split; [exact Hthr |].
      intros ch [= <-]. simpl. split; [lia |]. exact Hthr.
  - intros [= <-]. simpl. unfold StopGetWork. destruct (IsActive (eng w)); [| exact He].
    destruct He as (Hp & Ha & Hact & Hmt & Hsem).
    split; [exact Hp |]. split; [exact Ha |].
    split; [intros H; vm_compute in H; discriminate |].
    split; [exact Hmt | exact Hsem].
  - destruct (IsActive _); [| discriminate]. intros [= <-]. simpl.
    revert He. apply cfg_ok_same; reflexivity.
  - unfold AttemptHashes_entry.
    destruct (negb _); [| destruct (_ >? _)]; intros [= <-]; simpl; try exact He;
      revert He; apply cfg_ok_same; reflexivity.
  - unfold SubmitHashes_entry.
    destruct (negb _); [| destruct (_ >? _)]; intros [= <-]; simpl; try exact He;
      revert He; apply cfg_ok_same; reflexivity.
  - destruct (calls w !! k) as [c |]; [| discriminate].
    destruct (call_step clock c (eng w)) as [[c' e'] |] eqn:Hstep; [| discriminate].
    intros [= <-]. simpl.
    apply call_step_eng in Hstep
      as [(-> & _) | [(_ & _ & ch & Hs & Hlt & ->) | (_ & _ & Hfin)]].
    + exact He.
    + apply (cfg_ok_semaphore _ ch); [exact Hs | reflexivity | | exact He].
      destruct He as (_ & _ & _ & _ & Hsem). pose proof (Hsem ch Hs). simpl. lia.
    + pose proof (finish_eng clock c (eng w)) as (H1 & _ & H3 & H4 & _ & H6 & H7 & _).
      rewrite <- Hfin in *. simpl in *. revert He. apply cfg_ok_same; assumption.
  - destruct (calls w !! k) as [c |]; [| discriminate].
    destruct (c_tasks c !! t) as [tk |]; [| discriminate].
    destruct (task_step io tk c (eng w) (outbox w)) as [[| [[[tk' c'] e'] out']] |] eqn:Hstep;
      [| | discriminate]; intros [= <-]; [exact He |].
    simpl. apply task_step_eng in Hstep as [-> | (ch & Hs & Hlt & ->)]; [exact He |].
    apply (cfg_ok_semaphore _ ch); [exact Hs | reflexivity | | exact He].
    destruct He as (_ & _ & _ & _ & Hsem). pose proof (Hsem ch Hs). simpl. lia.
Qed.

Lemma run_cfg_ok (tr : list event) :
  forall (w w' : world), cfg_ok (eng w) -> run tr w = Some w' -> cfg_ok (eng w').
Proof.
  induction tr as [| ev tr IH]; intros w w' He; simpl.
  - intros [= <-]. exact He.
  - destruct (step ev w) as [w1 |] eqn:Hstep; [| discriminate].
    apply IH. eapply step_cfg_ok; [exact He | exact Hstep].
Qed.

Lemma reachable_cfg_ok (w : world) : reachable w -> cfg_ok (eng w).
Proof. intros [tr Hrun]. exact (run_cfg_ok tr world_init w cfg_ok_init Hrun). Qed.

(** X7.  In every state the package can reach, the reward address is empty or
    one that [globals.ParseValidateAddress] accepted; while the connection
    is active it is an accepted one, and that is the address
    [GetAddressEPOCH] reports. *)
Theorem address_always_validated (w : world) :
  reachable w ->
  (GetAddress (eng w) = "" \/ ParseValidateAddress (GetAddress (eng w)) = true) /\
  (IsActive (eng w) = true ->
   ParseValidateAddress (GetAddress (eng w)) = true /\
   GetAddressEPOCH (eng w) = ({| Address := GetAddress (eng w) |}, None)) /\
  (forall res, GetAddressEPOCH (eng w) = (res, None) ->
     ParseValidateAddress (Address res) = true).
Proof.
  intros Hw. destruct (reachable_cfg_ok w Hw) as (_ & Ha & Hact & _).
  split; [exact Ha |]. unfold GetAddressEPOCH. split.
  - intros H. rewrite H. split; [exact (Hact H) | reflexivity].
  - intros res. destruct (IsActive (eng w)) eqn:H; simpl; [| discriminate].
    intros [= <-]. exact (Hact eq_refl).
Qed.

Lemma StartGetWork_no_panic (addr endpoint : string) (dial : option nat) (e : EPOCH) :
  0 <= maxThreads e -> StartGetWork addr endpoint dial e <> Panic.
Proof.
  intros Hmt. unfold StartGetWork.
  destruct (IsActive e); [discriminate |].
  destruct (SplitHostPort endpoint); [| discriminate].
  destruct (if bool_decide (addr <> "") then _ else _) as [e1 err1] eqn:Hset.
  assert (maxThreads e1 = maxThreads e) as Hsame.
  { destruct (bool_decide (addr <> "")); [| injection Hset as <- _; reflexivity].
    unfold SetAddress in Hset. destruct (ParseValidateAddress addr);
      injection Hset as <- _; reflexivity. }
  destruct err1; [discriminate |].
  destruct (negb _); [discriminate |]. destruct dial; [| discriminate].
  simpl. rewrite Hsame.
  destruct (Z.ltb_spec (maxThreads e) 0); [lia | discriminate].
Qed.

(** X8.  On a machine with at least one CPU the worker limit is between 1 and
    the number of CPUs in every reachable state, so is the capacity of
    every semaphore [StartGetWork] makes, a semaphore never holds more than
    its capacity or less than nothing, and the [make] of [StartGetWork]
    never panics. *)
Theorem worker_limit_in_range (w : world) :
  1 <= NumCPU -> reachable w ->
  1 <= GetMaxThreads (eng w) <= NumCPU /\
  (forall ch, semaphore (eng w) = Some ch ->
     1 <= chan_cap ch <= NumCPU /\ 0 <= chan_len ch <= chan_cap ch) /\
  (forall addr endpoint dial, StartGetWork addr endpoint dial (eng w) <> Panic).
Proof.
  intros Hcpu Hw. destruct (reachable_cfg_ok w Hw) as (_ & _ & _ & Hmt & Hsem).
  split; [exact (Hmt Hcpu) |].
  split; [intros ch Hs; destruct (Hsem ch Hs) as [H1 H2]; split; [exact (H2 Hcpu) | exact H1] |].
  intros addr endpoint dial. apply StartGetWork_no_panic. pose proof (Hmt Hcpu). lia.
Qed.

(** X9.  In every reachable state [GetPort] is the decimal of a port number
    from 1 to 65535: 10100 at first, then whatever [SetPort] last
    accepted. *)
Theorem GetPort_always_decimal (w : world) :
  reachable w -> exists p, 1 <= p <= 65535 /\ GetPort (eng w) = pretty p.
Proof.
  intros Hw. destruct (reachable_cfg_ok w Hw) as ((p & Hp & Hport) & _).
  exists p. split; [exact Hp |]. unfold GetPort. rewrite Hport.
  apply Trim_port, pretty_Z_no_colon. lia.
Qed.

End ReachFacts.

Lemma address_always_validated_witness :
  reachable (ext := demo) demo_started /\
  ParseValidateAddress (Externals := demo) (GetAddress (eng demo_started)) = true.
Proof.
  assert (reachable (ext := demo) demo_started) as Hr
    by (exists [demo_start]; vm_compute; reflexivity).
  split; [exact Hr |].
  exact (proj1 (proj1 (proj2 (address_always_validated (ext := demo) demo_started Hr))
                  eq_refl)).
Defined.

Lemma worker_limit_in_range_witness :
  1 <= NumCPU (Externals := demo) /\ reachable (ext := demo) demo_started /\
  1 <= GetMaxThreads (eng demo_started) <= 4.
Proof.
  assert (reachable (ext := demo) demo_started) as Hr
    by (exists [demo_start]; vm_compute; reflexivity).
  assert (1 <= NumCPU (Externals := demo)) as Hc by (vm_compute; discriminate).
  split; [exact Hc |]. split; [exact Hr |].
  exact (proj1 (worker_limit_in_range (ext := demo) demo_started Hc Hr)).
Defined.

Lemma GetPort_always_decimal_witness :
  reachable (ext := demo) demo_started /\
  exists p, 1 <= p <= 65535 /\ GetPort (eng demo_started) = pretty p.
Proof.
  assert (reachable (ext := demo) demo_started) as Hr
    by (exists [demo_start]; vm_compute; reflexivity).
  split; [exact Hr |]. exact (GetPort_always_decimal (ext := demo) demo_started Hr).
Defined.

(** ** The job store and the connection *)

Section LifeFacts.
Context {ext : Externals}.

(** The job store after a step: the template of [EvNewJob], otherwise the
    one there was. *)
Lemma step_job (ev : event) (w w' : world) :
  step ev w = Some w' ->
  getJob (eng w') = match ev with EvNewJob job => job | _ => getJob (eng w) end.
Proof.
  unfold step, getJob. destruct (crashed w); [discriminate |].
  event_cases ev.
  - intros [= <-]. reflexivity.
  - intros [= <-]. simpl. unfold SetMaxHashes. destruct (_ >? _); reflexivity.
  - intros [= <-]. simpl. unfold SetAddress. destruct (ParseValidateAddress a); reflexivity.
  - intros [= <-]. simpl. unfold SetPort. destruct (_ || _); reflexivity.
  - destruct (StartGetWork _ _ _ _) as [| [e' err]] eqn:Hs; intros [= <-]; [reflexivity |].
    simpl. exact (proj1 (proj2 (StartGetWork_frame _ _ _ _ _ _ Hs))).
  - intros [= <-]. simpl. unfold StopGetWork. destruct (IsActive _); reflexivity.
  - destruct (IsActive _); [| discriminate]. intros [= <-]. reflexivity.
  - unfold AttemptHashes_entry.
    destruct (negb _); [| destruct (_ >? _)]; intros [= <-]; reflexivity.
  - unfold SubmitHashes_entry.
    destruct (negb _); [| destruct (_ >? _)]; intros [= <-]; reflexivity.
  - destruct (calls w !! k) as [c |]; [| discriminate].
    destruct (call_step clock c (eng w)) as [[c' e'] |] eqn:Hstep; [| discriminate].
    intros [= <-]. simpl.
    apply call_step_eng in Hstep
      as [(-> & _) | [(_ & _ & ch & Hs & Hlt & ->) | (_ & _ & Hfin)]];
      [reflexivity | reflexivity |].
    pose proof (finish_eng clock c (eng w)) as (_ & H2 & _).
    rewrite <- Hfin in H2. exact H2.
  - destruct (calls w !! k) as [c |]; [| discriminate].
    destruct (c_tasks c !! t) as [tk |]; [| discriminate].
    destruct (task_step io tk c (eng w) (outbox w)) as [[| [[[tk' c'] e'] out']] |] eqn:Hstep;
      [| | discriminate]; intros [= <-]; [reflexivity |].
    simpl. apply task_step_eng in Hstep as [-> | (ch & Hs & Hlt & ->)]; reflexivity.
Qed.

(** X10.  The job store holds the last template the read loop received, whatever
    else happened since: neither [StopGetWork] nor a new [StartGetWork]
    clears it.  So once a template with a job id has arrived, [JobIsReady]
    returns at its first poll, also on a closed connection or on a new one
    that has not received anything yet. *)
Theorem job_outlives_connection (tr : list event) :
  forall (w w' : world),
  run tr w = Some w' ->
  getJob (eng w') = last_job tr (getJob (eng w)) /\
  (rpc.JobID (last_job tr (getJob (eng w))) <> "" ->
   forall timeout rest, 0 < timeout -> JobIsReady timeout (eng w' :: rest) = Ret None).
Proof.
  assert (forall w w', run tr w = Some w' ->
            getJob (eng w') = last_job tr (getJob (eng w))) as Hlast.
  { induction tr as [| ev tr IH]; intros w w'; simpl.
    - intros [= <-]. reflexivity.
    - destruct (step ev w) as [w1 |] eqn:Hstep; [| discriminate].
      intros Hrun. rewrite (IH _ _ Hrun), (step_job _ _ _ Hstep). reflexivity. }
  intros w w' Hrun. split; [exact (Hlast w w' Hrun) |].
  rewrite <- (Hlast w w' Hrun). intros Hid timeout rest Ht.
  unfold JobIsReady. destruct (Z.leb_spec timeout 0); [lia |].
  simpl. unfold getJob in Hid. rewrite bool_decide_eq_true_2 by exact Hid. reflexivity.
Qed.

End LifeFacts.

Lemma job_outlives_connection_witness :
  exists w',
    run (ext := demo) [EvNewJob (demo_job blob48); EvStopGetWork; demo_start] demo_started
    = Some w' /\
    getJob (eng w') = demo_job blob48 /\
    0 < 5 /\ JobIsReady 5 [eng w'] = Ret None.
Proof.
  destruct (run (ext := demo) [EvNewJob (demo_job blob48); EvStopGetWork; demo_start]
              demo_started) as [w' |] eqn:Hrun; [| vm_compute in Hrun; discriminate].
  exists w'. split; [reflexivity |].
  destruct (job_outlives_connection (ext := demo) _ _ _ Hrun) as [Hjob Hready].
  split; [exact Hjob |]. split; [lia |].
  apply Hready; [discriminate | lia].
Defined.

Section ConnectFacts.
Context {ext : Externals}.

(** X12.  When [StartGetWork] connects, and to what: exactly when there is no
    active connection, the endpoint has a host, the address to use (the one
    given, or the stored one if none is given) is accepted, the dial
    succeeds and the worker limit is not negative.  The new state has that
    address and connection, session counters at zero, an empty semaphore of
    capacity [maxThreads]; job, port, limits and processing flag are as
    before. *)
Theorem StartGetWork_connects_iff (addr endpoint : string) (dial : option nat)
    (e e' : EPOCH) :
  let target := if bool_decide (addr <> "") then addr else address e in
  StartGetWork addr endpoint dial e = Ret (e', None) <->
  IsActive e = false /\ SplitHostPort endpoint <> None /\
  ParseValidateAddress target = true /\ 0 <= maxThreads e /\
  exists ws, dial = Some ws /\
    e' = {| conn_ws := Some ws; jobs_job := jobs_job e; port := port e;
            address := target; processing := processing e;
            maxHashes := maxHashes e; maxThreads := maxThreads e;
            semaphore := Some {| chan_cap := maxThreads e; chan_len := 0 |};
            session := {| Hashes := 0; MiniBlocks := 0;
                          Version := Version (session e) |} |}.
Proof.
  intros target. unfold StartGetWork, SetAddress. subst target.
  destruct (IsActive e); [split; [discriminate | intros [H _]; discriminate] |].
  destruct (SplitHostPort endpoint) as [host |];
    [| split; [discriminate | intros (_ & H & _); contradiction]].
  destruct (bool_decide (addr <> "")) eqn:Ha.
  - destruct (ParseValidateAddress addr) eqn:Hv; simpl.
    + rewrite Hv. simpl. destruct dial as [ws |]; simpl.
      * destruct (Z.ltb_spec (maxThreads e) 0).
        -- split; [discriminate | intros (_ & _ & _ & H' & _); lia].
        -- split.
           ++ intros [= <-]. repeat split; try discriminate; try lia.
              exists ws. split; reflexivity.
           ++ intros (_ & _ & _ & _ & ws' & [= <-] & ->). reflexivity.
      * split; [discriminate | intros (_ & _ & _ & _ & ws' & H' & _); discriminate].
    + split; [discriminate | intros (_ & _ & H' & _); discriminate].
  - simpl. destruct (ParseValidateAddress (address e)) eqn:Hv; simpl.
    + destruct dial as [ws |]; simpl.
      * destruct (Z.ltb_spec (maxThreads e) 0).
        -- split; [discriminate | intros (_ & _ & _ & H' & _); lia].
        -- split.
           ++ intros [= <-]. repeat split; try discriminate; try lia.
              exists ws. split; reflexivity.
           ++ intros (_ & _ & _ & _ & ws' & [= <-] & ->). reflexivity.
      * split; [discriminate | intros (_ & _ & _ & _ & ws' & H' & _); discriminate].
    + split; [discriminate | intros (_ & _ & H' & _); discriminate].
Qed.

(** X13.  What a [StartGetWork] that returns an error leaves behind: the
    connection, the session, the semaphore, the job and every setting are
    as before, with one exception: when a non-empty accepted address was
    given and only the dial failed, that address has already replaced the
    stored one.  A call on an active connection changes nothing at all. *)
Theorem StartGetWork_failure_keeps (addr endpoint : string) (dial : option nat)
    (e e' : EPOCH) (err : error) :
  StartGetWork addr endpoint dial e = Ret (e', Some err) ->
  (e' = e \/
   e' = set_address addr e /\ err = ErrDial /\ dial = None /\ addr <> "" /\
   ParseValidateAddress addr = true /\ IsActive e = false) /\
  (IsActive e = true -> e' = e /\ err = ErrAlreadyRunning) /\
  IsActive e' = IsActive e /\ session e' = session e /\ semaphore e' = semaphore e.
Proof.
  unfold StartGetWork, SetAddress.
  destruct (IsActive e) eqn:Hact.
  { intros [= <- <-]. repeat split; auto. }
  assert (conn_ws e = None) as Hnone.
  { unfold IsActive in Hact. apply bool_decide_eq_false in Hact.
    destruct (conn_ws e); [exfalso; apply Hact; discriminate | reflexivity]. }
  assert (set_conn_ws None e = e) as Hsame by (destruct e; simpl in *; subst; reflexivity).
  destruct (SplitHostPort endpoint) as [host |];
    [| intros [= <- <-]; repeat split; auto; discriminate].
  destruct (bool_decide (addr <> "")) eqn:Ha.
  - apply bool_decide_eq_true in Ha.
    destruct (ParseValidateAddress addr) eqn:Hv; simpl;
      [| intros [= <- <-]; repeat split; auto; discriminate].
    rewrite Hv. simpl. destruct dial as [ws |]; simpl.
    + destruct (_ <? 0); discriminate.
    + intros [= <- <-]. split; [| split; [discriminate |]].
      * right. split; [destruct e; simpl in *; subst; reflexivity |]. repeat split; auto.
      * unfold IsActive in *. simpl. repeat split; reflexivity.
  - simpl. destruct (ParseValidateAddress (address e)) eqn:Hv; simpl;
      [| intros [= <- <-]; repeat split; auto; discriminate].
    destruct dial as [ws |]; simpl.
    + destruct (_ <? 0); discriminate.
    + intros [= <- <-]. rewrite Hsame. repeat split; auto; discriminate.
Qed.

(** X14.  Without an active connection every method of the RPC adapter refuses
    with the same error and changes nothing: the two dispatchers launch no
    goroutine and leave the engine as it is, and the three getters return
    zero values, whatever is configured.  That is the state before the
    first [StartGetWork] and after every [StopGetWork]. *)
Theorem inactive_refuses_all (w : world) (p : Attempt_Params)
    (params : list Submit_Params) (polls : list EPOCH) :
  crashed w = false -> IsActive (eng w) = false ->
  step (AttemptEPOCH p) w
  = Some (set_calls (calls w ++ [new_call (Attempt (ap_Hashes p))
                                  (CReturned (Some ErrNotActive))]) w) /\
  step (SubmitEPOCH params) w
  = Some (set_calls (calls w ++ [new_call (Submit params)
                                  (CReturned (Some ErrNotActive))]) w) /\
  GetMaxHashesEPOCH (eng w) = ({| MaxHashes := 0 |}, Some ErrNotActive) /\
  GetAddressEPOCH (eng w) = ({| Address := "" |}, Some ErrNotActive) /\
  GetSessionEPOCH (eng w) polls = (session_zero, Some ErrNotActive) /\
  IsActive init = false /\
  (forall e, IsActive (StopGetWork e) = false /\ StopGetWork (StopGetWork e) = StopGetWork e).
Proof.
  intros Hc Hact.
  unfold AttemptEPOCH, SubmitEPOCH, GetMaxHashesEPOCH, GetAddressEPOCH, GetSessionEPOCH.
  rewrite step_AttemptHashes, step_SubmitHashes by exact Hc.
  unfold AttemptHashes_entry, SubmitHashes_entry. rewrite Hact. simpl.
  split; [destruct w; reflexivity |]. split; [destruct w; reflexivity |].
  repeat (split; [reflexivity |]).
  intros e. unfold StopGetWork.
  destruct (IsActive e) eqn:He; rewrite ?He; split; reflexivity.
Qed.

End ConnectFacts.

Lemma StartGetWork_connects_iff_witness :
  exists e', StartGetWork (ext := demo) "dero1qy" "127.0.0.1:20000" (Some 1%nat)
               (init (ext := demo)) = Ret (e', None) /\
             address e' = "dero1qy" /\ semaphore e' = Some {| chan_cap := 2; chan_len := 0 |}.
Proof.
  eexists. split.
  - apply (proj2 (StartGetWork_connects_iff (ext := demo) "dero1qy" "127.0.0.1:20000"
                    (Some 1%nat) (init (ext := demo)) _)).
    split; [reflexivity |]. split; [discriminate |]. split; [reflexivity |].
    split; [vm_compute; discriminate |]. exists 1%nat. split; reflexivity.
  - split; reflexivity.
Defined.

Lemma StartGetWork_failure_keeps_witness :
  exists e',
    StartGetWork (ext := demo) "dero1qy" "127.0.0.1:20000" None (init (ext := demo))
    = Ret (e', Some ErrDial) /\
    IsActive e' = false /\ address e' = "dero1qy" /\ address (init (ext := demo)) = "".
Proof.
  eexists. split; [vm_compute; reflexivity |].
  split; [| split; reflexivity].
  match goal with
  | |- IsActive ?e1 = false =>
      assert (StartGetWork (ext := demo) "dero1qy" "127.0.0.1:20000" None
                (init (ext := demo)) = Ret (e1, Some ErrDial)) as H
        by (vm_compute; reflexivity);
      rewrite (proj1 (proj2 (proj2 (StartGetWork_failure_keeps (ext := demo) _ _ _ _ _ _ H))))
  end.
  reflexivity.
Defined.

Lemma inactive_refuses_all_witness :
  crashed demo_init = false /\ IsActive (eng demo_init) = false /\
  GetMaxHashesEPOCH (eng demo_init) = ({| MaxHashes := 0 |}, Some ErrNotActive) /\
  GetMaxHashes (eng demo_init) = 1000.
Proof.
  split; [reflexivity |]. split; [reflexivity |].
  split; [| reflexivity].
  exact (proj1 (proj2 (proj2 (inactive_refuses_all (ext := demo) demo_init
                                {| ap_Hashes := 1 |} [] [] eq_refl eq_refl)))).
Defined.

(** ** The handler table *)

Lemma GetHandler_in_list_to_map (order : list (string * handler_Func)) :
  forall acc : gmap string handler_Func,
  foldl (fun handler nf => <[nf.1 := nf.2]> handler) acc order
  = foldr (fun nf handler => <[nf.1 := nf.2]> handler) acc (reverse order).
Proof.
  induction order as [| x order IH]; intros acc; simpl; [reflexivity |].
  rewrite IH, reverse_cons, foldr_app. reflexivity.
Qed.

(** X15.  [GetHandler] returns a map with exactly the bindings of
    [epochHandler], in whatever order the range loop visits them: the five
    methods under their names, and nothing else. *)
Theorem GetHandler_copies (order : list (string * handler_Func)) :
  order ≡ₚ map_to_list epochHandler ->
  GetHandler_in order = epochHandler /\
  GetHandler = epochHandler /\
  (forall name f, GetHandler_in order !! name = Some f <->
     (name, f) ∈ [ ("AttemptEPOCH", hAttemptEPOCH); ("SubmitEPOCH", hSubmitEPOCH);
                   ("GetMaxHashesEPOCH", hGetMaxHashesEPOCH);
                   ("GetAddressEPOCH", hGetAddressEPOCH);
                   ("GetSessionEPOCH", hGetSessionEPOCH) ]).
Proof.
  intros Hperm.
  assert (forall order', order' ≡ₚ map_to_list epochHandler ->
            GetHandler_in order' = epochHandler) as Hcopy.
  { intros order' Hp. unfold GetHandler_in. rewrite GetHandler_in_list_to_map.
    change (foldr (fun nf handler => <[nf.1 := nf.2]> handler) ∅ (reverse order'))
      with (list_to_map (reverse order') : gmap string handler_Func).
    transitivity (list_to_map (map_to_list epochHandler) : gmap string handler_Func);
      [| apply list_to_map_to_list].
    apply list_to_map_proper.
    - rewrite reverse_Permutation, Hp. apply NoDup_fst_map_to_list.
    - rewrite reverse_Permutation. exact Hp. }
  split; [exact (Hcopy order Hperm) |].
  split; [exact (Hcopy _ (reflexivity _)) |].
  intros name f. rewrite (Hcopy order Hperm). unfold epochHandler.
  rewrite <- elem_of_list_to_map; [reflexivity |].
  apply (bool_decide_unpack _). vm_compute. exact I.
Qed.

Lemma GetHandler_copies_witness :
  reverse (map_to_list epochHandler) ≡ₚ map_to_list epochHandler /\
  GetHandler_in (reverse (map_to_list epochHandler)) !! "GetSessionEPOCH"
  = Some hGetSessionEPOCH.
Proof.
  split; [apply reverse_Permutation |].
  apply (proj2 (proj2 (GetHandler_copies _ (reverse_Permutation _)))).
  repeat (first [apply list_elem_of_here | apply list_elem_of_further]).
Defined.

(** ** What the dispatchers report *)

Section AccountFacts.
Context {ext : Externals}.

Lemma call_ok_length (c : call) :
  call_ok c -> Z.of_nat (length (c_tasks c)) <= LIMIT_MAX_HASHES.
Proof.
  unfold call_ok, LIMIT_MAX_HASHES.
  destruct (c_pc c) as [| | | [err |]]; try (intros [-> _]; simpl; lia);
    intros (_ & _ & Hk); destruct (c_kind c); lia.
Qed.

Lemma call_ok_task_wf (c : call) (t : nat) (tk : task) :
  call_ok c -> c_tasks c !! t = Some tk ->
  task_wf (c_kind c) (stored_tasks (c_tasks c)) tk.
Proof.
  unfold call_ok. intros Hc Ht.
  destruct (c_pc c) as [| | | [err |]];
    try (destruct Hc as [Hwf _]; exact (Forall_lookup_1 _ _ _ _ Hwf Ht)).
  destruct Hc as [Hnil _]. rewrite Hnil in Ht. discriminate.
Qed.

Lemma count_tasks_insert (f : task -> bool) (ts : list task) (t : nat) (tk tk' : task) :
  ts !! t = Some tk ->
  count_tasks f (<[t := tk']> ts)
  = count_tasks f ts + ((if f tk' then 1 else 0) - (if f tk then 1 else 0)).
Proof. intros Ht. unfold count_tasks. rewrite (sumZ_insert _ _ _ _ _ Ht). lia. Qed.

Lemma count_tasks_app_new (f : task -> bool) (ts : list task) (pc : task_pc) :
  f (new_task pc) = false -> count_tasks f (ts ++ [new_task pc]) = count_tasks f ts.
Proof. intros Hf. unfold count_tasks. rewrite sumZ_app. simpl. rewrite Hf. lia. Qed.

Lemma task_acct_mono (b b' : Z) (t : task) : b <= b' -> task_acct b t -> task_acct b' t.
Proof. unfold task_acct. destruct (t_pc t); auto. intros Hb [Hv Ht]. split; [exact Hv | lia]. Qed.

(** One case of a goroutine step against the counts of failed and counted
    goroutines. *)
Ltac acct_case tk c Hpc :=
  step_result; cbv zeta;
  unfold task_wf, task_acct in *; rewrite ?Hpc in *;
  unfold failed, counted, through, valid_ret, task_ok in *;
  simpl; rewrite ?Hpc; simpl;
  destruct (t_ret tk) as [[[|] [? |]] |]; simpl in *;
  try (exfalso; intuition congruence);
  repeat split; simpl; try lia; try discriminate; try tauto;
  try (left; split; [lia | reflexivity]);
  try (right; split; [lia | discriminate]).

(** A step of a goroutine moves the two counts by at most one each, the
    first with a write of [result.Error], the second with a write of
    [result.Submitted]. *)
Lemma task_step_acct (io : task_io) (tk tk' : task) (c c' : call) (e e' : EPOCH)
    (out out' : list rpc.SubmitBlock_Params) (S B : Z) :
  task_wf (c_kind c) S tk -> task_acct B tk ->
  0 <= res_Submitted (c_result c) <= B ->
  task_step io tk c e out = Some (Ret (tk', c', e', out')) ->
  let df := (if failed tk' then 1 else 0) - (if failed tk then 1 else 0) in
  let dc := (if counted tk' then 1 else 0) - (if counted tk then 1 else 0) in
  0 <= df <= 1 /\ 0 <= dc <= 1 /\
  ((df = 0 /\ res_Error (c_result c') = res_Error (c_result c)) \/
   (df = 1 /\ res_Error (c_result c') <> None)) /\
  ((dc = 0 /\ res_Submitted (c_result c') = res_Submitted (c_result c)) \/
   (dc = 1 /\ exists tmp, 0 <= tmp <= B /\
      res_Submitted (c_result c') = wrap_int (tmp + 1))) /\
  task_acct (B + dc) tk'.
Proof.
  intros Hwf Hacct Hsub. unfold task_step.
  destruct (t_pc tk) eqn:Hpc.
  - destruct (powHash _ _) as [| r]; [discriminate |].
    destruct (ph_err r); acct_case tk c Hpc.
  - destruct (submitBlock _ _ _ _ _ _) as [[valid err] msg].
    destruct err as [x |]; [destruct valid; acct_case tk c Hpc |].
    destruct (c_kind c) eqn:Hkind; destruct valid; acct_case tk c Hpc.
  - acct_case tk c Hpc.
  - acct_case tk c Hpc.
  - destruct (c_kind c) eqn:Hkind.
    { unfold task_wf in Hwf. rewrite Hpc in Hwf. destruct Hwf as (_ & Hs' & _).
      destruct Hs'. }
    destruct (match t_ret tk with Some (v, _) => v | None => false end) eqn:Hv;
      acct_case tk c Hpc.
  - acct_case tk c Hpc.
  - step_result. cbv zeta. unfold task_acct in Hacct. rewrite Hpc in Hacct.
    destruct Hacct as [Hvalid Htmp].
    unfold failed, counted, through, valid_ret, task_ok in *. simpl. rewrite Hpc.
    destruct (t_ret tk) as [[[|] [? |]] |]; try discriminate Hvalid. simpl.
    repeat split; try lia; try tauto; try (left; split; [lia | reflexivity]).
    right. split; [lia |]. exists tmp. split; [exact Htmp | reflexivity].
  - destruct (release e); [| discriminate]. acct_case tk c Hpc.
  - discriminate.
Qed.

Lemma task_step_loop_cond (io : task_io) (t : nat) (tk tk' : task) (c c' : call)
    (e e' : EPOCH) (out out' : list rpc.SubmitBlock_Params) :
  call_ok c -> c_tasks c !! t = Some tk ->
  task_step io tk c e out = Some (Ret (tk', c', e', out')) ->
  loop_cond c' = loop_cond c.
Proof.
  intros Hok Ht Hstep.
  pose proof (task_step_semaphore _ _ _ _ _ _ _ _ _ Hstep)
    as (_ & Hkind & _ & Hnext & Hnd & _).
  destruct (call_ok_with_task c t tk Hok Ht Hnd) as [Hwf Hsub].
  assert (is_submit (c_kind c) -> 0 <= c_i c <= stored_tasks (c_tasks c)) as Hi.
  { destruct (c_kind c) as [n | params] eqn:Hk; [intros [] | intros _].
    exact (proj2 (proj2 (Hsub params eq_refl))). }
  pose proof (task_step_wf _ _ _ _ _ _ _ _ _ _ (Forall_lookup_1 _ _ _ _ Hwf Ht) Hi Hstep)
    as (_ & _ & Hci).
  unfold loop_cond. rewrite Hkind, Hnext.
  destruct (c_kind c); [rewrite Hci |]; reflexivity.
Qed.

Lemma new_call_acct (k : call_kind) (pc : call_pc) :
  pc <> CWait -> pc <> CReturned None -> call_acct (new_call k pc).
Proof.
  intros H1 H2. unfold call_acct. simpl.
  split; [split; reflexivity |].
  split; [intros [H | H]; contradiction |].
  split; [unfold count_tasks; simpl; lia |].
  split; [unfold count_tasks; simpl; lia | constructor].
Qed.

Lemma call_acct_set_pc (pc : call_pc) (c : call) :
  call_acct c ->
  (pc = CWait \/ pc = CReturned None ->
   res_Error (c_result c) = None -> loop_cond c = false) ->
  call_acct (set_c_pc pc c).
Proof.
  intros (He & _ & Hs & Hone & Hall) Hl.
  split; [exact He |]. split; [exact Hl |].
  split; [exact Hs |]. split; [exact Hone | exact Hall].
Qed.

Lemma call_step_acct (clock : Z) (c c' : call) (e e' : EPOCH) :
  call_acct c -> call_step clock c e = Some (c', e') -> call_acct c'.
Proof.
  intros Hacct. pose proof Hacct as (He & Hl & Hs & Hone & Hall). unfold call_step.
  destruct (c_pc c) eqn:Hpc.
  - destruct (loop_cond c) eqn:Hcond; [destruct (res_Error (c_result c)) eqn:Herr |];
      intros [= <- <-]; apply call_acct_set_pc; try exact Hacct.
    + intros _ H. rewrite Herr in H. discriminate.
    + intros [H | H]; discriminate.
    + intros _ _. exact Hcond.
  - destruct (acquire e) as [e1 |]; [| discriminate].
    assert (forall pc (c1 : call),
              c_result c1 = c_result c -> c_tasks c1 = c_tasks c ++ [new_task pc] ->
              c_pc c1 = CLoop -> (pc = TPowHash \/ exists p, pc = TSubmit p) ->
              call_acct c1) as Hnew.
    { intros pc c1 Hr Ht Hp Hkind. unfold call_acct. rewrite Hr, Ht, Hp.
      assert (failed (new_task pc) = false /\ counted (new_task pc) = false) as [Hf Hc].
      { destruct Hkind as [-> | [p ->]]; split; reflexivity. }
      rewrite !count_tasks_app_new by assumption.
      split; [exact He |]. split; [intros [H | H]; discriminate |].
      split; [exact Hs |]. split; [exact Hone |].
      apply Forall_app. split; [exact Hall |]. constructor; [| constructor].
      destruct Hkind as [-> | [p ->]]; exact I. }
    destruct (c_kind c); [| destruct (_ !! _) as [p |]; [| discriminate]];
      intros [= <- <-]; eapply Hnew; try reflexivity; eauto.
  - destruct (forallb task_done (c_tasks c)); [| discriminate].
    unfold finish. intros [= <- <-].
    split; [exact He |]. split; [| split; [exact Hs | split; [exact Hone | exact Hall]]].
    intros _ Herr. apply Hl; [left; reflexivity | exact Herr].
  - discriminate.
Qed.

Lemma task_step_call_acct (io : task_io) (t : nat) (tk tk' : task) (c c' : call)
    (e e' : EPOCH) (out out' : list rpc.SubmitBlock_Params) :
  call_ok c -> call_acct c -> c_tasks c !! t = Some tk ->
  task_step io tk c e out = Some (Ret (tk', c', e', out')) ->
  call_acct (set_c_tasks (<[t := tk']> (c_tasks c')) c').
Proof.
  intros Hok (He & Hl & Hs & Hone & Hall) Ht Hstep.
  pose proof (task_step_semaphore _ _ _ _ _ _ _ _ _ Hstep)
    as (Hts & Hkind & Hpc & Hnext & _).
  pose proof (task_step_acct _ _ _ _ _ _ _ _ _ _ _
                (call_ok_task_wf _ _ _ Hok Ht) (Forall_lookup_1 _ _ _ _ Hall Ht) Hs Hstep)
    as (Hdf & Hdc & Herr & Hsub & Hacct).
  pose proof (task_step_loop_cond _ _ _ _ _ _ _ _ _ _ Hok Ht Hstep) as Hcond.
  pose proof (count_tasks_bounds failed (c_tasks c)) as Hfb.
  pose proof (count_tasks_bounds counted (c_tasks c)) as Hcb.
  pose proof (call_ok_length c Hok) as Hlen. unfold LIMIT_MAX_HASHES in Hlen.
  unfold call_acct. simpl. rewrite Hts, Hpc.
  rewrite !(count_tasks_insert _ _ _ _ _ Ht).
  split; [| split; [| split; [| split]]].
  - destruct Herr as [[-> ->] | [-> Hne]]; [rewrite Z.add_0_r; exact He |].
    split; [intros H; contradiction | lia].
  - intros Hp Hnone.
    change (loop_cond (set_c_tasks (<[t := tk']> (c_tasks c)) c')) with (loop_cond c').
    rewrite Hcond. apply Hl; [exact Hp |].
    destruct Herr as [[_ <-] | [_ Hne]]; [exact Hnone | contradiction].
  - destruct Hsub as [[-> ->] | (-> & tmp & Htmp & ->)]; [lia |].
    rewrite wrap_int_id by (unfold int_range; lia). lia.
  - destruct Hsub as [[-> ->] | (-> & tmp & Htmp & ->)]; [rewrite Z.add_0_r; exact Hone |].
    rewrite wrap_int_id by (unfold int_range; lia). lia.
  - apply Forall_insert; [| exact Hacct].
    eapply Forall_impl; [exact Hall |]. intros x. apply task_acct_mono. lia.
Qed.

Lemma step_acct (ev : event) (w w' : world) :
  winv w -> Forall call_acct (calls w) -> step ev w = Some w' ->
  Forall call_acct (calls w').
Proof.
  intros [_ Hok] Hcs. unfold step. destruct (crashed w); [discriminate |].
  event_cases ev; try (intros [= <-]; exact Hcs).
  - destruct (StartGetWork _ _ _ _) as [| [e' err]]; intros [= <-]; exact Hcs.
  - destruct (IsActive _); [| discriminate]. intros [= <-]. exact Hcs.
  - unfold AttemptHashes_entry.
    destruct (negb _); [| destruct (_ >? _)]; intros [= <-]; simpl;
      (apply Forall_app; split; [exact Hcs |]); (constructor; [| constructor]);
      apply new_call_acct; discriminate.
  - unfold SubmitHashes_entry.
    destruct (negb _); [| destruct (_ >? _)]; intros [= <-]; simpl;
      (apply Forall_app; split; [exact Hcs |]); (constructor; [| constructor]);
      apply new_call_acct; discriminate.
  - destruct (calls w !! k) as [c |] eqn:Hk; [| discriminate].
    destruct (call_step clock c (eng w)) as [[c' e'] |] eqn:Hstep; [| discriminate].
    intros [= <-]. simpl. apply Forall_insert; [exact Hcs |].
    exact (call_step_acct _ _ _ _ _ (Forall_lookup_1 _ _ _ _ Hcs Hk) Hstep).
  - destruct (calls w !! k) as [c |] eqn:Hk; [| discriminate].
    destruct (c_tasks c !! t) as [tk |] eqn:Ht; [| discriminate].
    destruct (task_step io tk c (eng w) (outbox w)) as [[| [[[tk' c'] e'] out']] |] eqn:Hstep;
      [| | discriminate]; intros [= <-]; [exact Hcs |].
    simpl. apply Forall_insert; [exact Hcs |].
    exact (task_step_call_acct _ _ _ _ _ _ _ _ _ _
             (Forall_lookup_1 _ _ _ _ Hok Hk) (Forall_lookup_1 _ _ _ _ Hcs Hk) Ht Hstep).
Qed.

Lemma reachable_acct (w : world) : reachable w -> Forall call_acct (calls w).
Proof.
  intros [tr Hrun].
  assert (forall tr w0 w1, winv w0 -> Forall call_acct (calls w0) ->
            run tr w0 = Some w1 -> Forall call_acct (calls w1)) as Hgen.
  { clear. induction tr as [| ev tr IH]; intros w0 w1 Hinv Hacct; simpl.
    - intros [= <-]. exact Hacct.
    - destruct (step ev w0) as [w2 |] eqn:Hstep; [| discriminate].
      apply IH; [exact (step_winv _ _ _ Hinv Hstep) | exact (step_acct _ _ _ Hinv Hacct Hstep)]. }
  apply (Hgen tr world_init w); [exact winv_init | constructor | exact Hrun].
Qed.

End AccountFacts.

Section ReportFacts.
Context {ext : Externals}.

Lemma done_failed_or_ok (ts : list task) :
  forallb task_done ts = true ->
  count_tasks failed ts = Z.of_nat (length ts) - ok_tasks ts.
Proof.
  unfold ok_tasks, count_tasks.
  induction ts as [| t ts IH]; simpl; [reflexivity |].
  intros H. apply andb_prop in H as [Ht Hts]. rewrite (IH Hts).
  unfold failed, through, task_done in *.
  destruct (t_pc t); try discriminate. destruct (task_ok t); simpl; lia.
Qed.

Lemma done_counted_valid (ts : list task) :
  forallb task_done ts = true -> count_tasks counted ts = count_tasks valid_ret ts.
Proof.
  intros H. apply count_tasks_all. apply Forall_forall. intros t Ht.
  apply list_elem_of_lookup in Ht as [i Hi].
  pose proof (forallb_lookup _ _ _ _ H Hi) as Hd.
  unfold counted, through, task_done in *. destruct (t_pc t); try discriminate.
  apply andb_true_r.
Qed.

(** X16.  What a returned batch says about its goroutines.  [result.Error] is nil
    exactly when every goroutine launched got through [powHash] and
    [submitBlock] without error; and then the loop ran to its end:
    [AttemptHashes(n)] launched max(n, 0) goroutines and reports that many
    hashes, [SubmitHashes] launched one goroutine for each parameter. *)
Theorem result_error_iff_failure (w : world) (k : nat) (c : call) :
  reachable w -> calls w !! k = Some c -> c_pc c = CReturned None ->
  (res_Error (c_result c) = None <->
   ok_tasks (c_tasks c) = Z.of_nat (length (c_tasks c))) /\
  (res_Error (c_result c) = None ->
   match c_kind c with
   | Attempt n =>
       res_Hashes (c_result c) = Z.max n 0 /\
       Z.of_nat (length (c_tasks c)) = Z.max n 0
   | Submit params => length (c_tasks c) = length params
   end).
Proof.
  intros Hw Hk Hpc.
  pose proof (Forall_lookup_1 _ _ _ _ (proj2 (reachable_winv w Hw)) Hk) as Hok.
  pose proof (Forall_lookup_1 _ _ _ _ (reachable_acct w Hw) Hk) as (He & Hl & _).
  unfold call_ok in Hok. rewrite Hpc in Hok. destruct Hok as (_ & Hret & Hkind).
  destruct (Hret eq_refl) as [Hh Hdone].
  rewrite He, (done_failed_or_ok _ Hdone). split; [lia |].
  intros Hnone.
  assert (res_Error (c_result c) = None) as Herr
    by (apply He; rewrite (done_failed_or_ok _ Hdone); lia).
  specialize (Hl (or_intror Hpc) Herr). unfold loop_cond in Hl.
  destruct (c_kind c) as [n | params].
  - destruct Hkind as (_ & Hi & Hlen & _).
    destruct (Z.ltb_spec (c_i c) n); [discriminate |]. lia.
  - destruct Hkind as (_ & Hnx & Hlen & _).
    apply bool_decide_eq_false in Hl. lia.
Qed.

(** X17.  [result.Submitted] never counts more than there was: in every reachable
    state it is at most the number of goroutines of the batch that got
    [true] from [submitBlock], which is at most the number launched; once
    the batch has returned it is at least 1
    if there was such a goroutine, and [AttemptHashes] never reports more
    blocks than hashes. *)
Theorem Submitted_at_most_valid (w : world) (k : nat) (c : call) :
  reachable w -> calls w !! k = Some c ->
  0 <= res_Submitted (c_result c) <= count_tasks valid_ret (c_tasks c) /\
  count_tasks valid_ret (c_tasks c) <= ok_tasks (c_tasks c)
    <= Z.of_nat (length (c_tasks c)) /\
  (c_pc c = CReturned None ->
   (1 <= count_tasks valid_ret (c_tasks c) -> 1 <= res_Submitted (c_result c)) /\
   (forall n, c_kind c = Attempt n ->
      res_Submitted (c_result c) <= res_Hashes (c_result c))).
Proof.
  intros Hw Hk.
  pose proof (Forall_lookup_1 _ _ _ _ (proj2 (reachable_winv w Hw)) Hk) as Hok.
  pose proof (Forall_lookup_1 _ _ _ _ (reachable_acct w Hw) Hk) as (_ & _ & Hs & Hone & _).
  assert (count_tasks counted (c_tasks c) <= count_tasks valid_ret (c_tasks c)) as H1.
  { apply count_tasks_le. intros t. unfold counted. intros H.
    apply andb_prop in H as [H _]. exact H. }
  assert (count_tasks valid_ret (c_tasks c) <= ok_tasks (c_tasks c)) as H2.
  { apply count_tasks_le. intros t. unfold valid_ret, task_ok.
    destruct (t_ret t) as [[[|] [? |]] |]; auto. }
  pose proof (count_tasks_bounds task_ok (c_tasks c)) as H3.
  split; [lia |]. split; [exact (conj H2 (proj2 H3)) |].
  intros Hpc. unfold call_ok in Hok. rewrite Hpc in Hok.
  destruct Hok as (_ & Hret & Hkind). destruct (Hret eq_refl) as [Hh Hdone].
  rewrite (done_counted_valid _ Hdone) in Hone, Hs.
  split; [exact Hone |].
  intros n Hn. rewrite Hn in Hkind. destruct Hkind as (_ & _ & Hlen & _).
  unfold ok_tasks in *. lia.
Qed.

(** A step of activation [k] or of the read loop keeps [solo_view]. *)
Lemma solo_step_view (k : nat) (s0 : GetSessionEPOCH_Result) (p0 : bool)
    (ev : event) (w w' : world) :
  winv w -> own_event k ev -> step ev w = Some w' ->
  solo_view k s0 p0 w -> solo_view k s0 p0 w'.
Proof.
  intros [_ Hcs] Hown Hstep (c & Hk & Hv). unfold step in Hstep.
  destruct (crashed w); [discriminate |].
  destruct ev as [| | | | | | | | | k' clock | k' t io]; simpl in Hown; try contradiction.
  - injection Hstep as <-. exists c. split; [exact Hk |]. simpl.
    unfold StopGetWork. destruct (IsActive _); exact Hv.
  - destruct (IsActive _); [| discriminate]. injection Hstep as <-.
    exists c. split; [exact Hk | exact Hv].
  - subst k'. rewrite Hk in Hstep.
    destruct (call_step clock c (eng w)) as [[c' e'] |] eqn:Hcall; [| discriminate].
    injection Hstep as <-. exists c'. simpl.
    split; [apply list_lookup_insert_eq; eapply lookup_lt_Some; exact Hk |].
    apply call_step_eng in Hcall
      as [(-> & Hpc & Hpc') | [(Hpc & Hpc' & ch & _ & _ & ->) | (Hpc & Hpc' & Hfin)]];
      rewrite Hpc in Hv.
    + destruct Hpc' as [-> | ->]; exact Hv.
    + rewrite Hpc'. exact Hv.
    + rewrite Hpc'. destruct Hv as [_ Hs].
      unfold finish in Hfin. injection Hfin as -> ->.
      unfold session_after, IsProcessing. simpl.
      destruct (c_kind c); simpl; rewrite Hs; split; reflexivity.
  - subst k'. rewrite Hk in Hstep.
    destruct (c_tasks c !! t) as [tk |] eqn:Ht; [| discriminate].
    destruct (task_step io tk c (eng w) (outbox w)) as [[| [[[tk' c'] e'] out']] |] eqn:Htask;
      [| | discriminate].
    + injection Hstep as <-. exists c. split; [exact Hk | exact Hv].
    + injection Hstep as <-.
      pose proof (task_step_semaphore _ _ _ _ _ _ _ _ _ Htask)
        as (_ & _ & Hpc' & _ & Hnd & _ & _).
      exists (set_c_tasks (<[t := tk']> (c_tasks c')) c'). simpl.
      split; [apply list_lookup_insert_eq; eapply lookup_lt_Some; exact Hk |].
      rewrite Hpc'.
      assert (IsProcessing e' = IsProcessing (eng w) /\ session e' = session (eng w))
        as [-> ->].
      { apply task_step_eng in Htask as [-> | (ch & _ & _ & ->)]; split; reflexivity. }
      pose proof (Forall_lookup_1 _ _ _ _ Hcs Hk) as Hc. unfold call_ok in Hc.
      destruct (c_pc c) as [| | | [err |]] eqn:Hpc; try exact Hv.
      destruct Hc as (_ & Hret & _). destruct (Hret eq_refl) as [_ Hdone].
      rewrite (forallb_lookup _ _ _ _ Hdone Ht) in Hnd. discriminate.
Qed.

Lemma solo_run_view (k : nat) (s0 : GetSessionEPOCH_Result) (p0 : bool)
    (tr : list event) :
  forall (w w' : world),
  reachable w -> Forall (own_event k) tr -> run tr w = Some w' ->
  solo_view k s0 p0 w -> solo_view k s0 p0 w'.
Proof.
  induction tr as [| ev tr IH]; intros w w' Hw Hown; simpl.
  - intros [= <-] Hv. exact Hv.
  - destruct (step ev w) as [w1 |] eqn:Hstep; [| discriminate].
    inversion Hown as [| ? ? Hev Hrest]; subst. intros Hrun Hv.
    apply (IH w1 w' (reachable_step _ _ _ Hw Hstep) Hrest Hrun).
    exact (solo_step_view _ _ _ _ _ _ (reachable_winv w Hw) Hev Hstep Hv).
Qed.

(** Entering one of the two dispatchers sets up [solo_view]. *)
Lemma entry_view (w0 w1 : world) (ev0 : event) :
  (exists n, ev0 = EvAttemptHashes n) \/ (exists params, ev0 = EvSubmitHashes params) ->
  step ev0 w0 = Some w1 ->
  solo_view (length (calls w0)) (session (eng w0)) (IsProcessing (eng w0)) w1 /\
  exists c1, calls w1 !! length (calls w0) = Some c1 /\
    c_kind c1 = match ev0 with
                | EvAttemptHashes n => Attempt n
                | EvSubmitHashes params => Submit params
                | _ => c_kind c1
                end.
Proof.
  intros Hev. unfold step. destruct (crashed w0); [discriminate |].
  destruct Hev as [[n ->] | [params ->]].
  - unfold AttemptHashes_entry.
    destruct (negb _); [| destruct (_ >? _)]; intros [= <-]; simpl;
      (split; [eexists; split; [apply list_lookup_middle; reflexivity |]
              | eexists; split; [apply list_lookup_middle; reflexivity |]]);
      simpl; auto.
  - unfold SubmitHashes_entry.
    destruct (negb _); [| destruct (_ >? _)]; intros [= <-]; simpl;
      (split; [eexists; split; [apply list_lookup_middle; reflexivity |]
              | eexists; split; [apply list_lookup_middle; reflexivity |]]);
      simpl; auto.
Qed.

(** X18.  The processing flag follows a batch that has the engine to itself:
    from its entry, under any schedule of its own goroutines and of the read
    loop, the flag is up as long as the batch has not returned, so that
    [GetSession] passes over every poll made meanwhile, and down once it
    has, so that [GetSession] then answers at once; a call that is rejected
    at entry leaves the flag as it found it. *)
Theorem processing_tracks_batch (w0 : world) (ev0 : event) (tr : list event)
    (w : world) (c : call) :
  reachable w0 ->
  (exists n, ev0 = EvAttemptHashes n) \/ (exists params, ev0 = EvSubmitHashes params) ->
  Forall (own_event (length (calls w0))) tr ->
  run (ev0 :: tr) w0 = Some w -> calls w !! length (calls w0) = Some c ->
  match c_pc c with
  | CReturned (Some _) => IsProcessing (eng w) = IsProcessing (eng w0)
  | CReturned None =>
      IsProcessing (eng w) = false /\
      forall rest, GetSession (eng w :: rest) = (session (eng w), None)
  | _ =>
      IsProcessing (eng w) = true /\
      forall rest, GetSession (eng w :: rest) = GetSession rest
  end.
Proof.
  intros Hw Hev Hown Hrun Hk. simpl in Hrun.
  destruct (step ev0 w0) as [w1 |] eqn:Hstep; [| discriminate].
  destruct (entry_view _ _ _ Hev Hstep) as [Hv _].
  destruct (solo_run_view _ _ _ tr w1 w (reachable_step _ _ _ Hw Hstep) Hown Hrun Hv)
    as (c' & Hk' & Hview).
  rewrite Hk in Hk'. injection Hk' as <-.
  destruct (c_pc c) as [| | | [err |]]; destruct Hview as [Hp Hs];
    try (split; [exact Hp |]; intros rest; simpl; rewrite Hp; reflexivity).
  exact Hp.
Qed.

(** X19.  What a returned [AttemptHashes] has done to the session, with the engine
    to itself from its entry: the hash counter is up by the [Hashes] of the
    result and the block counter by its [Submitted], in the arithmetic of
    [uint64] and [int]; the version tag is untouched; and [Hashes] is the
    number of goroutines launched, whether they failed or not. *)
Theorem AttemptHashes_session (w0 : world) (n : Z) (tr : list event)
    (w : world) (c : call) :
  reachable w0 -> Forall (own_event (length (calls w0))) tr ->
  run (EvAttemptHashes n :: tr) w0 = Some w ->
  calls w !! length (calls w0) = Some c -> c_pc c = CReturned None ->
  c_kind c = Attempt n /\
  Hashes (session (eng w))
  = wrap_uint64 (Hashes (session (eng w0)) + res_Hashes (c_result c)) /\
  MiniBlocks (session (eng w))
  = wrap_int (MiniBlocks (session (eng w0)) + res_Submitted (c_result c)) /\
  Version (session (eng w)) = Version (session (eng w0)) /\
  res_Hashes (c_result c) = Z.of_nat (length (c_tasks c)) /\
  0 <= res_Submitted (c_result c) <= res_Hashes (c_result c).
Proof.
  intros Hw Hown Hrun Hk Hpc. simpl in Hrun.
  destruct (step (EvAttemptHashes n) w0) as [w1 |] eqn:Hstep; [| discriminate].
  destruct (entry_view _ _ _ (or_introl (ex_intro _ n eq_refl)) Hstep)
    as [Hv (c1 & Hk1 & Hkind1)].
  assert (reachable w1) as Hw1 by exact (reachable_step _ _ _ Hw Hstep).
  assert (reachable w) as Hw' by exact (reachable_run _ _ _ Hw1 Hrun).
  destruct (solo_run_view _ _ _ tr w1 w Hw1 Hown Hrun Hv) as (c' & Hk' & Hview).
  rewrite Hk in Hk'. injection Hk' as <-. rewrite Hpc in Hview. destruct Hview as [_ Hs].
  assert (c_kind c = Attempt n) as Hkind.
  { destruct (run_keeps_call tr w1 w _ c1 Hrun Hk1) as (c2 & Hc2 & Hk2).
    rewrite Hk in Hc2. injection Hc2 as <-. congruence. }
  split; [exact Hkind |].
  unfold session_after in Hs. rewrite Hkind in Hs. rewrite Hs. simpl.
  split; [reflexivity |]. split; [reflexivity |]. split; [reflexivity |].
  pose proof (Forall_lookup_1 _ _ _ _ (proj2 (reachable_winv w Hw')) Hk) as Hok.
  unfold call_ok in Hok. rewrite Hpc, Hkind in Hok.
  destruct Hok as (_ & Hret & _ & _ & Hlen & _). destruct (Hret eq_refl) as [Hh Hdone].
  split; [lia |].
  pose proof (Forall_lookup_1 _ _ _ _ (reachable_acct w Hw') Hk) as (_ & _ & Hsub & _).
  pose proof (count_tasks_bounds counted (c_tasks c)). lia.
Qed.

End ReportFacts.

Lemma result_error_iff_failure_witness :
  reachable (ext := demo) demo_attempted /\
  exists c, calls demo_attempted !! 0%nat = Some c /\ c_pc c = CReturned None /\
    res_Error (c_result c) = None /\ res_Hashes (c_result c) = Z.max 1 0.
Proof.
  assert (reachable (ext := demo) demo_attempted) as Hr
    by (exists ([demo_start; EvNewJob (demo_job blob48); EvAttemptHashes 1]
                ++ one_attempt_schedule); vm_compute; reflexivity).
  split; [exact Hr |]. eexists. split; [vm_compute; reflexivity |].
  split; [reflexivity |].
  match goal with
  | |- res_Error (c_result ?c) = None /\ _ =>
      destruct (result_error_iff_failure (ext := demo) demo_attempted 0 c Hr
                  eq_refl eq_refl) as [Hiff Hall];
      assert (res_Error (c_result c) = None) as Hnone
        by (apply (proj2 Hiff); vm_compute; reflexivity)
  end.
  split; [exact Hnone |]. exact (proj1 (Hall Hnone)).
Defined.

Lemma Submitted_at_most_valid_witness :
  reachable (ext := demo) demo_attempted /\
  exists c, calls demo_attempted !! 0%nat = Some c /\
    0 <= res_Submitted (c_result c) <= count_tasks valid_ret (c_tasks c).
Proof.
  assert (reachable (ext := demo) demo_attempted) as Hr
    by (exists ([demo_start; EvNewJob (demo_job blob48); EvAttemptHashes 1]
                ++ one_attempt_schedule); vm_compute; reflexivity).
  split; [exact Hr |]. eexists. split; [vm_compute; reflexivity |].
  match goal with
  | |- 0 <= res_Submitted (c_result ?c) <= _ =>
      exact (proj1 (Submitted_at_most_valid (ext := demo) demo_attempted 0 c Hr eq_refl))
  end.
Defined.

Lemma processing_tracks_batch_witness :
  reachable (ext := demo) demo_ready /\
  Forall (own_event 0) one_attempt_schedule /\
  run (ext := demo) (EvAttemptHashes 1 :: one_attempt_schedule) demo_ready
  = Some demo_attempted /\
  IsProcessing (eng demo_attempted) = false /\
  GetSession [eng demo_attempted] = (session (eng demo_attempted), None).
Proof.
  assert (reachable (ext := demo) demo_ready) as Hr
    by (exists [demo_start; EvNewJob (demo_job blob48)]; vm_compute; reflexivity).
  assert (Forall (own_event 0) one_attempt_schedule) as Hown by (repeat constructor).
  assert (run (ext := demo) (EvAttemptHashes 1 :: one_attempt_schedule) demo_ready
          = Some demo_attempted) as Hrun by (vm_compute; reflexivity).
  split; [exact Hr |]. split; [exact Hown |]. split; [exact Hrun |].
  pose proof (processing_tracks_batch (ext := demo) demo_ready (EvAttemptHashes 1)
                one_attempt_schedule demo_attempted _ Hr
                (or_introl (ex_intro _ 1 eq_refl)) Hown Hrun eq_refl) as [Hp Hs].
  split; [exact Hp | exact (Hs [])].
Defined.

Lemma AttemptHashes_session_witness :
  reachable (ext := demo) demo_ready /\
  Forall (own_event 0) one_attempt_schedule /\
  run (ext := demo) (EvAttemptHashes 1 :: one_attempt_schedule) demo_ready
  = Some demo_attempted /\
  exists c, calls demo_attempted !! 0%nat = Some c /\ c_pc c = CReturned None /\
    Hashes (session (eng demo_attempted))
    = wrap_uint64 (Hashes (session (eng demo_ready)) + res_Hashes (c_result c)).
Proof.
  assert (reachable (ext := demo) demo_ready) as Hr
    by (exists [demo_start; EvNewJob (demo_job blob48)]; vm_compute; reflexivity).
  assert (Forall (own_event 0) one_attempt_schedule) as Hown by (repeat constructor).
  assert (run (ext := demo) (EvAttemptHashes 1 :: one_attempt_schedule) demo_ready
          = Some demo_attempted) as Hrun by (vm_compute; reflexivity).
  split; [exact Hr |]. split; [exact Hown |]. split; [exact Hrun |].
  eexists. split; [vm_compute; reflexivity |]. split; [reflexivity |].
  match goal with
  | |- _ = wrap_uint64 (_ + res_Hashes (c_result ?c)) =>
      exact (proj1 (proj2 (AttemptHashes_session (ext := demo) demo_ready 1
                             one_attempt_schedule demo_attempted c Hr Hown Hrun
                             eq_refl eq_refl)))
  end.
Defined.

(** ** Slots, limits, defaults *)

Section LimitFacts.
Context {ext : Externals}.

Lemma returned_holds_nothing (c : call) (err : option error) :
  call_ok c -> c_pc c = CReturned err -> holding_tasks (c_tasks c) = 0.
Proof.
  unfold call_ok. intros Hok Hpc. rewrite Hpc in Hok. destruct err as [err |].
  - destruct Hok as [-> _]. reflexivity.
  - destruct Hok as (_ & Hret & _). destruct (Hret eq_refl) as [_ Hdone].
    exact (forallb_task_done_holding _ Hdone).
Qed.

(** X20.  No slot leaks: a returned activation holds no slot of the semaphore,
    every one of its goroutines having made its deferred receive; and when
    every activation has returned the semaphore is empty again (along
    schedules on which no [StartGetWork] replaces a semaphore that is in
    use). *)
Theorem no_slot_leak (tr : list event) (w : world) :
  quiet_starts tr world_init -> run tr world_init = Some w ->
  (forall k c err, calls w !! k = Some c -> c_pc c = CReturned err ->
     holding_tasks (c_tasks c) = 0 /\ Forall (fun t => t_released t = 1%nat) (c_tasks c)) /\
  (Forall (fun c => exists err, c_pc c = CReturned err) (calls w) ->
   holding w = 0 /\ forall ch, semaphore (eng w) = Some ch -> chan_len ch = 0).
Proof.
  intros Hq Hrun.
  assert (reachable w) as Hw by (exists tr; exact Hrun).
  destruct (reachable_winv w Hw) as [_ Hcs].
  pose proof (run_slots_once tr _ _ slots_once_init Hrun) as Hslots.
  pose proof (run_sem_good tr _ _ _ sem_good_init Hq Hrun) as Hsem.
  split.
  - intros k c err Hk Hpc.
    pose proof (Forall_lookup_1 _ _ _ _ Hcs Hk) as Hok.
    split; [exact (returned_holds_nothing c err Hok Hpc) |].
    pose proof (Forall_lookup_1 _ _ _ _ Hslots Hk) as Hsl. simpl in Hsl.
    unfold call_ok in Hok. rewrite Hpc in Hok. destruct err as [err |].
    + destruct Hok as [-> _]. constructor.
    + destruct Hok as (_ & Hret & _). destruct (Hret eq_refl) as [_ Hdone].
      apply Forall_forall. intros t Ht.
      apply list_elem_of_lookup in Ht as [i Hi].
      pose proof (Forall_lookup_1 _ _ _ _ Hsl Hi) as [_ Hrel].
      rewrite (forallb_lookup _ _ _ _ Hdone Hi) in Hrel. exact Hrel.
  - intros Hall.
    assert (holding w = 0) as Hzero.
    { unfold holding. revert Hcs Hall. generalize (calls w).
      induction l as [| c l IH]; simpl; [reflexivity |].
      intros Hcs Hall. inversion Hcs as [| ? ? Hc Hl]; subst.
      inversion Hall as [| ? ? [err Hpc] Hrest]; subst.
      rewrite (returned_holds_nothing c err Hc Hpc), (IH Hl Hrest). reflexivity. }
    split; [exact Hzero |].
    intros ch Hch. unfold sem_good in Hsem. rewrite Hch in Hsem. lia.
Qed.

(** X21.  The package limit holds whatever is configured: in every reachable
    state the ceiling is at most [LIMIT_MAX_HASHES], a request for more
    hashes or more submissions than that is rejected at entry, and no
    activation has ever launched more goroutines than that. *)
Theorem over_limit_always_rejected (w : world) (n : Z) (params : list Submit_Params) :
  reachable w ->
  GetMaxHashes (eng w) <= LIMIT_MAX_HASHES /\
  (crashed w = false -> LIMIT_MAX_HASHES < n ->
   exists err,
     step (EvAttemptHashes n) w
     = Some (set_calls (calls w ++ [new_call (Attempt n) (CReturned (Some err))]) w)) /\
  (crashed w = false -> LIMIT_MAX_HASHES < Z.of_nat (length params) ->
   exists err,
     step (EvSubmitHashes params) w
     = Some (set_calls (calls w ++ [new_call (Submit params) (CReturned (Some err))]) w)) /\
  (forall k c, calls w !! k = Some c ->
     Z.of_nat (length (c_tasks c)) <= LIMIT_MAX_HASHES).
Proof.
  intros Hw. destruct (reachable_winv w Hw) as [(Hmax & _) Hcs].
  split; [exact Hmax |]. split; [| split].
  - intros Hc Hn. rewrite step_AttemptHashes by exact Hc. unfold AttemptHashes_entry.
    destruct (IsActive (eng w)); simpl.
    + unfold GetMaxHashes in *. destruct (Z.gtb_spec n (maxHashes (eng w))); [| lia].
      eexists. destruct w; reflexivity.
    + eexists. destruct w; reflexivity.
  - intros Hc Hn. rewrite step_SubmitHashes by exact Hc. unfold SubmitHashes_entry.
    destruct (IsActive (eng w)); simpl.
    + unfold GetMaxHashes in *.
      destruct (Z.gtb_spec (Z.of_nat (length params)) (maxHashes (eng w))); [| lia].
      eexists. destruct w; reflexivity.
    + eexists. destruct w; reflexivity.
  - intros k c Hk. exact (call_ok_length c (Forall_lookup_1 _ _ _ _ Hcs Hk)).
Qed.

(** X22.  What [init()] sets up: port 10100, a ceiling of 1000 hashes, a worker
    limit of 2 or of the number of CPUs if there are fewer; no connection,
    no semaphore, no address, no job, a zero session. *)
Theorem init_defaults :
  GetPort init = "10100" /\ GetMaxHashes init = 1000 /\
  (1 <= NumCPU -> GetMaxThreads init = Z.min DEFAULT_MAX_THREADS NumCPU) /\
  IsActive init = false /\ IsProcessing init = false /\ GetAddress init = "" /\
  semaphore init = None /\ session init = session_zero /\ getJob init = rpc.zero.
Proof.
  split; [vm_compute; reflexivity |]. split; [reflexivity |].
  split; [| repeat split; reflexivity].
  intros Hcpu. unfold init, SetMaxThreads, GetMaxThreads, DEFAULT_MAX_THREADS. simpl.
  destruct (Z.gtb_spec 2 NumCPU); simpl; lia.
Qed.

End LimitFacts.

Lemma no_slot_leak_witness :
  quiet_starts (ext := demo)
    ([demo_start; EvNewJob (demo_job blob48); EvAttemptHashes 1] ++ one_attempt_schedule)
    demo_init /\
  run (ext := demo)
    ([demo_start; EvNewJob (demo_job blob48); EvAttemptHashes 1] ++ one_attempt_schedule)
    demo_init = Some demo_attempted /\
  holding demo_attempted = 0.
Proof.
  assert (quiet_starts (ext := demo)
            ([demo_start; EvNewJob (demo_job blob48); EvAttemptHashes 1]
             ++ one_attempt_schedule) demo_init) as Hq.
  { vm_compute. repeat split; intros; try reflexivity; discriminate. }
  assert (run (ext := demo)
            ([demo_start; EvNewJob (demo_job blob48); EvAttemptHashes 1]
             ++ one_attempt_schedule) demo_init = Some demo_attempted) as Hrun
    by (vm_compute; reflexivity).
  split; [exact Hq |]. split; [exact Hrun |].
  apply (proj2 (no_slot_leak (ext := demo) _ _ Hq Hrun)).
  repeat constructor. exists None. reflexivity.
Defined.

Lemma over_limit_always_rejected_witness :
  reachable (ext := demo) demo_started /\ LIMIT_MAX_HASHES < 10001 /\
  exists err,
    step (ext := demo) (EvAttemptHashes 10001) demo_started
    = Some (set_calls (calls demo_started
                       ++ [new_call (Attempt 10001) (CReturned (Some err))]) demo_started).
Proof.
  assert (reachable (ext := demo) demo_started) as Hr
    by (exists [demo_start]; vm_compute; reflexivity).
  split; [exact Hr |]. split; [reflexivity |].
  exact (proj1 (proj2 (over_limit_always_rejected (ext := demo) demo_started 10001 [] Hr))
           eq_refl eq_refl).
Defined.

Lemma init_defaults_witness :
  1 <= NumCPU (Externals := demo) /\
  GetMaxThreads (init (ext := demo)) = Z.min DEFAULT_MAX_THREADS 4.
Proof.
  split; [vm_compute; discriminate |].
  apply (proj1 (proj2 (proj2 (init_defaults (ext := demo))))). vm_compute. discriminate.
Defined.

(** ** Blocks counted and messages sent *)

Section OutboxFacts.
Context {ext : Externals}.

(** A goroutine gets [true] from [submitBlock] only with a message handed
    to the socket. *)
Lemma task_step_sent (io : task_io) (tk tk' : task) (c c' : call) (e e' : EPOCH)
    (out out' : list rpc.SubmitBlock_Params) :
  task_step io tk c e out = Some (Ret (tk', c', e', out')) ->
  (if valid_ret tk' then 1 else 0) - (if valid_ret tk then 1 else 0)
  <= Z.of_nat (length out') - Z.of_nat (length out) /\
  (length out <= length out')%nat.
Proof.
  unfold task_step. destruct (t_pc tk) eqn:Hpc.
  - destruct (powHash _ _) as [| r]; [discriminate |].
    destruct (ph_err r); step_result; unfold valid_ret; simpl; split; lia.
  - unfold submitBlock. destruct (negb (IsActive e)).
    { step_result. unfold valid_ret. simpl. destruct (t_ret tk) as [[[|] [? |]] |]; split; lia. }
    destruct (CheckPowHashBig _ _).
    + destruct (io_write_ok io).
      * destruct (c_kind c); step_result; unfold valid_ret; simpl;
          rewrite length_app; simpl; destruct (t_ret tk) as [[[|] [? |]] |]; split; lia.
      * step_result. unfold valid_ret. simpl. rewrite length_app. simpl.
        destruct (t_ret tk) as [[[|] [? |]] |]; split; lia.
    + destruct (c_kind c); step_result; unfold valid_ret; simpl;
        destruct (t_ret tk) as [[[|] [? |]] |]; split; lia.
  - step_result. unfold valid_ret. simpl. split; lia.
  - step_result. unfold valid_ret. simpl. split; lia.
  - step_result. unfold valid_ret. simpl. split; lia.
  - step_result. unfold valid_ret. simpl. split; lia.
  - step_result. unfold valid_ret. simpl. split; lia.
  - destruct (release e); [| discriminate]. step_result. unfold valid_ret. simpl. split; lia.
  - discriminate.
Qed.

Lemma step_sent (ev : event) (w w' : world) :
  step ev w = Some w' ->
  total_valid w <= Z.of_nat (length (outbox w)) ->
  total_valid w' <= Z.of_nat (length (outbox w')).
Proof.
  unfold step, total_valid. destruct (crashed w); [discriminate |].
  event_cases ev; try (intros [= <-]; exact id).
  - destruct (StartGetWork _ _ _ _) as [| [e' err]]; intros [= <-]; exact id.
  - destruct (IsActive _); [| discriminate]. intros [= <-]. exact id.
  - destruct (AttemptHashes_entry n (eng w)) as [c e] eqn:Hentry. intros [= <-]. simpl.
    rewrite sumZ_app. simpl.
    assert (c_tasks c = []) as ->.
    { unfold AttemptHashes_entry in Hentry.
      destruct (negb _); [| destruct (_ >? _)]; injection Hentry as <- _; reflexivity. }
    unfold count_tasks. simpl. lia.
  - destruct (SubmitHashes_entry params (eng w)) as [c e] eqn:Hentry. intros [= <-]. simpl.
    rewrite sumZ_app. simpl.
    assert (c_tasks c = []) as ->.
    { unfold SubmitHashes_entry in Hentry.
      destruct (negb _); [| destruct (_ >? _)]; injection Hentry as <- _; reflexivity. }
    unfold count_tasks. simpl. lia.
  - destruct (calls w !! k) as [c |] eqn:Hk; [| discriminate].
    destruct (call_step clock c (eng w)) as [[c' e'] |] eqn:Hstep; [| discriminate].
    intros [= <-]. simpl. rewrite (sumZ_insert _ _ _ _ _ Hk).
    apply call_step_semaphore in Hstep
      as [[_ ->] | (ch & pc & _ & _ & _ & -> & _)]; [lia |].
    rewrite count_tasks_app_new by reflexivity. lia.
  - destruct (calls w !! k) as [c |] eqn:Hk; [| discriminate].
    destruct (c_tasks c !! t) as [tk |] eqn:Ht; [| discriminate].
    destruct (task_step io tk c (eng w) (outbox w)) as [[| [[[tk' c'] e'] out']] |] eqn:Hstep;
      [| | discriminate]; intros [= <-]; [exact id |].
    simpl. rewrite (sumZ_insert _ _ _ _ _ Hk). simpl.
    pose proof (task_step_semaphore _ _ _ _ _ _ _ _ _ Hstep) as (-> & _).
    rewrite (count_tasks_insert _ _ _ _ _ Ht).
    pose proof (task_step_sent _ _ _ _ _ _ _ _ _ Hstep). lia.
Qed.

(** X23.  No block is counted without a message: in every reachable state the
    blocks counted by the results of all activations are at most the
    goroutines that got [true] from [submitBlock], and those are at most the
    messages handed to the socket so far. *)
Theorem counted_blocks_were_sent (w : world) :
  reachable w ->
  0 <= total_submitted w <= total_valid w /\
  total_valid w <= Z.of_nat (length (outbox w)).
Proof.
  intros Hw. split.
  - pose proof (reachable_acct w Hw) as Hacct. unfold total_submitted, total_valid.
    induction Hacct as [| c l (_ & _ & Hs & _) _ IH]; simpl; [lia |].
    assert (count_tasks counted (c_tasks c) <= count_tasks valid_ret (c_tasks c)) as H1.
    { apply count_tasks_le. intros t. unfold counted. intros H.
      apply andb_prop in H as [H _]. exact H. }
    lia.
  - destruct Hw as [tr Hrun].
    assert (forall tr w0 w1, run tr w0 = Some w1 ->
              total_valid w0 <= Z.of_nat (length (outbox w0)) ->
              total_valid w1 <= Z.of_nat (length (outbox w1))) as Hgen.
    { clear. induction tr as [| ev tr IH]; intros w0 w1; simpl.
      - intros [= <-]. exact id.
      - destruct (step ev w0) as [w2 |] eqn:Hstep; [| discriminate].
        intros Hrun H0. exact (IH _ _ Hrun (step_sent _ _ _ Hstep H0)). }
    apply (Hgen tr world_init w Hrun). unfold total_valid. simpl. lia.
Qed.

End OutboxFacts.

Lemma counted_blocks_were_sent_witness :
  reachable (ext := demo) demo_attempted /\
  total_submitted demo_attempted = 1 /\ length (outbox demo_attempted) = 1%nat /\
  total_submitted demo_attempted <= Z.of_nat (length (outbox demo_attempted)).
Proof.
  assert (reachable (ext := demo) demo_attempted) as Hr
    by (exists ([demo_start; EvNewJob (demo_job blob48); EvAttemptHashes 1]
                ++ one_attempt_schedule); vm_compute; reflexivity).
  split; [exact Hr |]. split; [reflexivity |]. split; [reflexivity |].
  destruct (counted_blocks_were_sent (ext := demo) demo_attempted Hr) as [[_ H1] H2].
  exact (Z.le_trans _ _ _ H1 H2).
Defined.

(** ** Progress and termination *)

Section ProgressFacts.
Context {ext : Externals}.

Lemma sumZ_pos_ex {A : Type} (g : A -> Z) (l : list A) :
  (forall x, 0 <= g x) -> 1 <= sumZ g l ->
  exists i x, l !! i = Some x /\ 1 <= g x.
Proof.
  intros Hg. induction l as [| a l IH]; simpl; [lia |].
  intros H. destruct (Z_le_gt_dec 1 (g a)) as [Ha | Ha].
  - exists 0%nat, a. split; [reflexivity | exact Ha].
  - pose proof (Hg a). destruct IH as (i & x & Hi & Hx); [lia |].
    exists (S i), x. split; [exact Hi | exact Hx].
Qed.

Lemma sumZ_lookup_le {A : Type} (g : A -> Z) (l : list A) (i : nat) (x : A) :
  (forall y, 0 <= g y) -> l !! i = Some x -> g x <= sumZ g l.
Proof.
  intros Hg. revert i. induction l as [| a l IH]; intros i; [discriminate |].
  destruct i as [| i]; simpl.
  - intros [= ->]. pose proof (sumZ_nonneg g l Hg). lia.
  - intros Hi. pose proof (IH i Hi). pose proof (Hg a). lia.
Qed.

Lemma undone_holds (w : world) (k t : nat) (c : call) (tk : task) :
  calls w !! k = Some c -> c_tasks c !! t = Some tk -> task_done tk = false ->
  1 <= holding w.
Proof.
  intros Hk Ht Hnd. unfold holding.
  assert (1 <= holding_tasks (c_tasks c)) as Hc.
  { unfold holding_tasks, count_tasks.
    pose proof (sumZ_lookup_le (fun t => if negb (task_done t) then 1 else 0)
                  (c_tasks c) t tk) as Hle.
    simpl in Hle. rewrite Hnd in Hle. simpl in Hle. apply Hle; [| exact Ht].
    intros y. destruct (negb (task_done y)); lia. }
  pose proof (sumZ_lookup_le (fun c => holding_tasks (c_tasks c)) (calls w) k c) as Hle.
  simpl in Hle. etransitivity; [exact Hc |]. apply Hle; [| exact Hk].
  intros y. unfold holding_tasks. apply count_tasks_bounds.
Qed.

Lemma holding_undone (w : world) :
  1 <= holding w ->
  exists k c t tk, calls w !! k = Some c /\ c_tasks c !! t = Some tk /\
    task_done tk = false.
Proof.
  unfold holding. intros H.
  apply sumZ_pos_ex in H as (k & c & Hk & Hc);
    [| intros y; unfold holding_tasks; apply count_tasks_bounds].
  unfold holding_tasks, count_tasks in Hc.
  apply sumZ_pos_ex in Hc as (t & tk & Ht & Htk);
    [| intros y; destruct (negb (task_done y)); lia].
  exists k, c, t, tk. split; [exact Hk |]. split; [exact Ht |].
  destruct (task_done tk); [simpl in Htk; lia | reflexivity].
Qed.

Lemma not_all_done (ts : list task) :
  forallb task_done ts = false ->
  exists t tk, ts !! t = Some tk /\ task_done tk = false.
Proof.
  induction ts as [| a ts IH]; simpl; [discriminate |].
  destruct (task_done a) eqn:Ha; simpl.
  - intros H. destruct (IH H) as (t & tk & Ht & Hd). exists (S t), tk. auto.
  - intros _. exists 0%nat, a. auto.
Qed.

(** X24.  No goroutine is ever stuck on the semaphore (on a machine with at
    least one CPU, along schedules on which no [StartGetWork] replaces a
    semaphore that is in use, and as long as the process has not panicked):
    a goroutine that has been launched and is not done can always take its
    next step, its deferred receive never blocks; a semaphore that is full
    is held by a goroutine that can step, so that it does not stay full for
    want of a move; and a caller in [wg.Wait()] either can return or has a
    goroutine that can step.  Steps are those of [step]: the send with the
    [go] statement that follows it, and [submitBlock] with its lock on the
    connection, are one step each.  Nothing is said of a caller whose send
    is on a nil semaphore. *)
Theorem no_goroutine_stuck (tr : list event) (w : world) :
  1 <= NumCPU -> quiet_starts tr world_init -> run tr world_init = Some w ->
  crashed w = false ->
  (forall k c t tk io, calls w !! k = Some c -> c_tasks c !! t = Some tk ->
     task_done tk = false -> step (EvTask k t io) w <> None) /\
  (forall ch, semaphore (eng w) = Some ch -> chan_len ch = chan_cap ch ->
     exists k c t tk, calls w !! k = Some c /\ c_tasks c !! t = Some tk /\
       task_done tk = false /\ forall io, step (EvTask k t io) w <> None) /\
  (forall k c, calls w !! k = Some c -> c_pc c = CWait ->
     (forall clock, step (EvCall k clock) w <> None) \/
     (exists t tk, c_tasks c !! t = Some tk /\ task_done tk = false /\
        forall io, step (EvTask k t io) w <> None)).
Proof.
  intros Hcpu Hq Hrun Hcr.
  assert (reachable w) as Hw by (exists tr; exact Hrun).
  pose proof (run_sem_good tr _ _ _ sem_good_init Hq Hrun) as Hsem.
  pose proof (reachable_cfg_ok w Hw) as (_ & _ & _ & _ & Hcap).
  assert (forall k c t tk io, calls w !! k = Some c -> c_tasks c !! t = Some tk ->
            task_done tk = false -> step (EvTask k t io) w <> None) as Htasks.
  { intros k c t tk io Hk Ht Hnd.
    pose proof (undone_holds w k t c tk Hk Ht Hnd) as Hpos.
    unfold sem_good in Hsem. destruct (semaphore (eng w)) as [ch |] eqn:Hch; [| lia].
    pose proof (task_step_enabled io tk c (eng w) (outbox w) ch Hnd Hch ltac:(lia)) as Hen.
    unfold step. rewrite Hcr, Hk, Ht.
    destruct (task_step io tk c (eng w) (outbox w)) as [[| [[[tk' c'] e'] out']] |];
      [discriminate | discriminate | contradiction]. }
  split; [exact Htasks |]. split.
  - intros ch Hch Hfull. unfold sem_good in Hsem. rewrite Hch in Hsem.
    destruct (Hcap ch Hch) as [_ Hrange]. specialize (Hrange Hcpu).
    destruct (holding_undone w ltac:(lia)) as (k & c & t & tk & Hk & Ht & Hnd).
    exists k, c, t, tk. split; [exact Hk |]. split; [exact Ht |]. split; [exact Hnd |].
    intros io. exact (Htasks _ _ _ _ io Hk Ht Hnd).
  - intros k c Hk Hp.
    destruct (forallb task_done (c_tasks c)) eqn:Hdone.
    + left. intros clock.
      unfold step. rewrite Hcr, Hk. unfold call_step. rewrite Hp, Hdone. discriminate.
    + right. destruct (not_all_done _ Hdone) as (t & tk & Ht & Hnd).
      exists t, tk. split; [exact Ht |]. split; [exact Hnd |].
      intros io. exact (Htasks _ _ _ _ io Hk Ht Hnd).
Qed.

Lemma task_step_loops_left (io : task_io) (t : nat) (tk tk' : task) (c c' : call)
    (e e' : EPOCH) (out out' : list rpc.SubmitBlock_Params) :
  call_ok c -> c_tasks c !! t = Some tk ->
  task_step io tk c e out = Some (Ret (tk', c', e', out')) ->
  loops_left c' = loops_left c.
Proof.
  intros Hok Ht Hstep.
  pose proof (task_step_semaphore _ _ _ _ _ _ _ _ _ Hstep)
    as (_ & Hkind & _ & Hnext & Hnd & _).
  destruct (call_ok_with_task c t tk Hok Ht Hnd) as [Hwf Hsub].
  assert (is_submit (c_kind c) -> 0 <= c_i c <= stored_tasks (c_tasks c)) as Hi.
  { destruct (c_kind c) as [n | params] eqn:Hk; [intros [] | intros _].
    exact (proj2 (proj2 (Hsub params eq_refl))). }
  pose proof (task_step_wf _ _ _ _ _ _ _ _ _ _ (Forall_lookup_1 _ _ _ _ Hwf Ht) Hi Hstep)
    as (_ & _ & Hci).
  unfold loops_left. rewrite Hkind, Hnext.
  destruct (c_kind c); [rewrite Hci |]; reflexivity.
Qed.

Lemma call_step_measure (clock : Z) (c c' : call) (e e' : EPOCH) :
  call_ok c -> call_step clock c e = Some (c', e') ->
  call_measure c' + 1 <= call_measure c.
Proof.
  intros Hok. unfold call_step, call_measure.
  destruct (c_pc c) eqn:Hpc.
  - destruct (loop_cond c); [destruct (res_Error _) |]; intros [= <- <-];
      unfold loops_left; simpl; lia.
  - destruct (acquire e); [| discriminate].
    unfold call_ok in Hok. rewrite Hpc in Hok. destruct Hok as (_ & _ & Hkind).
    unfold loops_left.
    destruct (c_kind c) as [n | params] eqn:Hk.
    + destruct Hkind as (Hn & Hi & _ & Hlt). specialize (Hlt eq_refl).
      intros [= <- <-]. simpl. rewrite Hk, sumZ_app. simpl.
      unfold LIMIT_MAX_HASHES in Hn.
      rewrite wrap_int_id by (unfold int_range; lia). lia.
    + destruct Hkind as (_ & _ & _ & _ & _ & Hlt). specialize (Hlt eq_refl).
      destruct (params !! c_next c); [| discriminate].
      intros [= <- <-]. simpl. rewrite Hk, sumZ_app. simpl. lia.
  - destruct (forallb task_done (c_tasks c)); [| discriminate].
    unfold finish. intros [= <- <-]. unfold loops_left. simpl. lia.
  - discriminate.
Qed.

Lemma task_step_measure (io : task_io) (t : nat) (tk tk' : task) (c c' : call)
    (e e' : EPOCH) (out out' : list rpc.SubmitBlock_Params) :
  call_ok c -> c_tasks c !! t = Some tk ->
  task_step io tk c e out = Some (Ret (tk', c', e', out')) ->
  call_measure (set_c_tasks (<[t := tk']> (c_tasks c')) c') + 1 <= call_measure c.
Proof.
  intros Hok Ht Hstep.
  pose proof (task_step_semaphore _ _ _ _ _ _ _ _ _ Hstep) as (Hts & _ & Hpc & _).
  pose proof (task_step_loops_left _ _ _ _ _ _ _ _ _ _ Hok Ht Hstep) as Hl.
  pose proof (task_step_decreases _ _ _ _ _ _ _ _ _ Hstep) as [Hdec _].
  unfold call_measure.
  change (loops_left (set_c_tasks (<[t := tk']> (c_tasks c')) c')) with (loops_left c').
  simpl. rewrite Hl, Hpc, Hts, (sumZ_insert _ _ _ _ _ Ht). lia.
Qed.

Lemma call_measure_nonneg (c : call) : 0 <= call_measure c.
Proof.
  unfold call_measure.
  assert (forall t : task, 0 <= Z.of_nat (steps_left (t_pc t))) as Hg by (intros; lia).
  pose proof (sumZ_nonneg (fun t => Z.of_nat (steps_left (t_pc t))) (c_tasks c) Hg).
  destruct (c_pc c); simpl; lia.
Qed.

Lemma work_step_measure (ev : event) (w w' : world) :
  winv w -> work_event ev -> step ev w = Some w' -> crashed w' = false ->
  world_measure w' + 1 <= world_measure w.
Proof.
  intros [_ Hcs] Hev Hstep Hcr. unfold step in Hstep.
  destruct (crashed w); [discriminate |]. unfold world_measure.
  destruct ev as [| | | | | | | | | k clock | k t io]; try contradiction.
  - destruct (calls w !! k) as [c |] eqn:Hk; [| discriminate].
    destruct (call_step clock c (eng w)) as [[c' e'] |] eqn:Hcall; [| discriminate].
    injection Hstep as <-. simpl. rewrite (sumZ_insert _ _ _ _ _ Hk).
    pose proof (call_step_measure _ _ _ _ _ (Forall_lookup_1 _ _ _ _ Hcs Hk) Hcall). lia.
  - destruct (calls w !! k) as [c |] eqn:Hk; [| discriminate].
    destruct (c_tasks c !! t) as [tk |] eqn:Ht; [| discriminate].
    destruct (task_step io tk c (eng w) (outbox w))
      as [[| [[[tk' c'] e'] out']] |] eqn:Htask; [| | discriminate];
      injection Hstep as <-; [discriminate |].
    simpl. rewrite (sumZ_insert _ _ _ _ _ Hk).
    pose proof (task_step_measure _ _ _ _ _ _ _ _ _ _
                  (Forall_lookup_1 _ _ _ _ Hcs Hk) Ht Htask). lia.
Qed.

Lemma work_run_bound (tr : list event) :
  forall (w w' : world),
  reachable w -> Forall work_event tr -> run tr w = Some w' ->
  Z.of_nat (length tr) <= world_measure w + 1.
Proof.
  assert (forall w, 0 <= world_measure w) as Hnn.
  { intros w. apply sumZ_nonneg. exact call_measure_nonneg. }
  induction tr as [| ev tr IH]; intros w w' Hw Hev Hrun.
  - pose proof (Hnn w). simpl. lia.
  - simpl in Hrun. destruct (step ev w) as [w1 |] eqn:Hstep; [| discriminate].
    inversion Hev as [| ? ? Hwork Hrest]; subst.
    destruct (crashed w1) eqn:Hc1.
    + destruct tr as [| ev' tr']; simpl in Hrun.
      * pose proof (Hnn w). simpl. lia.
      * unfold step in Hrun. rewrite Hc1 in Hrun. discriminate.
    + pose proof (IH w1 w' (reachable_step _ _ _ Hw Hstep) Hrest Hrun).
      pose proof (work_step_measure _ _ _ (reachable_winv w Hw) Hwork Hstep Hc1).
      cbn [length]. lia.
Qed.

(** X25.  Batches terminate: from every reachable state there is a bound on the
    length of the schedules made only of steps of callers and goroutines,
    whatever the goroutines find; no loop of a dispatcher and no goroutine
    runs for ever. *)
Theorem batches_terminate (w : world) :
  reachable w ->
  exists bound : nat,
    forall (tr : list event) (w' : world),
      Forall work_event tr -> run tr w = Some w' -> (length tr <= bound)%nat.
Proof.
  intros Hw. exists (Z.to_nat (world_measure w + 1)). intros tr w' Hev Hrun.
  pose proof (work_run_bound tr w w' Hw Hev Hrun). lia.
Qed.

End ProgressFacts.

Lemma no_goroutine_stuck_witness :
  1 <= NumCPU (Externals := demo) /\
  quiet_starts (ext := demo) two_in_flight_schedule demo_init /\
  exists w, run (ext := demo) two_in_flight_schedule demo_init = Some w /\
    crashed w = false /\
    semaphore (eng w) = Some {| chan_cap := 2; chan_len := 2 |} /\
    step (ext := demo) (EvTask 0 1 demo_io) w <> None /\
    exists k c t tk, calls w !! k = Some c /\ c_tasks c !! t = Some tk /\
      task_done tk = false /\ forall io, step (ext := demo) (EvTask k t io) w <> None.
Proof.
  assert (1 <= NumCPU (Externals := demo)) as Hc by (vm_compute; discriminate).
  assert (quiet_starts (ext := demo) two_in_flight_schedule demo_init) as Hq.
  { vm_compute. repeat split; intros; try reflexivity; discriminate. }
  split; [exact Hc |]. split; [exact Hq |].
  eexists. split; [vm_compute; reflexivity |]. split; [reflexivity |].
  split; [reflexivity |].
  match goal with
  | |- step (EvTask 0 1 demo_io) ?w <> None /\ _ =>
      assert (run (ext := demo) two_in_flight_schedule demo_init = Some w) as Hrun
        by (vm_compute; reflexivity);
      destruct (no_goroutine_stuck (ext := demo) _ w Hc Hq Hrun eq_refl)
        as (Htask & Hfull & _)
  end.
  split; [exact (Htask 0%nat _ 1%nat _ demo_io eq_refl eq_refl eq_refl) |].
  exact (Hfull _ eq_refl eq_refl).
Defined.

Lemma batches_terminate_witness :
  reachable (ext := demo) demo_entered /\
  Forall work_event one_attempt_schedule /\
  run (ext := demo) one_attempt_schedule demo_entered = Some demo_attempted /\
  exists bound : nat,
    (length one_attempt_schedule <= bound)%nat /\
    forall (tr : list event) (w' : world),
      Forall work_event tr -> run (ext := demo) tr demo_entered = Some w' ->
      (length tr <= bound)%nat.
Proof.
  assert (reachable (ext := demo) demo_entered) as Hr
    by (exists [demo_start; EvNewJob (demo_job blob48); EvAttemptHashes 1];
        vm_compute; reflexivity).
  assert (Forall work_event one_attempt_schedule) as Hev by (repeat constructor).
  assert (run (ext := demo) one_attempt_schedule demo_entered = Some demo_attempted)
    as Hrun by (vm_compute; reflexivity).
  split; [exact Hr |]. split; [exact Hev |]. split; [exact Hrun |].
  destruct (batches_terminate (ext := demo) demo_entered Hr) as [bound Hb].
  exists bound. split; [exact (Hb one_attempt_schedule demo_attempted Hev Hrun) | exact Hb].
Defined.
